(** * MAX DP flow execution core

    A shallow embedding of the flow execution core of the MAX DP server:
    DAG scheduling ([app/utils/maxdp_dag_util.py]), the flow executor
    ([app/core/maxdp_flow_executor.py]), the sink nodes
    ([app/core/nodes/maxdp_sinks.py]), the worker manager
    ([app/core/maxdp_worker_manager.py]) and the execution endpoint
    ([app/api/api_v1/endpoints/maxdp_execute_router.py]).

    Python dictionaries whose order matters are association lists, those
    used as maps are stdpp [gmap]s, sets used only for membership are
    [gset]s, and a set that is iterated over is kept as the list of its
    elements together with an explicit iteration order. *)

From Stdlib Require Import ZArith QArith Lia.
From stdpp Require Import base option list strings gmap sets pretty sorting.

Close Scope Q_scope.
Local Open Scope string_scope.
Local Open Scope list_scope.
Local Open Scope Z_scope.

(** ** Outcomes

    [Ok] is a normal return and [Err] a raised exception.  Loops whose
    termination is not structural are run with a fuel counter; [OutOfFuel] is
    the artefact of that counter and is shown unreachable below. *)

Inductive res (E A : Type) : Type :=
  | Ok (a : A)
  | Err (e : E)
  | OutOfFuel.
Arguments Ok {E A} a.
Arguments Err {E A} e.
Arguments OutOfFuel {E A}.

(** ** Python values

    The values that travel through a flow ([Any] in the source): JSON data
    and pandas tables.  A table is an ordered list of typed columns and an
    ordered list of rows.  A number is an integer, and a string is kept as
    the bytes of its UTF-8 encoding.  The configuration of a node is JSON:
    it holds no table. *)

Inductive cell :=
  | CNull
  | CBool (b : bool)
  | CInt (n : Z)
  | CStr (s : string).

Record DataFrame := mkDataFrame {
  columns : list string;
  dtypes : list string;
  rows : list (list cell);
}.

#[local] Unset Elimination Schemes.
Inductive value :=
  | VNone
  | VBool (b : bool)
  | VInt (n : Z)
  | VStr (s : string)
  | VList (items : list value)
  | VDict (items : list (string * value))
  | VTable (df : DataFrame).
#[local] Set Elimination Schemes.

(** A Python [dict] with string keys keeps its keys in insertion order:
    an association list without repeated keys. *)
Section Dict.
Context {V : Type}.

Fixpoint dict_get (k : string) (d : list (string * V)) : option V :=
  match d with
  | [] => None
  | (k', v) :: d' => if decide (k' = k) then Some v else dict_get k d'
  end.

(** [d[k] = v]: an existing key keeps its position. *)
Fixpoint dict_set (k : string) (v : V) (d : list (string * V)) : list (string * V) :=
  match d with
  | [] => [(k, v)]
  | (k', v') :: d' => if decide (k' = k) then (k, v) :: d' else (k', v') :: dict_set k v d'
  end.

(** [d.pop(k)] without its result. *)
Fixpoint dict_pop (k : string) (d : list (string * V)) : list (string * V) :=
  match d with
  | [] => []
  | (k', v') :: d' => if decide (k' = k) then d' else (k', v') :: dict_pop k d'
  end.

(** [d.update(other)]. *)
Definition dict_update (d other : list (string * V)) : list (string * V) :=
  foldl (λ acc kv, dict_set kv.1 kv.2 acc) d other.

(** [d.setdefault(k, v)]. *)
Definition dict_setdefault (k : string) (v : V) (d : list (string * V)) : list (string * V) :=
  match dict_get k d with
  | Some _ => d
  | None => dict_set k v d
  end.

End Dict.

Abbreviation dict := (list (string * value)).

(** Truth value of an object in a condition (of JSON data: a condition on a
    table raises, and none of the conditions modelled here is on a value
    that can be one). *)
Definition truthy (v : value) : bool :=
  match v with
  | VNone => false
  | VBool b => b
  | VInt n => negb (n =? 0)
  | VStr s => negb (String.eqb s "")
  | VList l => negb (bool_decide (l = []))
  | VDict d => match d with [] => false | _ => true end
  | VTable _ => true
  end.

(** The characters of a string, as [list(s)] gives them: a byte that is no
    continuation byte of UTF-8 (10xxxxxx) starts a character. *)
Definition continuation (c : Ascii.ascii) : bool :=
  let n := Ascii.nat_of_ascii c in (128 <=? n)%nat && (n <? 192)%nat.

Fixpoint split_chars (s : string) : string * list string :=
  match s with
  | EmptyString => (EmptyString, [])
  | String c s' =>
      let r := split_chars s' in
      if continuation c then (String c r.1, r.2)
      else (EmptyString, String c r.1 :: r.2)
  end.

Definition chars (s : string) : list string := (split_chars s).2.

(** ** Flow JSON

    A node or an edge is a JSON object; a field is [None] when its key is
    absent.  Identifiers, types and handles are strings and [config] is an
    object, as in the wire format. *)

Record Node := mkNode {
  node_id : option string;
  node_type : option string;
  node_config : option dict;
}.

Record Edge := mkEdge {
  edge_source : option string;
  edge_target : option string;
  sourceHandle : option string;
  targetHandle : option string;
}.

Record FlowJson := mkFlowJson {
  flow_id : option string;
  flow_nodes : option (list Node);
  flow_edges : option (list Edge);
}.

(** The order in which a Python [set] of strings is iterated is fixed by the
    hash table and not by the program.  It is a parameter: any function that
    lists the elements inserted so far, each once. *)

Record SetOrder := mkSetOrder {
  set_iter :> list string → list string;
  set_iter_perm : ∀ l, NoDup l → set_iter l ≡ₚ l;
}.

Module DagUtil.

(** Why a [DAGValidationError] was raised. *)
Inductive validation_reason :=
  | MissingNodeId
  | DuplicateNodeId (node_id : string)
  | InvalidEdgeFormat
  | NonExistentSource (source_id : string)
  | NonExistentTarget (target_id : string).

Inductive dag_exn :=
  | DAGValidationError (reason : validation_reason)
  | DAGCycleError (cycle_info : list string)
  | ValueError.

(** [_validate_edge]: both required fields are present. *)
Definition _validate_edge (edge : Edge) : bool :=
  bool_decide (is_Some (edge_source edge)) && bool_decide (is_Some (edge_target edge)).

(** Lines 45-54: the loop that fills [node_ids] (and [node_map], whose keys
    are the same ids); the accumulator lists the ids in insertion order. *)
Fixpoint collect_node_ids (nodes : list Node) (node_ids : list string)
  : res dag_exn (list string) :=
  match nodes with
  | [] => Ok node_ids
  | node :: nodes' =>
      match node_id node with
      | None => Err (DAGValidationError MissingNodeId)
      | Some nid =>
          if decide (nid ∈ node_ids)
          then Err (DAGValidationError (DuplicateNodeId nid))
          else collect_node_ids nodes' (node_ids ++ [nid])
      end
  end.

(** [defaultdict(int)] and [defaultdict(list)] reads. *)
Definition deg (in_degree : gmap string Z) (k : string) : Z :=
  default 0 (in_degree !! k).
Definition adj (graph : gmap string (list string)) (k : string) : list string :=
  default [] (graph !! k).

(** Lines 65-81: the loop over the edges. *)
Fixpoint add_edges (node_ids : list string) (edges : list Edge)
    (graph : gmap string (list string)) (in_degree : gmap string Z)
  : res dag_exn (gmap string (list string) * gmap string Z) :=
  match edges with
  | [] => Ok (graph, in_degree)
  | edge :: edges' =>
      if negb (_validate_edge edge) then Err (DAGValidationError InvalidEdgeFormat)
      else
        match edge_source edge, edge_target edge with
        | Some source_id, Some target_id =>
            if decide (source_id ∉ node_ids)
            then Err (DAGValidationError (NonExistentSource source_id))
            else if decide (target_id ∉ node_ids)
            then Err (DAGValidationError (NonExistentTarget target_id))
            else add_edges node_ids edges'
                   (<[source_id := adj graph source_id ++ [target_id]]> graph)
                   (<[target_id := deg in_degree target_id + 1]> in_degree)
        | _, _ => Err (DAGValidationError InvalidEdgeFormat)
        end
  end.

(** Lines 100-103: one pass of the inner [for neighbor in graph[current_node]]. *)
Definition relax (st : gmap string Z * list string) (neighbor : string)
  : gmap string Z * list string :=
  let d := deg st.1 neighbor - 1 in
  (<[neighbor := d]> st.1, if decide (d = 0) then st.2 ++ [neighbor] else st.2).

(** Lines 95-103: the [while queue] loop. *)
Fixpoint kahn_loop (fuel : nat) (graph : gmap string (list string))
    (in_degree : gmap string Z) (queue result : list string) : option (list string) :=
  match queue with
  | [] => Some result
  | current_node :: queue' =>
      match fuel with
      | O => None
      | S fuel' =>
          let st := foldl relax (in_degree, queue') (adj graph current_node) in
          kahn_loop fuel' graph st.1 st.2 (result ++ [current_node])
      end
  end.

(** ** [_find_cycle] *)

Record dfs_state := mkDfs {
  path : list string;
  visited : gset string;
  rec_stack : gset string;
}.

(** [path.index(node)]. *)
Fixpoint list_index (x : string) (l : list string) : option nat :=
  match l with
  | [] => None
  | y :: l' => if decide (y = x) then Some O else S <$> list_index x l'
  end.

(** Lines 159-163: the loop over the neighbours of a node; [call] is the
    recursive call of [dfs]. *)
Fixpoint visit_neighbors (call : string → dfs_state → res dag_exn (list string * dfs_state))
    (remaining_nodes neighbors : list string) (s : dfs_state)
  : res dag_exn (list string * dfs_state) :=
  match neighbors with
  | [] => Ok ([], s)
  | neighbor :: neighbors' =>
      if decide (neighbor ∈ remaining_nodes) then
        match call neighbor s with
        | Ok ([], s') => visit_neighbors call remaining_nodes neighbors' s'
        | r => r
        end
      else visit_neighbors call remaining_nodes neighbors' s
  end.

(** The inner function [dfs].  The three mutable arguments are threaded as a
    [dfs_state]; the result is the returned list and the state left behind. *)
Fixpoint dfs (fuel : nat) (graph : gmap string (list string))
    (remaining_nodes : list string) (node : string) (st : dfs_state)
  : res dag_exn (list string * dfs_state) :=
  match fuel with
  | O => OutOfFuel
  | S fuel' =>
      if decide (node ∈ rec_stack st) then
        match list_index node (path st) with
        | Some cycle_start => Ok (drop cycle_start (path st) ++ [node], st)
        | None => Err ValueError
        end
      else if decide (node ∈ visited st) then Ok ([], st)
      else
        let st1 := {| path := path st ++ [node];
                      visited := {[node]} ∪ visited st;
                      rec_stack := {[node]} ∪ rec_stack st |} in
        match visit_neighbors (dfs fuel' graph remaining_nodes) remaining_nodes
                (adj graph node) st1 with
        | Ok ([], s) =>
            Ok ([], {| path := removelast (path s);
                       visited := visited s;
                       rec_stack := rec_stack s ∖ {[node]} |})
        | r => r
        end
  end.

(** Lines 169-177: the driver loop of [_find_cycle]; [todo] is what is left
    of the iteration over [remaining_nodes]. *)
Fixpoint find_cycle_loop (fuel : nat) (graph : gmap string (list string))
    (remaining_nodes todo : list string) (visited : gset string)
  : res dag_exn (list string) :=
  match todo with
  | [] => Ok remaining_nodes
  | node :: todo' =>
      if decide (node ∉ visited) then
        match dfs fuel graph remaining_nodes node
                {| path := []; visited := visited; rec_stack := ∅ |} with
        | Ok ([], s) => find_cycle_loop fuel graph remaining_nodes todo' (DagUtil.visited s)
        | Ok (cycle, _) => Ok cycle
        | Err e => Err e
        | OutOfFuel => OutOfFuel
        end
      else find_cycle_loop fuel graph remaining_nodes todo' visited
  end.

Definition _find_cycle (graph : gmap string (list string))
    (remaining_nodes : list string) : res dag_exn (list string) :=
  find_cycle_loop (S (length remaining_nodes)) graph remaining_nodes remaining_nodes ∅.

Section WithSetOrder.
Context (order : SetOrder).

(** [topological_sort].  [ids] is the set [node_ids] in iteration order. *)
Definition topological_sort (nodes : list Node) (edges : list Edge)
  : res dag_exn (list string) :=
  match collect_node_ids nodes [] with
  | Ok node_ids =>
      let ids := order node_ids in
      let in_degree0 := foldl (λ m nid, <[nid := 0]> m) (∅ : gmap string Z) ids in
      match add_edges node_ids edges ∅ in_degree0 with
      | Ok (graph, in_degree) =>
          let queue := filter (λ nid, deg in_degree nid = 0) ids in
          match kahn_loop (length node_ids) graph in_degree queue [] with
          | Some result =>
              if decide (length result ≠ length node_ids) then
                let remaining_nodes := order (filter (λ nid, nid ∉ result) ids) in
                match _find_cycle graph remaining_nodes with
                | Ok cycle_info => Err (DAGCycleError cycle_info)
                | Err e => Err e
                | OutOfFuel => OutOfFuel
                end
              else Ok result
          | None => OutOfFuel
          end
      | Err e => Err e
      | OutOfFuel => OutOfFuel
      end
  | Err e => Err e
  | OutOfFuel => OutOfFuel
  end.

End WithSetOrder.

(** ** [get_node_dependencies] and [get_node_dependents] *)

(** [KeyError]: the subscript [edge[key]] of an edge without that key. *)
Inductive key_error := KeyError (key : string).

(** Lines 237-239: the loop of [get_node_dependencies]. *)
Fixpoint dependencies_loop (node_id : string) (edges : list Edge)
    (dependencies : list string) : res key_error (list string) :=
  match edges with
  | [] => Ok dependencies
  | edge :: edges' =>
      match edge_target edge with
      | None => Err (KeyError "target")
      | Some target_id =>
          if decide (target_id = node_id) then
            match edge_source edge with
            | None => Err (KeyError "source")
            | Some source_id => dependencies_loop node_id edges' (dependencies ++ [source_id])
            end
          else dependencies_loop node_id edges' dependencies
      end
  end.

Definition get_node_dependencies (node_id : string) (edges : list Edge)
  : res key_error (list string) :=
  dependencies_loop node_id edges [].

(** Lines 255-257: the loop of [get_node_dependents]. *)
Fixpoint dependents_loop (node_id : string) (edges : list Edge)
    (dependents : list string) : res key_error (list string) :=
  match edges with
  | [] => Ok dependents
  | edge :: edges' =>
      match edge_source edge with
      | None => Err (KeyError "source")
      | Some source_id =>
          if decide (source_id = node_id) then
            match edge_target edge with
            | None => Err (KeyError "target")
            | Some target_id => dependents_loop node_id edges' (dependents ++ [target_id])
            end
          else dependents_loop node_id edges' dependents
      end
  end.

Definition get_node_dependents (node_id : string) (edges : list Edge)
  : res key_error (list string) :=
  dependents_loop node_id edges [].

(** ** [find_execution_groups] *)

(** What [find_execution_groups] raises: the [KeyError] of a node without
    [id] or an edge without [source] or [target], and [DAGCycleError] with
    its fixed message. *)
Inductive groups_exn :=
  | MissingKey (key : string)
  | CycleWhileGrouping.

(** The elements of a set built from a list, in the order they were first
    inserted. *)
Definition set_of_list (l : list string) : list string :=
  foldl (λ acc x, if decide (x ∈ acc) then acc else acc ++ [x]) [] l.

(** Lines 281-285: the loop over the edges; nothing is checked against the
    declared nodes. *)
Fixpoint group_edges (edges : list Edge)
    (graph : gmap string (list string)) (in_degree : gmap string Z)
  : res groups_exn (gmap string (list string) * gmap string Z) :=
  match edges with
  | [] => Ok (graph, in_degree)
  | edge :: edges' =>
      match edge_source edge with
      | None => Err (MissingKey "source")
      | Some source_id =>
          match edge_target edge with
          | None => Err (MissingKey "target")
          | Some target_id =>
              group_edges edges'
                (<[source_id := adj graph source_id ++ [target_id]]> graph)
                (<[target_id := deg in_degree target_id + 1]> in_degree)
          end
      end
  end.

(** Lines 307-308: [in_degree[neighbor] -= 1]. *)
Definition release (in_degree : gmap string Z) (neighbor : string) : gmap string Z :=
  <[neighbor := deg in_degree neighbor - 1]> in_degree.

(** Lines 305-308: one node of the current level leaves [remaining_nodes]
    and releases its neighbours. *)
Definition leave (graph : gmap string (list string))
    (st : list string * gmap string Z) (node_id : string) : list string * gmap string Z :=
  (filter (λ n, n ≠ node_id) st.1, foldl release st.2 (adj graph node_id)).

(** Lines 291-308: the [while remaining_nodes] loop; [remaining_nodes] is a
    set, iterated in the order [order] gives it. *)
Fixpoint groups_loop (order : SetOrder) (fuel : nat) (graph : gmap string (list string))
    (in_degree : gmap string Z) (remaining_nodes : list string)
    (execution_groups : list (list string)) : res groups_exn (list (list string)) :=
  match remaining_nodes with
  | [] => Ok execution_groups
  | _ :: _ =>
      match fuel with
      | O => OutOfFuel
      | S fuel' =>
          let current_level :=
            filter (λ node_id, deg in_degree node_id = 0) (order remaining_nodes) in
          match current_level with
          | [] => Err CycleWhileGrouping
          | _ :: _ =>
              let st := foldl (leave graph) (remaining_nodes, in_degree) current_level in
              groups_loop order fuel' graph st.2 st.1 (execution_groups ++ [current_level])
          end
      end
  end.

(** [find_execution_groups]. *)
Definition find_execution_groups (order : SetOrder) (nodes : list Node) (edges : list Edge)
  : res groups_exn (list (list string)) :=
  match mapM node_id nodes with
  | None => Err (MissingKey "id")
  | Some ids =>
      let node_ids := set_of_list ids in
      let in_degree0 :=
        foldl (λ m nid, <[nid := 0]> m) (∅ : gmap string Z) (order node_ids) in
      match group_edges edges ∅ in_degree0 with
      | Ok (graph, in_degree) =>
          groups_loop order (length node_ids) graph in_degree node_ids []
      | Err e => Err e
      | OutOfFuel => OutOfFuel
      end
  end.

End DagUtil.

(** ** Graph notions used to state the properties of [topological_sort] *)

Module Graph.

(** The ids declared by the nodes, in declaration order. *)
Definition declared_ids (nodes : list Node) : list string := omap node_id nodes.

(** [edge_rel edges u v]: the flow has an edge from [u] to [v]. *)
Definition edge_rel (edges : list Edge) (u v : string) : Prop :=
  ∃ e, e ∈ edges ∧ edge_source e = Some u ∧ edge_target e = Some v.

(** A list of nodes in which each one is related to the next. *)
Fixpoint chain (R : string → string → Prop) (p : list string) : Prop :=
  match p with
  | u :: p' => match p' with v :: _ => R u v | [] => True end ∧ chain R p'
  | [] => True
  end.

(** A directed cycle, written as the path that returns to its start. *)
Definition directed_cycle (edges : list Edge) (p : list string) : Prop :=
  (∃ u mid, p = u :: mid ++ [u]) ∧ chain (edge_rel edges) p.

Definition has_cycle (edges : list Edge) : Prop := ∃ p, directed_cycle edges p.

(** Every node has an id, no id is declared twice, and every edge has both
    endpoints, each of them a declared id. *)
Definition well_formed (nodes : list Node) (edges : list Edge) : Prop :=
  Forall (λ n, is_Some (node_id n)) nodes ∧
  NoDup (declared_ids nodes) ∧
  Forall (λ e, ∃ u v, edge_source e = Some u ∧ edge_target e = Some v ∧
                      u ∈ declared_ids nodes ∧ v ∈ declared_ids nodes) edges.

Definition valid_flow (nodes : list Node) (edges : list Edge) : Prop :=
  well_formed nodes edges ∧ ¬ has_cycle edges.

(** [before l u v]: [u] occurs in [l] at a smaller index than [v]. *)
Definition before (l : list string) (u v : string) : Prop :=
  ∃ i j : nat, l !! i = Some u ∧ l !! j = Some v ∧ (i < j)%nat.

(** The nodes without an incoming edge. *)
Definition is_source (edges : list Edge) (v : string) : Prop :=
  Forall (λ e, edge_target e ≠ Some v) edges.

Global Instance is_source_dec edges v : Decision (is_source edges v).
Proof. unfold is_source. apply _. Defined.

End Graph.

(** ** The scheduler as the specification words it

    Kahn's algorithm in which the queue is seeded with the zero-in-degree
    nodes in declaration order and the nodes that become ready when a node is
    popped are enqueued by declaration index.  It is compared with
    [DagUtil.topological_sort] below. *)

Module SpecScheduler.

(** Edges into [v] whose source has not been output yet. *)
Definition pending (edges : list Edge) (done : list string) (v : string) : nat :=
  length (filter (λ e, edge_target e = Some v ∧ edge_source e ∉ Some <$> done) edges).

Fixpoint run (fuel : nat) (ids : list string) (edges : list Edge)
    (queue order : list string) : list string :=
  match fuel, queue with
  | S fuel', n :: queue' =>
      let order' := order ++ [n] in
      let ready := filter (λ v, pending edges order' v = O ∧ pending edges order v ≠ O) ids in
      run fuel' ids edges (queue' ++ ready) order'
  | _, _ => order
  end.

Definition topological_order (nodes : list Node) (edges : list Edge) : list string :=
  let ids := Graph.declared_ids nodes in
  run (length ids) ids edges (filter (λ v, pending edges [] v = O) ids) [].

End SpecScheduler.

(** ** Sample flows *)

Module Samples.

(** Two iteration orders of a set: insertion order and its reverse. *)
Program Definition insertion_order : SetOrder := {| set_iter := λ l, l |}.
Next Obligation. done. Qed.
Program Definition reverse_order : SetOrder := {| set_iter := reverse |}.
Next Obligation. intros. apply reverse_Permutation. Qed.

Definition nd (i : string) : Node := mkNode (Some i) None None.
Definition ed (s t : string) : Edge := mkEdge (Some s) (Some t) None None.

(** A -> B -> C *)
Definition line_nodes : list Node := [nd "A"; nd "B"; nd "C"].
Definition line_edges : list Edge := [ed "A" "B"; ed "B" "C"].

(** A -> B -> C -> A *)
Definition ring_edges : list Edge := [ed "A" "B"; ed "B" "C"; ed "C" "A"].

(** A -> C and A -> B, the edge to C listed first. *)
Definition fork_edges : list Edge := [ed "A" "C"; ed "A" "B"].

(** Two nodes and no edge. *)
Definition pair_nodes : list Node := [nd "A"; nd "B"].

End Samples.

(** * The flow executor ([app/core/maxdp_flow_executor.py]) *)

Module FlowExecutor.
Import DagUtil.

(** ** [validate_dag_structure] (of [maxdp_dag_util.py], used by the
    constructor) *)

Inductive dag_invalid :=
  | NoNodesProvided
  | NodeMissingId
  | DuplicateNodeIds
  | BadEdgeFormat
  | UnknownSource (source_id : string)
  | UnknownTarget (target_id : string)
  | SortRaised (e : dag_exn).

(** Lines 207-215: the loop over the edges. *)
Fixpoint check_edges (node_id_set : list string) (edges : list Edge) : option dag_invalid :=
  match edges with
  | [] => None
  | edge :: edges' =>
      if negb (_validate_edge edge) then Some BadEdgeFormat
      else
        match edge_source edge, edge_target edge with
        | Some s, Some t =>
            if decide (s ∉ node_id_set) then Some (UnknownSource s)
            else if decide (t ∉ node_id_set) then Some (UnknownTarget t)
            else check_edges node_id_set edges'
        | _, _ => Some BadEdgeFormat
        end
  end.

(** The pair [(is_valid, message)] is [None] for [(True, _)] and the reason
    for [(False, _)].  An exception of [topological_sort] is caught and
    reported as invalid. *)
Definition validate_dag_structure (order : SetOrder) (nodes : list Node) (edges : list Edge)
  : res False (option dag_invalid) :=
  match nodes with
  | [] => Ok (Some NoNodesProvided)
  | _ =>
      match mapM node_id nodes with
      | None => Ok (Some NodeMissingId)
      | Some node_ids =>
          if decide (length node_ids ≠ length (remove_dups node_ids))
          then Ok (Some DuplicateNodeIds)
          else
            match check_edges node_ids edges with
            | Some why => Ok (Some why)
            | None =>
                match topological_sort order nodes edges with
                | Ok _ => Ok None
                | Err e => Ok (Some (SortRaised e))
                | OutOfFuel => OutOfFuel
                end
            end
      end
  end.

(** ** The executor object *)

Inductive flow_validation_error :=
  | MissingRequiredField (field : string)
  | InvalidDagStructure (why : dag_invalid)
  | OrderNotDetermined (e : dag_exn).

Record EdgeMap := mkEdgeMap {
  inputs : gmap string (list string);
  outputs : gmap string (list string);
}.

Record t := mkExecutor {
  flow_json : FlowJson;
  user_context : dict;
  nodes : list Node;
  edges : list Edge;
  execution_order : list string;
  node_map : gmap string Node;
  edge_map : EdgeMap;
}.

(** [_validate_flow_json]. *)
Definition _validate_flow_json (fj : FlowJson) : res flow_validation_error unit :=
  match flow_nodes fj, flow_edges fj with
  | None, _ => Err (MissingRequiredField "nodes")
  | _, None => Err (MissingRequiredField "edges")
  | Some _, Some _ => Ok ()
  end.

(** [{node['id']: node for node in self.nodes}]; the ids are present once
    the flow has passed the validation. *)
Definition build_node_map (nodes : list Node) : gmap string Node :=
  foldl (λ m node, match node_id node with Some i => <[i := node]> m | None => m end)
        ∅ nodes.

(** [_build_edge_map]. *)
Definition _build_edge_map (nodes : list Node) (edges : list Edge) : EdgeMap :=
  let init := foldl (λ em node,
                match node_id node with
                | Some i => mkEdgeMap (<[i := []]> (inputs em)) (<[i := []]> (outputs em))
                | None => em
                end) (mkEdgeMap ∅ ∅) nodes in
  foldl (λ em edge,
    match edge_source edge, edge_target edge with
    | Some s, Some t =>
        mkEdgeMap (<[t := default [] (inputs em !! t) ++ [s]]> (inputs em))
                  (<[s := default [] (outputs em !! s) ++ [t]]> (outputs em))
    | _, _ => em
    end) init edges.

(** [FlowExecutor.__init__]. *)
Definition __init__ (order : SetOrder) (fj : FlowJson) (user_ctx : dict)
  : res flow_validation_error t :=
  match _validate_flow_json fj with
  | Err e => Err e
  | OutOfFuel => OutOfFuel
  | Ok _ =>
      let nodes := default [] (flow_nodes fj) in
      let edges := default [] (flow_edges fj) in
      match validate_dag_structure order nodes edges with
      | Ok (Some why) => Err (InvalidDagStructure why)
      | Ok None =>
          match topological_sort order nodes edges with
          | Ok execution_order =>
              Ok {| flow_json := fj; user_context := user_ctx;
                    nodes := nodes; edges := edges;
                    execution_order := execution_order;
                    node_map := build_node_map nodes;
                    edge_map := _build_edge_map nodes edges |}
          | Err e => Err (OrderNotDetermined e)
          | OutOfFuel => OutOfFuel
          end
      | Err e => match e with end
      | OutOfFuel => OutOfFuel
      end
  end.

(** ** The execution context *)

Record FlowExecutionContext := mkContext {
  execution_id : string;
  global_variables : dict;
  node_outputs : dict;
  execution_log : list string;
}.

(** [add_node_output]; the log keeps the node ids, in order. *)
Definition add_node_output (ctx : FlowExecutionContext) (nid : string) (output : value)
  : FlowExecutionContext :=
  {| execution_id := execution_id ctx;
     global_variables := global_variables ctx;
     node_outputs := dict_set nid output (node_outputs ctx);
     execution_log := execution_log ctx ++ [nid] |}.

(** [get_node_output]: [node_outputs.get(node_id)]. *)
Definition get_node_output (ctx : FlowExecutionContext) (nid : string) : value :=
  default VNone (dict_get nid (node_outputs ctx)).

(** [_get_output_handle_name]: the first edge between the two nodes decides. *)
Definition _get_output_handle_name (ex : t) (source_node_id target_node_id : string) : string :=
  match list_find (λ edge, edge_source edge = Some source_node_id ∧
                           edge_target edge = Some target_node_id) (edges ex) with
  | Some (_, edge) =>
      match sourceHandle edge with
      | Some h => h
      | None => default source_node_id (targetHandle edge)
      end
  | None => source_node_id
  end.

(** Lines 303-308 of [_prepare_node_input]: the outputs of the upstream
    nodes, under their handle names. *)
Definition collect_inputs (ex : t) (nid : string) (ctx : FlowExecutionContext) : dict :=
  foldl (λ input_data input_node_id,
           match get_node_output ctx input_node_id with
           | VNone => input_data
           | output => dict_set (_get_output_handle_name ex input_node_id nid) output input_data
           end)
        [] (default [] (inputs (edge_map ex) !! nid)).

(** [_prepare_node_input]. *)
Definition _prepare_node_input (ex : t) (nid : string) (ctx : FlowExecutionContext) : dict :=
  dict_update (collect_inputs ex nid ctx) (global_variables ctx).

(** [_determine_final_result]. *)
Definition _determine_final_result (ex : t) (ctx : FlowExecutionContext) : value :=
  let output_nodes :=
    filter (λ nid, default [] (outputs (edge_map ex) !! nid) = []) (execution_order ex) in
  match output_nodes with
  | [nid] => get_node_output ctx nid
  | _ :: _ :: _ =>
      VDict (foldl (λ results nid, dict_set nid (get_node_output ctx nid) results)
                   [] output_nodes)
  | [] =>
      let display_nodes :=
        filter (λ nid, (node_map ex !! nid) ≫= node_type = Some "maxdp_display_results")
               (execution_order ex) in
      match last display_nodes with
      | Some nid => get_node_output ctx nid
      | None =>
          match last (execution_order ex) with
          | Some nid => get_node_output ctx nid
          | None => VNone
          end
      end
  end.

(** ** Running a flow *)

(** The node classes behind the registry of [maxdp_node_factory.py] are a
    parameter of the executor: whether the class constructor returns for a
    node, and what [ainvoke] returns for an input map ([None] when it
    raises). *)
Record NodeRuntime := mkRuntime {
  construct : Node → bool;
  ainvoke : Node → dict → option value;
}.

(** The keys of the registry of [_get_node_class_registry]. *)
Definition registry_types : list string :=
  [ "maxdp_table_reader"; "maxdp_custom_sql_query"; "maxdp_file_input";
    "maxdp_api_endpoint"; "maxdp_static_data"; "maxdp_webhook_listener";
    "maxdp_select_columns"; "maxdp_filter_rows"; "maxdp_sample_rows";
    "maxdp_rename_columns"; "maxdp_add_modify_column"; "maxdp_change_data_type";
    "maxdp_split_column"; "maxdp_map_values"; "maxdp_handle_missing_values";
    "maxdp_deduplicate"; "maxdp_sort_data"; "maxdp_pivot_table"; "maxdp_melt";
    "maxdp_group_aggregate"; "maxdp_window_functions"; "maxdp_join_merge";
    "maxdp_union_concatenate"; "maxdp_run_python_script"; "maxdp_apply_function";
    "maxdp_table_writer"; "maxdp_file_writer"; "maxdp_api_request";
    "maxdp_display_results"; "maxdp_send_notification";
    "maxdp_conditional_branch"; "maxdp_try_catch"; "maxdp_merge" ].

(** Every exception that leaves [execute] is a [FlowExecutionError]; the
    constructors keep where it came from. *)
Inductive flow_execution_error :=
  | GlobalNodeFailed
  | NodeCreationFailed (nid : string)
  | NodeFailed (nid : string).

(** [create_node_instance]: the node of the registry class, or
    [NodeCreationError]. *)
Definition create_node_instance (rt : NodeRuntime) (node : Node) : option Node :=
  match node_id node, node_type node with
  | Some _, Some ty =>
      if decide (ty ∈ registry_types) then
        if construct rt node then Some node else None
      else None
  | _, _ => None
  end.

Definition skip_types : list string :=
  [ "maxdp_trigger"; "maxdp_flow_parameter"; "maxdp_set_get_variable"; "maxdp_comment" ].

(** [_execute_node]. *)
Definition _execute_node (rt : NodeRuntime) (ex : t) (nid : string)
    (ctx : FlowExecutionContext) : res flow_execution_error FlowExecutionContext :=
  match node_map ex !! nid with
  | None => Err (NodeFailed nid)
  | Some node =>
      if decide (default "" (node_type node) ∈ skip_types) then Ok ctx
      else
        match create_node_instance rt node with
        | None => Err (NodeCreationFailed nid)
        | Some node_instance =>
            let input_data := _prepare_node_input ex nid ctx in
            match ainvoke rt node_instance input_data with
            | Some result => Ok (add_node_output ctx nid result)
            | None => Err (NodeFailed nid)
            end
        end
  end.

(** *** Writing a dictionary under keys that come from the configuration

    The keys that [_process_global_nodes] writes are values of the node
    configuration.  [dict] takes any hashable key: a string, but also a
    number, a Boolean or [None]; a list or an object is refused with
    [TypeError].  An entry whose key is no string is never equal to a name,
    so no lookup by name sees it: a [dict] of the model is the part of the
    Python dictionary that has string keys, and such an entry leaves it as
    it is. *)
Inductive pykey :=
  | StrKey (s : string)
  | OtherKey
  | Unhashable.

Definition key_of (k : value) : pykey :=
  match k with
  | VStr s => StrKey s
  | VNone | VBool _ | VInt _ => OtherKey
  | VList _ | VDict _ | VTable _ => Unhashable
  end.

(** [d[k] = v]; [None] when it raises. *)
Definition bind (k v : value) (d : dict) : option dict :=
  match key_of k with
  | StrKey s => Some (dict_set s v d)
  | OtherKey => Some d
  | Unhashable => None
  end.

(** An element of the sequence given to [dict.update], read as a key and a
    value: it has to be a sequence of exactly two items.  The items of a
    string are its characters, those of an object its keys, those of a table
    its column names. *)
Definition as_pair (item : value) : option (value * value) :=
  match item with
  | VList [k; v] => Some (k, v)
  | VStr s => match chars s with [a; b] => Some (VStr a, VStr b) | _ => None end
  | VDict [(k1, _); (k2, _)] => Some (VStr k1, VStr k2)
  | VTable df => match columns df with [a; b] => Some (VStr a, VStr b) | _ => None end
  | _ => None
  end.

(** [d.update(seq)] for a sequence of pairs, one element after the other. *)
Fixpoint update_pairs (d : dict) (items : list value) : option dict :=
  match items with
  | [] => Some d
  | item :: items' =>
      match as_pair item with
      | Some (k, v) =>
          match bind k v d with
          | Some d' => update_pairs d' items'
          | None => None
          end
      | None => None
      end
  end.

(** [d.update(other)] for an arbitrary argument; [None] when it raises.  An
    object is merged; anything else is iterated as a sequence of pairs: a
    list element by element, a string character by character (so only the
    empty string is accepted), and [None], a Boolean or a number not at
    all.  A table is no JSON and no configuration holds one; it would be
    merged column by column, binding objects that are no values of the
    model, so only the table without columns has an answer here. *)
Definition py_update (d : dict) (other : value) : option dict :=
  match other with
  | VDict items => Some (dict_update d items)
  | VList items => update_pairs d items
  | VStr s => if decide (s = "") then Some d else None
  | VNone | VBool _ | VInt _ => None
  | VTable df => if decide (columns df = []) then Some d else None
  end.

(** One node of [_process_global_nodes]; [None] when it raises. *)
Definition process_global_node (node : Node) (global_variables : dict) : option dict :=
  let cfg := default [] (node_config node) in
  let ty := default "" (node_type node) in
  if decide (ty = "maxdp_trigger") then
    let trigger_data := default (VDict []) (dict_get "trigger_data" cfg) in
    py_update global_variables trigger_data
  else if decide (ty = "maxdp_flow_parameter") then
    let param_name := default VNone (dict_get "parameter_name" cfg) in
    let param_value := default VNone (dict_get "default_value" cfg) in
    if truthy param_name then
      match key_of param_name with
      | StrKey s => Some (dict_setdefault s param_value global_variables)
      | OtherKey => Some global_variables
      | Unhashable => None
      end
    else Some global_variables
  else if decide (ty = "maxdp_set_get_variable") then
    let var_name := default VNone (dict_get "variable_name" cfg) in
    let var_value := default VNone (dict_get "variable_value" cfg) in
    if truthy var_name && negb (match var_value with VNone => true | _ => false end)
    then bind var_name var_value global_variables
    else Some global_variables
  else Some global_variables.

(** [_process_global_nodes]. *)
Fixpoint _process_global_nodes (nodes : list Node) (global_variables : dict) : option dict :=
  match nodes with
  | [] => Some global_variables
  | node :: nodes' =>
      match process_global_node node global_variables with
      | Some g => _process_global_nodes nodes' g
      | None => None
      end
  end.

(** Lines 194-195: the loop over [execution_order]. *)
Fixpoint execute_nodes (rt : NodeRuntime) (ex : t) (todo : list string)
    (ctx : FlowExecutionContext) : res flow_execution_error FlowExecutionContext :=
  match todo with
  | [] => Ok ctx
  | nid :: todo' =>
      match _execute_node rt ex nid ctx with
      | Ok ctx' => execute_nodes rt ex todo' ctx'
      | r => r
      end
  end.

(** [execute]. *)
Definition execute (rt : NodeRuntime) (ex : t) (input_data : dict) (execution_id : string)
  : res flow_execution_error value :=
  match _process_global_nodes (nodes ex) input_data with
  | None => Err GlobalNodeFailed
  | Some global_variables =>
      let ctx := {| execution_id := execution_id;
                    global_variables := global_variables;
                    node_outputs := [];
                    execution_log := [] |} in
      match execute_nodes rt ex (execution_order ex) ctx with
      | Ok ctx' => Ok (_determine_final_result ex ctx')
      | Err e => Err e
      | OutOfFuel => OutOfFuel
      end
  end.

(** ** Vocabulary of the statements *)

(** The upstream node [src] binds the key [k] in the input map of [nid]. *)
Definition binds (ex : t) (nid : string) (ctx : FlowExecutionContext)
    (k src : string) : Prop :=
  get_node_output ctx src ≠ VNone ∧ _get_output_handle_name ex src nid = k.

Global Instance value_none_dec (v : value) : Decision (v = VNone).
Proof. destruct v; (by left) || (by right). Defined.

Global Instance binds_dec ex nid ctx k src : Decision (binds ex nid ctx k src).
Proof. unfold binds. apply _. Defined.

(** The nodes without outgoing edges, in execution order: [output_nodes] of
    [_determine_final_result]. *)
Definition terminal_nodes (ex : t) : list string :=
  filter (λ nid, default [] (outputs (edge_map ex) !! nid) = []) (execution_order ex).

(** [get_flow_info]. *)
Record FlowInfo := mkFlowInfo {
  fi_flow_id : string;
  fi_node_count : nat;
  fi_edge_count : nat;
  fi_execution_order : list string;
  fi_input_nodes : list string;
  fi_output_nodes : list string;
}.

Definition get_flow_info (ex : t) : FlowInfo :=
  {| fi_flow_id := default "unknown" (flow_id (flow_json ex));
     fi_node_count := length (nodes ex);
     fi_edge_count := length (edges ex);
     fi_execution_order := execution_order ex;
     fi_input_nodes :=
       filter (λ nid, default [] (inputs (edge_map ex) !! nid) = []) (execution_order ex);
     fi_output_nodes :=
       filter (λ nid, default [] (outputs (edge_map ex) !! nid) = []) (execution_order ex) |}.

(** The node [nid] is really run by [_execute_node]: it is in the node map
    and is no utility node. *)
Definition runs (ex : t) (nid : string) : Prop :=
  match node_map ex !! nid with
  | Some node => default "" (node_type node) ∉ skip_types
  | None => False
  end.

Global Instance runs_dec ex nid : Decision (runs ex nid).
Proof. unfold runs. destruct (node_map ex !! nid); apply _. Defined.

(** The names that [d.update(other)] binds. *)
Definition update_keys (other : value) : list string :=
  match other with
  | VDict items => items.*1
  | VList items =>
      omap (λ item, match as_pair item with
                    | Some (VStr s, _) => Some s
                    | _ => None
                    end) items
  | _ => []
  end.

(** The node may write the global variable [k] in [_process_global_nodes]:
    a trigger whose [trigger_data] binds the name, or a [set_get_variable]
    node of that name. *)
Definition writes (node : Node) (k : string) : Prop :=
  (node_type node = Some "maxdp_trigger" ∧
   k ∈ update_keys (default (VDict [])
                      (dict_get "trigger_data" (default [] (node_config node))))) ∨
  (node_type node = Some "maxdp_set_get_variable" ∧
   dict_get "variable_name" (default [] (node_config node)) = Some (VStr k)).

End FlowExecutor.

(** * Sink nodes ([app/core/nodes/maxdp_sinks.py]) *)

Module Sinks.

(** The exceptions that leave [invoke].  A message is kept without the
    value the source interpolates into it; [ExternalError] is whatever a
    library call raised. *)
Inductive sink_exn :=
  | ValueError (msg : string)
  | PermissionError
  | AttributeError
  | TypeError
  | ExternalError.

(** What lies outside the source of the sink classes: the libraries they
    call and the interpreter.  An [_ok] field says whether a stretch of
    library calls returns ([true]) or raises ([false]); it depends on the
    configuration of the node and on the table, which are its arguments.

    - [to_sql_ok]: lines 57-63, [df.to_sql(...)] on
      [self.db_session.connection()];
    - [write_file_ok]: lines 111-118, the [df.to_csv], [df.to_json],
      [df.to_excel] or [df.to_parquet] call of the format, with
      [**save_options];
    - [http_client_ok]: line 174, [httpx.Client(timeout=timeout)];
    - [http_ok]: [client.post] or [client.put] (lines 176-180) and
      [response.raise_for_status()] (line 184);
    - [email_ok]: lines 304-327 of [_send_email_notification], from
      [_generate_email_body] to the end of the SMTP session;
    - [webhook_ok]: lines 339-361 of [_send_webhook_notification], from the
      payload to [response.raise_for_status()];
    - [debug_enabled]: [logger.isEnabledFor(logging.DEBUG)];
    - [str_upper]: [str.upper], the upper-casing of the interpreter.

    What pandas computes from the table alone (the summary that
    [DisplayResultsNode] logs, the payload of [APIRequestNode]) returns. *)
Record Effects := mkEffects {
  to_sql_ok : dict → DataFrame → bool;
  write_file_ok : dict → DataFrame → bool;
  http_client_ok : dict → bool;
  http_ok : dict → DataFrame → bool;
  email_ok : dict → DataFrame → bool;
  webhook_ok : dict → DataFrame → bool;
  debug_enabled : bool;
  str_upper : string → string;
}.

(** [_get_input_dataframe]: the first table among the values of the input
    map, in the order of the map. *)
Fixpoint _get_input_dataframe (input_data : dict) : res sink_exn DataFrame :=
  match input_data with
  | [] => Err (ValueError "No DataFrame found in input data")
  | (_, VTable df) :: _ => Ok df
  | _ :: input_data' => _get_input_dataframe input_data'
  end.

(** [node_config.get(key)] and [node_config.get(key, default)]. *)
Definition cfg_get (node_config : dict) (key : string) : value :=
  default VNone (dict_get key node_config).
Definition cfg_get_or (node_config : dict) (key : string) (dflt : value) : value :=
  default dflt (dict_get key node_config).

(** [str.upper] on a string of ASCII characters. *)
Definition upper_ascii (c : Ascii.ascii) : Ascii.ascii :=
  let n := Ascii.nat_of_ascii c in
  if (97 <=? n)%nat && (n <=? 122)%nat then Ascii.ascii_of_nat (n - 32) else c.
Fixpoint upper (s : string) : string :=
  match s with
  | EmptyString => EmptyString
  | String c s' => String (upper_ascii c) (upper s')
  end.

Definition external (ok : bool) : res sink_exn unit :=
  if ok then Ok () else Err ExternalError.

(** The five sink classes and their registry keys. *)
Inductive sink :=
  | TableWriter
  | FileWriter
  | APIRequest
  | DisplayResults
  | SendNotification.

Definition registry_key (k : sink) : string :=
  match k with
  | TableWriter => "maxdp_table_writer"
  | FileWriter => "maxdp_file_writer"
  | APIRequest => "maxdp_api_request"
  | DisplayResults => "maxdp_display_results"
  | SendNotification => "maxdp_send_notification"
  end.

(** [__init__] of the sink classes.  [TableWriterNode.__init__] assigns
    [self.db_session] after the initialiser of the base class (line 33).
    [MaxDPNode] is a pydantic model and the class declares no field of that
    name, so the assignment is refused with [ValueError]: no
    [TableWriterNode] is ever constructed.  The other four classes inherit
    [MaxDPNode.__init__]. *)
Definition __init__ (k : sink) : res sink_exn unit :=
  match k with
  | TableWriter => Err (ValueError "object has no field db_session")
  | _ => Ok ()
  end.

(** [TableWriterNode._check_write_permission]. *)
Definition _check_write_permission (table_name schema : value) : bool := true.

(** [TableWriterNode.invoke]. *)
Definition TableWriterNode_invoke (node_config : dict) (fx : Effects) (input : dict)
  : res sink_exn DataFrame :=
  match _get_input_dataframe input with
  | Ok df =>
      let table_name := cfg_get node_config "table_name" in
      let schema := cfg_get node_config "schema" in
      if negb (truthy table_name) then Err (ValueError "table_name is required")
      else if negb (_check_write_permission table_name schema) then Err PermissionError
      else
        match external (to_sql_ok fx node_config df) with
        | Ok _ => Ok df
        | Err e => Err e
        | OutOfFuel => OutOfFuel
        end
  | r => r
  end.

(** [FileWriterNode.invoke]. *)
Definition FileWriterNode_invoke (node_config : dict) (fx : Effects) (input : dict)
  : res sink_exn DataFrame :=
  match _get_input_dataframe input with
  | Ok df =>
      let file_path := cfg_get node_config "file_path" in
      let file_format := cfg_get_or node_config "file_format" (VStr "csv") in
      if negb (truthy file_path) then Err (ValueError "file_path is required")
      else
        match file_format with
        | VStr fmt =>
            if decide (fmt ∈ ["csv"; "json"; "excel"; "parquet"]) then
              match external (write_file_ok fx node_config df) with
              | Ok _ => Ok df
              | Err e => Err e
              | OutOfFuel => OutOfFuel
              end
            else Err (ValueError "Unsupported file format")
        | _ => Err (ValueError "Unsupported file format")
        end
  | r => r
  end.

(** [APIRequestNode.invoke].  [method] is upper-cased when it is read (line
    155), before any check; [headers.setdefault] (lines 166 and 169) needs
    [headers] to be an object; the client is opened (line 174) before the
    method is looked at. *)
Definition APIRequestNode_invoke (node_config : dict) (fx : Effects) (input : dict)
  : res sink_exn DataFrame :=
  match _get_input_dataframe input with
  | Ok df =>
      let api_url := cfg_get node_config "api_url" in
      match cfg_get_or node_config "method" (VStr "POST") with
      | VStr m =>
          let method := str_upper fx m in
          let headers := cfg_get_or node_config "headers" (VDict []) in
          let data_format := cfg_get_or node_config "data_format" (VStr "json") in
          if negb (truthy api_url) then Err (ValueError "api_url is required")
          else
            match data_format with
            | VStr fmt =>
                if decide (fmt ∈ ["json"; "csv"]) then
                  match headers with
                  | VDict _ =>
                      match external (http_client_ok fx node_config) with
                      | Ok _ =>
                          if decide (method ∈ ["POST"; "PUT"]) then
                            match external (http_ok fx node_config df) with
                            | Ok _ => Ok df
                            | Err e => Err e
                            | OutOfFuel => OutOfFuel
                            end
                          else Err (ValueError "Unsupported HTTP method")
                      | Err e => Err e
                      | OutOfFuel => OutOfFuel
                      end
                  | _ => Err AttributeError
                  end
                else Err (ValueError "Unsupported data format")
            | _ => Err (ValueError "Unsupported data format")
            end
      | _ => Err AttributeError
      end
  | r => r
  end.

(** Line 236, [df.head(min(max_rows, len(df)))].  [min] compares
    [len(df) < max_rows], which raises unless [max_rows] is a number; it
    returns [len(df)] when that is the smaller and [max_rows] itself
    otherwise.  [head] takes an integer and refuses a Boolean.  So the line
    returns for an integer [max_rows], and for a Boolean one only when the
    table has fewer rows than it counts for ([True] is 1, [False] is 0). *)
Definition sample_rows_ok (max_rows : value) (df : DataFrame) : bool :=
  match max_rows with
  | VInt _ => true
  | VBool b => Z.of_nat (length (rows df)) <? (if b then 1 else 0)
  | _ => false
  end.

(** [DisplayResultsNode.invoke]: the summary is only logged; the sample is
    taken when debug logging is on. *)
Definition DisplayResultsNode_invoke (node_config : dict) (fx : Effects) (input : dict)
  : res sink_exn DataFrame :=
  match _get_input_dataframe input with
  | Ok df =>
      let max_rows := cfg_get_or node_config "max_rows" (VInt 100) in
      if debug_enabled fx && negb (sample_rows_ok max_rows df) then Err TypeError
      else Ok df
  | r => r
  end.

(** [SendNotificationNode._send_email_notification]. *)
Definition _send_email_notification (node_config : dict) (fx : Effects) (df : DataFrame)
  : res sink_exn unit :=
  let to_emails := cfg_get_or node_config "to_emails" (VList []) in
  if negb (truthy to_emails)
  then Err (ValueError "to_emails is required for email notification")
  else external (email_ok fx node_config df).

(** [SendNotificationNode._send_webhook_notification]. *)
Definition _send_webhook_notification (node_config : dict) (fx : Effects) (df : DataFrame)
  : res sink_exn unit :=
  let webhook_url := cfg_get node_config "webhook_url" in
  if negb (truthy webhook_url)
  then Err (ValueError "webhook_url is required for webhook notification")
  else external (webhook_ok fx node_config df).

(** [SendNotificationNode.invoke]. *)
Definition SendNotificationNode_invoke (node_config : dict) (fx : Effects) (input : dict)
  : res sink_exn DataFrame :=
  match _get_input_dataframe input with
  | Ok df =>
      let sent :=
        match cfg_get_or node_config "notification_type" (VStr "email") with
        | VStr ty =>
            if decide (ty = "email") then _send_email_notification node_config fx df
            else if decide (ty = "webhook") then _send_webhook_notification node_config fx df
            else Err (ValueError "Unsupported notification type")
        | _ => Err (ValueError "Unsupported notification type")
        end in
      match sent with
      | Ok _ => Ok df
      | Err e => Err e
      | OutOfFuel => OutOfFuel
      end
  | r => r
  end.

(** The method [invoke] of each class. *)
Definition invoke (k : sink) : dict → Effects → dict → res sink_exn DataFrame :=
  match k with
  | TableWriter => TableWriterNode_invoke
  | FileWriter => FileWriterNode_invoke
  | APIRequest => APIRequestNode_invoke
  | DisplayResults => DisplayResultsNode_invoke
  | SendNotification => SendNotificationNode_invoke
  end.

(** A sink node of a flow: the instance is constructed, then invoked. *)
Definition run_node (k : sink) (node_config : dict) (fx : Effects) (input : dict)
  : res sink_exn DataFrame :=
  match __init__ k with
  | Ok _ => invoke k node_config fx input
  | Err e => Err e
  | OutOfFuel => OutOfFuel
  end.

(** ** Vocabulary of the statements *)

(** The configuration and the outside world let [invoke] return for the
    table [df]: the required options are present and supported and the
    library calls succeed. *)
Definition accepts (k : sink) (node_config : dict) (fx : Effects) (df : DataFrame) : bool :=
  match k with
  | TableWriter => truthy (cfg_get node_config "table_name") && to_sql_ok fx node_config df
  | FileWriter =>
      truthy (cfg_get node_config "file_path")
      && match cfg_get_or node_config "file_format" (VStr "csv") with
         | VStr fmt => bool_decide (fmt ∈ ["csv"; "json"; "excel"; "parquet"])
         | _ => false
         end
      && write_file_ok fx node_config df
  | APIRequest =>
      match cfg_get_or node_config "method" (VStr "POST") with
      | VStr m =>
          truthy (cfg_get node_config "api_url")
          && match cfg_get_or node_config "data_format" (VStr "json") with
             | VStr fmt => bool_decide (fmt ∈ ["json"; "csv"])
             | _ => false
             end
          && match cfg_get_or node_config "headers" (VDict []) with
             | VDict _ => true
             | _ => false
             end
          && http_client_ok fx node_config
          && bool_decide (str_upper fx m ∈ ["POST"; "PUT"])
          && http_ok fx node_config df
      | _ => false
      end
  | DisplayResults =>
      negb (debug_enabled fx)
      || sample_rows_ok (cfg_get_or node_config "max_rows" (VInt 100)) df
  | SendNotification =>
      match cfg_get_or node_config "notification_type" (VStr "email") with
      | VStr ty =>
          if decide (ty = "email")
          then truthy (cfg_get_or node_config "to_emails" (VList []))
               && email_ok fx node_config df
          else if decide (ty = "webhook")
          then truthy (cfg_get node_config "webhook_url") && webhook_ok fx node_config df
          else false
      | _ => false
      end
  end.

(** The first table of an input map, if it has one. *)
Fixpoint first_table (input_data : dict) : option DataFrame :=
  match input_data with
  | [] => None
  | (_, VTable df) :: _ => Some df
  | _ :: input_data' => first_table input_data'
  end.

(** An outside world in which every library call succeeds and debug logging
    is off; the strings of the samples are ASCII. *)
Definition quiet : Effects :=
  {| to_sql_ok := λ _ _, true; write_file_ok := λ _ _, true;
     http_client_ok := λ _, true; http_ok := λ _ _, true;
     email_ok := λ _ _, true; webhook_ok := λ _ _, true;
     debug_enabled := false; str_upper := upper |}.

(** The same with debug logging on. *)
Definition verbose : Effects :=
  {| to_sql_ok := λ _ _, true; write_file_ok := λ _ _, true;
     http_client_ok := λ _, true; http_ok := λ _ _, true;
     email_ok := λ _ _, true; webhook_ok := λ _ _, true;
     debug_enabled := true; str_upper := upper |}.

End Sinks.

(** * The worker manager ([app/core/maxdp_worker_manager.py]) *)

Module WorkerManager.

(** ** Settings ([app/maxdp_config.py])

    The worker-manager fields of the pydantic [Settings] class, under the
    attribute names the class declares. *)
Record Settings := mkSettings {
  max_active_apis : Z;
  api_inactive_ttl_hours : Z;
  worker_cleanup_interval_minutes : Z;
  worker_stats_interval_minutes : Z;
}.

(** [getattr(settings, name, default)] for the integer fields: the value of
    the attribute called [name], or [default] when the object has no
    attribute of exactly that name. *)
Definition getattr (s : Settings) (name : string) (dflt : Z) : Z :=
  if decide (name = "max_active_apis") then max_active_apis s
  else if decide (name = "api_inactive_ttl_hours") then api_inactive_ttl_hours s
  else if decide (name = "worker_cleanup_interval_minutes")
  then worker_cleanup_interval_minutes s
  else if decide (name = "worker_stats_interval_minutes")
  then worker_stats_interval_minutes s
  else dflt.

(** ** Published APIs and workers *)

Record PublishedApi := mkApi {
  api_id : string;                         (* [str(published_api.id)] *)
  api_endpoint : string;
  api_name : string;
  version : string;
  is_active : bool;
  flow_definition : option FlowJson;
}.

(** A [datetime] is a number of microseconds; a duration likewise. *)
Definition hours (h : Z) : Z := h * 3600000000.

(** An executor object: the reference that identifies it and its state. *)
Record Executor := mkExecutorObj {
  ref : nat;
  obj : FlowExecutor.t;
}.

Record WorkerInfo := mkWorkerInfo {
  executor : Executor;
  created_at : Z;
  last_used : Z;
  execution_count : Z;
  total_execution_time : Q;
}.

(** [WorkerInfo.__init__]. *)
Definition new_worker_info (executor : Executor) (created_at : Z) : WorkerInfo :=
  {| executor := executor; created_at := created_at; last_used := created_at;
     execution_count := 0; total_execution_time := 0%Q |}.

(** [WorkerInfo.update_usage]; [now] is the value of [datetime.utcnow()]. *)
Definition update_usage (w : WorkerInfo) (now : Z) (execution_time : Q) : WorkerInfo :=
  {| executor := executor w; created_at := created_at w; last_used := now;
     execution_count := execution_count w + 1;
     total_execution_time := (total_execution_time w + execution_time)%Q |}.

Record WorkerStats := mkWorkerStats {
  ws_created_at : Z;
  ws_last_used : Z;
  ws_execution_count : Z;
  ws_total_execution_time : Q;
  ws_avg_execution_time : Q;
}.

(** [WorkerInfo.get_stats]. *)
Definition get_stats (w : WorkerInfo) : WorkerStats :=
  {| ws_created_at := created_at w;
     ws_last_used := last_used w;
     ws_execution_count := execution_count w;
     ws_total_execution_time := total_execution_time w;
     ws_avg_execution_time :=
       (total_execution_time w / inject_Z (Z.max (execution_count w) 1))%Q |}.

(** The manager: the cache [active_workers] in insertion order, the
    settings, and the number of [FlowExecutor] objects constructed so far,
    which gives each new executor its reference. *)
Record t := mkManager {
  active_workers : list (string * WorkerInfo);
  settings : Settings;
  constructed : nat;
}.

Definition initial (s : Settings) : t :=
  {| active_workers := []; settings := s; constructed := 0 |}.

Definition with_workers (m : t) (ws : list (string * WorkerInfo)) : t :=
  {| active_workers := ws; settings := settings m; constructed := constructed m |}.

Inductive exn :=
  | MinOfEmptySequence                                   (* [ValueError] of [min] *)
  | NoFlowDefinition                                      (* [FlowExecutionError] *)
  | FlowValidationError (e : FlowExecutor.flow_validation_error).

(** [min(iterable, key=...)]: the first element whose key is minimal. *)
Definition py_min {A} (key : A → Z) (l : list A) : option A :=
  match l with
  | [] => None
  | x :: l' => Some (foldl (λ best y, if key y <? key best then y else best) x l')
  end.

(** [_ensure_capacity]. *)
Definition _ensure_capacity (m : t) : res exn t :=
  let max_workers := getattr (settings m) "MAX_ACTIVE_APIS" 50 in
  if Z.of_nat (length (active_workers m)) >=? max_workers then
    match py_min (λ kv : string * WorkerInfo, last_used kv.2) (active_workers m) with
    | Some (oldest_api_id, _) => Ok (with_workers m (dict_pop oldest_api_id (active_workers m)))
    | None => Err MinOfEmptySequence
    end
  else Ok m.

(** The capacity read by [_ensure_capacity].  [Settings] has no attribute
    of this upper-case name, so the default of [getattr] is what is read. *)
Definition max_workers (m : t) : Z :=
  getattr (settings m) "MAX_ACTIVE_APIS" 50.

(** [if not flow_json]: the definition is missing or an empty object. *)
Definition flow_json_falsy (fj : option FlowJson) : bool :=
  match fj with
  | None => true
  | Some fj => bool_decide (flow_id fj = None) && bool_decide (flow_nodes fj = None)
               && bool_decide (flow_edges fj = None)
  end.

(** [_create_new_worker]; a successful construction allocates an executor. *)
Definition _create_new_worker (order : SetOrder) (m : t) (published_api : PublishedApi)
    (user_context : dict) (now : Z) : res exn (WorkerInfo * t) :=
  match flow_definition published_api with
  | Some fj =>
      if flow_json_falsy (Some fj) then Err NoFlowDefinition
      else
        match FlowExecutor.__init__ order fj user_context with
        | Ok ex =>
            let executor := {| ref := constructed m; obj := ex |} in
            Ok (new_worker_info executor now,
                {| active_workers := active_workers m; settings := settings m;
                   constructed := S (constructed m) |})
        | Err e => Err (FlowValidationError e)
        | OutOfFuel => OutOfFuel
        end
  | None => Err NoFlowDefinition
  end.

(** [get_or_create_worker], the whole body under [worker_lock].  The result
    is what the call returns or raises, with the manager it leaves. *)
Definition get_or_create_worker (order : SetOrder) (m : t) (published_api : PublishedApi)
    (user_context : dict) (now : Z) : res exn Executor * t :=
  let api_id := api_id published_api in
  match dict_get api_id (active_workers m) with
  | Some worker_info =>
      let worker_info' := update_usage worker_info now 0%Q in
      (Ok (executor worker_info'),
       with_workers m (dict_set api_id worker_info' (active_workers m)))
  | None =>
      match _ensure_capacity m with
      | Ok m1 =>
          match _create_new_worker order m1 published_api user_context now with
          | Ok (worker_info, m2) =>
              (Ok (executor worker_info),
               with_workers m2 (dict_set api_id worker_info (active_workers m2)))
          | Err e => (Err e, m1)
          | OutOfFuel => (OutOfFuel, m1)
          end
      | Err e => (Err e, m)
      | OutOfFuel => (OutOfFuel, m)
      end
  end.

(** [cleanup_inactive_workers]. *)
Definition cleanup_inactive_workers (m : t) (current_time : Z) : t :=
  let ttl_delta := hours (getattr (settings m) "API_INACTIVE_TTL_HOURS" 2) in
  let workers_to_remove :=
    (filter (λ kv : string * WorkerInfo, current_time - last_used kv.2 > ttl_delta)
            (active_workers m)).*1 in
  with_workers m (foldl (λ ws api_id, dict_pop api_id ws) (active_workers m) workers_to_remove).

(** [force_remove_worker]. *)
Definition force_remove_worker (m : t) (api_id : string) : bool * t :=
  match dict_get api_id (active_workers m) with
  | Some _ => (true, with_workers m (dict_pop api_id (active_workers m)))
  | None => (false, m)
  end.

(** [clear_all_workers]. *)
Definition clear_all_workers (m : t) : t := with_workers m [].

(** [sum(... for w in values())] over rationals and over integers. *)
Definition sum_Q (l : list Q) : Q := foldl Qplus 0%Q l.
Definition sum_Z (l : list Z) : Z := foldl Z.add 0 l.

Record ManagerStats := mkManagerStats {
  ms_total_workers : nat;
  ms_active_in_last_hour : nat;
  ms_total_executions : Z;
  ms_total_execution_time : Q;
  ms_memory_usage_estimate : nat;
  ms_oldest_worker_age : option Z;
  ms_newest_worker_age : option Z;
}.

Definition list_min_Z (l : list Z) : option Z :=
  match l with [] => None | x :: l' => Some (foldl Z.min x l') end.
Definition list_max_Z (l : list Z) : option Z :=
  match l with [] => None | x :: l' => Some (foldl Z.max x l') end.

(** [get_manager_stats]. *)
Definition get_manager_stats (m : t) (current_time : Z) : ManagerStats :=
  let ws := (active_workers m).*2 in
  {| ms_total_workers := length ws;
     ms_active_in_last_hour :=
       length (filter (λ w, current_time - last_used w < hours 1) ws);
     ms_total_executions := sum_Z (execution_count <$> ws);
     ms_total_execution_time := sum_Q (total_execution_time <$> ws);
     ms_memory_usage_estimate := length ws * 50;
     ms_oldest_worker_age := (λ t0, current_time - t0) <$> list_min_Z (created_at <$> ws);
     ms_newest_worker_age := (λ t0, current_time - t0) <$> list_max_Z (created_at <$> ws) |}.

(** [get_worker_info], as far as the statistics go. *)
Definition get_worker_info (m : t) (api_id : string) : option WorkerStats :=
  get_stats <$> dict_get api_id (active_workers m).

(** [get_all_workers_info], as far as the statistics go. *)
Definition get_all_workers_info (m : t) : list (string * WorkerStats) :=
  (λ kv : string * WorkerInfo, (kv.1, get_stats kv.2)) <$> active_workers m.

(** ** Sequences of operations *)

Inductive op :=
  | Acquire (published_api : PublishedApi) (user_context : dict) (now : Z)
  | Cleanup (current_time : Z)
  | ForceRemove (api_id : string)
  | ClearAll.

Definition step (order : SetOrder) (m : t) (o : op) : t :=
  match o with
  | Acquire p u now => (get_or_create_worker order m p u now).2
  | Cleanup now => cleanup_inactive_workers m now
  | ForceRemove a => (force_remove_worker m a).2
  | ClearAll => clear_all_workers m
  end.

Definition run (order : SetOrder) (m : t) (ops : list op) : t := foldl (step order) m ops.

(** A state the manager can be in: the initial one after any operations. *)
Definition reachable (order : SetOrder) (m : t) : Prop :=
  ∃ s ops, m = run order (initial s) ops.

(** Along a run, the number of times the entry of [api] was found in the
    cache by [get_or_create_worker] since the call that created it. *)
Fixpoint hits_since_created (order : SetOrder) (m : t) (ops : list op) (api : string)
    (count : Z) : Z :=
  match ops with
  | [] => count
  | o :: ops' =>
      let count' :=
        match o with
        | Acquire p _ _ =>
            if decide (api_id p = api) then
              match dict_get api (active_workers m) with
              | Some _ => count + 1
              | None => 0
              end
            else count
        | _ => count
        end in
      hits_since_created order (step order m o) ops' api count'
  end.

End WorkerManager.

(** ** Concurrent callers of [get_or_create_worker]

    Any number of callers run [get_or_create_worker] for the same published
    API.  A caller takes one step at a time; the body of the function is
    entered by taking [worker_lock], which one caller holds at a time, and
    left by returning or raising, which releases it.  Between two statements
    of a caller any other caller may run. *)

Module Concurrent.
Import WorkerManager.

(** Where a caller is in [get_or_create_worker]. *)
Inductive pc :=
  | Absent                                (* not a caller *)
  | Start                                 (* before [with self.worker_lock] *)
  | Lookup                                (* line 133, the lock taken *)
  | Ensure                                (* line 141 *)
  | Create                                (* line 144 *)
  | Insert (worker_info : WorkerInfo)     (* line 145 *)
  | Done (r : res exn Executor).          (* returned or raised, the lock released *)

Record state := mkState {
  manager : WorkerManager.t;
  worker_lock : option nat;
  callers : nat → pc;
}.

Definition set_caller (s : state) (i : nat) (p : pc) : nat → pc :=
  λ j, if decide (j = i) then p else callers s j.

Section Steps.
Context (order : SetOrder) (published_api : PublishedApi) (user_context : nat → dict).

Inductive step : state → state → Prop :=
  | step_lock s i :
      callers s i = Start → worker_lock s = None →
      step s (mkState (manager s) (Some i) (set_caller s i Lookup))
  | step_hit s i worker_info now :
      callers s i = Lookup →
      dict_get (api_id published_api) (active_workers (manager s)) = Some worker_info →
      step s (mkState
                (with_workers (manager s)
                   (dict_set (api_id published_api) (update_usage worker_info now 0%Q)
                      (active_workers (manager s))))
                None
                (set_caller s i (Done (Ok (executor (update_usage worker_info now 0%Q))))))
  | step_miss s i :
      callers s i = Lookup →
      dict_get (api_id published_api) (active_workers (manager s)) = None →
      step s (mkState (manager s) (worker_lock s) (set_caller s i Ensure))
  | step_ensure s i m1 :
      callers s i = Ensure → _ensure_capacity (manager s) = Ok m1 →
      step s (mkState m1 (worker_lock s) (set_caller s i Create))
  | step_ensure_raise s i e :
      callers s i = Ensure → _ensure_capacity (manager s) = Err e →
      step s (mkState (manager s) None (set_caller s i (Done (Err e))))
  | step_create s i now worker_info m2 :
      callers s i = Create →
      _create_new_worker order (manager s) published_api (user_context i) now
        = Ok (worker_info, m2) →
      step s (mkState m2 (worker_lock s) (set_caller s i (Insert worker_info)))
  | step_create_raise s i now e :
      callers s i = Create →
      _create_new_worker order (manager s) published_api (user_context i) now = Err e →
      step s (mkState (manager s) None (set_caller s i (Done (Err e))))
  | step_insert s i worker_info :
      callers s i = Insert worker_info →
      step s (mkState
                (with_workers (manager s)
                   (dict_set (api_id published_api) worker_info
                      (active_workers (manager s))))
                None
                (set_caller s i (Done (Ok (executor worker_info))))).

(** The callers [0 .. n-1] are about to call, the lock is free. *)
Definition init (m : WorkerManager.t) (n : nat) : state :=
  mkState m None (λ i, if decide (i < n)%nat then Start else Absent).

Definition finished (s : state) : Prop :=
  ∀ i, callers s i = Absent ∨ ∃ r, callers s i = Done r.

(** The same calls one after the other: [get_or_create_worker] run from
    its first statement to its last for each caller of [sched] in turn, with
    the clock reading of that call.  The result is the manager at the end
    and what each call returned or raised. *)
Fixpoint serial (m : WorkerManager.t) (sched : list (nat * Z))
  : WorkerManager.t * list (nat * res exn Executor) :=
  match sched with
  | [] => (m, [])
  | (i, now) :: sched' =>
      let r := get_or_create_worker order m published_api (user_context i) now in
      let rest := serial r.2 sched' in
      (rest.1, (i, r.1) :: rest.2)
  end.

(** The statements a caller has left, at most, and those of the callers
    [0 .. n-1] together. *)
Definition weight (c : pc) : nat :=
  match c with
  | Start => 5%nat
  | Lookup => 4%nat
  | Ensure => 3%nat
  | Create => 2%nat
  | Insert _ => 1%nat
  | Absent | Done _ => 0%nat
  end.

Fixpoint statements_left (n : nat) (callers : nat → pc) : nat :=
  match n with
  | O => O
  | S n' => (statements_left n' callers + weight (callers n'))%nat
  end.

(** The flow of the published API passes the constructor of the executor. *)
Definition builds : Prop :=
  ∃ fj ex, flow_definition published_api = Some fj ∧
           flow_json_falsy (Some fj) = false ∧
           FlowExecutor.__init__ order fj [] = Ok ex.

End Steps.

End Concurrent.

(** * The execution endpoint
    ([app/api/api_v1/endpoints/maxdp_execute_router.py]) *)

Module ExecuteRouter.
Import WorkerManager.

(** What the handler reads of the HTTP request.  [json_body] is the result
    of [request.json()] and [form] that of [request.form()]; each is [None]
    when the call raises (a body that cannot be decoded). *)
Record Request := mkRequest {
  method : string;
  content_type : option string;
  user_agent : option string;
  client_host : option string;
  query_params : list (string * string);
  path_params : list (string * string);
  json_body : option value;
  form : option (list (string * string));
}.

Record User := mkUser {
  user_id : string;
  username : string;
  workspace_id : string;
}.

(** The same request carrying another JSON body. *)
Definition with_json_body (request : Request) (body_data : option value) : Request :=
  {| method := method request; content_type := content_type request;
     user_agent := user_agent request; client_host := client_host request;
     query_params := query_params request; path_params := path_params request;
     json_body := body_data; form := form request |}.

(** [needle in haystack] on strings. *)
Definition contains (needle haystack : string) : bool :=
  match String.index 0 needle haystack with Some _ => true | None => false end.

Definition str_items (l : list (string * string)) : dict :=
  (λ kv : string * string, (kv.1, VStr kv.2)) <$> l.

(** Lines 267-287: the body of the request. *)
Definition parse_body (request : Request) (request_data : dict) : option dict :=
  if decide (method request ∈ ["POST"; "PUT"; "PATCH"]) then
    let ct := default "" (content_type request) in
    if contains "application/json" ct then
      match json_body request with
      | Some (VDict body_data) => Some (dict_update request_data body_data)
      | Some body_data => Some (dict_set "body" body_data request_data)
      | None => Some request_data
      end
    else if contains "application/x-www-form-urlencoded" ct
            || contains "multipart/form-data" ct then
      match form request with
      | Some form_data => Some (dict_update request_data (dict_update [] (str_items form_data)))
      | None => None
      end
    else Some request_data
  else Some request_data.

(** [_parse_request_data]; [now] stands for the timestamp. *)
Definition _parse_request_data (request : Request) (now : Z) : dict :=
  let request_data := dict_update [] (dict_update [] (str_items (query_params request))) in
  let request_data := dict_update request_data (str_items (path_params request)) in
  match parse_body request request_data with
  | Some request_data =>
      dict_set "_metadata"
        (VDict [("method", VStr (method request));
                ("client_ip", VStr (default "unknown" (client_host request)));
                ("user_agent", VStr (default "unknown" (user_agent request)));
                ("timestamp", VInt now)])
        request_data
  | None => []
  end.

(** [_build_user_context]. *)
Definition _build_user_context (current_user : option User) (request : Request) (now : Z)
  : dict :=
  let context := [("request_id", VInt now); ("timestamp", VInt now);
                  ("client_ip", VStr (default "unknown" (client_host request)));
                  ("user_agent", VStr (default "unknown" (user_agent request)))] in
  match current_user with
  | Some u =>
      dict_update context
        [("user_id", VStr (user_id u)); ("username", VStr (username u));
         ("workspace_id", VStr (workspace_id u)); ("is_authenticated", VBool true)]
  | None => dict_set "is_authenticated" (VBool false) context
  end.

(** [_get_published_api]: [query] is what the database answers, [None] when
    the query raises; the exception is logged and the handler sees no API. *)
Definition _get_published_api (query : option (option PublishedApi)) : option PublishedApi :=
  match query with
  | Some found => found
  | None => None
  end.

(** Whether [json.dumps] accepts a value: a table is not JSON. *)
Fixpoint json_serializable (v : value) : bool :=
  match v with
  | VTable _ => false
  | VList l => forallb json_serializable l
  | VDict d => forallb (λ kv, match kv with (_, x) => json_serializable x end) d
  | _ => true
  end.

(** The [result] entry of the response written by
    [_format_execution_result]. *)
Inductive formatted :=
  | FTable (df : DataFrame)
  | FDict (d : dict)
  | FData (l : list value)
  | FResult (v : value).

Definition _format_execution_result (result : value) : formatted :=
  match result with
  | VTable df => FTable df
  | VDict d => FDict d
  | VList l => FData l
  | v => FResult v
  end.

Definition formatted_serializable (f : formatted) : bool :=
  match f with
  | FTable _ => true
  | FDict d => json_serializable (VDict d)
  | FData l => json_serializable (VList l)
  | FResult _ => true
  end.

Inductive body :=
  | Success (result : formatted)
  | Detail (message : string).

Record Response := mkResponse {
  status_code : Z;
  content : body;
}.

(** [run_published_api]: the response and the manager it leaves behind. *)
Definition run_published_api (order : SetOrder) (rt : FlowExecutor.NodeRuntime)
    (manager : WorkerManager.t) (query : option (option PublishedApi))
    (request : Request) (current_user : option User) (now : Z)
  : Response * WorkerManager.t :=
  match _get_published_api query with
  | None => (mkResponse 404 (Detail "API endpoint not found"), manager)
  | Some published_api =>
      if negb (is_active published_api)
      then (mkResponse 403 (Detail "API is currently inactive"), manager)
      else
        let request_data := _parse_request_data request now in
        let user_context := _build_user_context current_user request now in
        match get_or_create_worker order manager published_api user_context now with
        | (Ok executor, manager') =>
            match FlowExecutor.execute rt (obj executor) request_data ("exec_" +:+ pretty now) with
            | Ok result =>
                let response_data := _format_execution_result result in
                if formatted_serializable response_data
                then (mkResponse 200 (Success response_data), manager')
                else (mkResponse 500 (Detail "Internal server error"), manager')
            | _ => (mkResponse 500 (Detail "Flow execution failed"), manager')
            end
        | (_, manager') => (mkResponse 500 (Detail "Internal server error"), manager')
        end
  end.

End ExecuteRouter.

(** ** Sample flows, tables and runtimes *)

Module FlowSamples.
Import Samples.

Definition typed (i ty : string) : Node := mkNode (Some i) (Some ty) None.

(** The table that pandas builds for [people_config]:
    [pd.DataFrame([[1, 30], [2, 41]], columns=['id', 'age'])]. *)
Definition people : DataFrame :=
  {| columns := ["id"; "age"]; dtypes := ["int64"; "int64"];
     rows := [[CInt 1; CInt 30]; [CInt 2; CInt 41]] |}.

Definition people_config : dict :=
  [("data_source", VStr "array");
   ("array_data", VList [VList [VInt 1; VInt 30]; VList [VInt 2; VInt 41]]);
   ("columns", VList [VStr "id"; VStr "age"])].

(** The configuration is [people_config]. *)
Definition is_people_config (cfg : dict) : bool :=
  match cfg with
  | [(k1, VStr source);
     (k2, VList [VList [VInt a; VInt b]; VList [VInt c; VInt d]]);
     (k3, VList [VStr c1; VStr c2])] =>
      bool_decide (k1 = "data_source") && bool_decide (source = "array")
      && bool_decide (k2 = "array_data")
      && bool_decide (a = 1) && bool_decide (b = 30)
      && bool_decide (c = 2) && bool_decide (d = 41)
      && bool_decide (k3 = "columns")
      && bool_decide (c1 = "id") && bool_decide (c2 = "age")
  | _ => false
  end.

(** A [static_data] node that yields [people]. *)
Definition static_people (i : string) : Node :=
  mkNode (Some i) (Some "maxdp_static_data") (Some people_config).

(** The node classes the samples use, over a runtime [rest] for all others:
    a [static_data] node configured with [people_config] yields [people]
    ([StaticDataNode._create_from_array]), and a [display_results] node is
    the sink of that name with debug logging off. *)
Definition runtime_with (rest : FlowExecutor.NodeRuntime) : FlowExecutor.NodeRuntime :=
  {| FlowExecutor.construct := λ node,
       if decide (node_type node = Some "maxdp_static_data"
                  ∨ node_type node = Some "maxdp_display_results")
       then true else FlowExecutor.construct rest node;
     FlowExecutor.ainvoke := λ node input,
       if bool_decide (node_type node = Some "maxdp_static_data")
          && is_people_config (default [] (node_config node))
       then Some (VTable people)
       else if decide (node_type node = Some "maxdp_display_results") then
         match Sinks.run_node Sinks.DisplayResults (default [] (node_config node))
                 Sinks.quiet input with
         | Ok df => Some (VTable df)
         | _ => None
         end
       else FlowExecutor.ainvoke rest node input |}.

(** A stand-in for the classes that the sample flows do not use; what the
    samples compute does not depend on it. *)
Definition no_other_classes : FlowExecutor.NodeRuntime :=
  {| FlowExecutor.construct := λ _, false; FlowExecutor.ainvoke := λ _ _, None |}.

Definition sample_runtime : FlowExecutor.NodeRuntime := runtime_with no_other_classes.

(** A -> B, a table shown by a [display_results] node. *)
Definition flow_ab : FlowJson :=
  {| flow_id := Some "ab";
     flow_nodes := Some [static_people "A"; typed "B" "maxdp_display_results"];
     flow_edges := Some [ed "A" "B"] |}.

(** A -> B and A -> C, both B and C [display_results] nodes. *)
Definition flow_two_displays : FlowJson :=
  {| flow_id := Some "two";
     flow_nodes := Some [static_people "A";
                         typed "B" "maxdp_display_results";
                         typed "C" "maxdp_display_results"];
     flow_edges := Some [ed "A" "B"; ed "A" "C"] |}.

(** A single comment node. *)
Definition flow_comment : FlowJson :=
  {| flow_id := Some "note";
     flow_nodes := Some [typed "note" "maxdp_comment"];
     flow_edges := Some [] |}.

(** The executor objects the constructor builds for the three flows when
    sets are iterated in insertion order. *)
Definition built_from (fj : FlowJson) (execution_order : list string) : FlowExecutor.t :=
  let nodes := default [] (flow_nodes fj) in
  let edges := default [] (flow_edges fj) in
  {| FlowExecutor.flow_json := fj; FlowExecutor.user_context := [];
     FlowExecutor.nodes := nodes; FlowExecutor.edges := edges;
     FlowExecutor.execution_order := execution_order;
     FlowExecutor.node_map := FlowExecutor.build_node_map nodes;
     FlowExecutor.edge_map := FlowExecutor._build_edge_map nodes edges |}.

Definition ex_ab : FlowExecutor.t := built_from flow_ab ["A"; "B"].
Definition ex_two_displays : FlowExecutor.t := built_from flow_two_displays ["A"; "B"; "C"].
Definition ex_comment : FlowExecutor.t := built_from flow_comment ["note"].

(** The context in which B of [flow_ab] is about to run, when the request
    carries a parameter called A. *)
Definition ctx_clash : FlowExecutor.FlowExecutionContext :=
  {| FlowExecutor.execution_id := "exec_1";
     FlowExecutor.global_variables := [("A", VStr "query")];
     FlowExecutor.node_outputs := [("A", VTable people)];
     FlowExecutor.execution_log := ["A"] |}.

End FlowSamples.

Module ManagerSamples.
Import WorkerManager FlowSamples.

Definition stock_settings : Settings :=
  {| max_active_apis := 50; api_inactive_ttl_hours := 2;
     worker_cleanup_interval_minutes := 30; worker_stats_interval_minutes := 60 |}.

(** The published API number [i], serving the single-comment flow. *)
Definition api (i : nat) : PublishedApi :=
  {| api_id := pretty i; api_endpoint := "flows/" +:+ pretty i;
     api_name := "flow " +:+ pretty i; version := "1"; is_active := true;
     flow_definition := Some flow_comment |}.

(** Fifty workers.  The wall clock read by [datetime.utcnow()] steps back
    between the first two calls (10, then 5); workers 1 and 2 are then both
    used at time 6, and workers 3 to 50 are created at times 7 to 54. *)
Definition tie_trace : list op :=
  [Acquire (api 1) [] 10; Acquire (api 2) [] 5;
   Acquire (api 1) [] 6; Acquire (api 2) [] 6]
  ++ ((λ i, Acquire (api i) [] (Z.of_nat i + 4)) <$> seq 3 48).

Definition tie_state : WorkerManager.t := run Samples.insertion_order (initial stock_settings) tie_trace.

End ManagerSamples.

Module RouterSamples.
Import WorkerManager ExecuteRouter FlowSamples.

(** A published API serving the flow A -> B. *)
Definition api_ab : PublishedApi :=
  {| api_id := "7"; api_endpoint := "people"; api_name := "people"; version := "1";
     is_active := true; flow_definition := Some flow_ab |}.

(** A published API serving the flow with the two [display_results] nodes. *)
Definition api_two_displays : PublishedApi :=
  {| api_id := "8"; api_endpoint := "both"; api_name := "both"; version := "1";
     is_active := true; flow_definition := Some flow_two_displays |}.

(** A GET without parameters. *)
Definition plain_get : Request :=
  {| method := "GET"; content_type := None; user_agent := None;
     client_host := Some "10.0.0.1"; query_params := []; path_params := [];
     json_body := None; form := None |}.

(** A POST announcing JSON whose body cannot be decoded. *)
Definition bad_json : Request :=
  {| method := "POST"; content_type := Some "application/json"; user_agent := None;
     client_host := Some "10.0.0.1"; query_params := [("limit", "5")]; path_params := [];
     json_body := None; form := None |}.

(** A POST announcing a multipart form whose body cannot be decoded. *)
Definition bad_form : Request :=
  {| method := "POST"; content_type := Some "multipart/form-data; boundary=x";
     user_agent := None; client_host := Some "10.0.0.1";
     query_params := [("limit", "5")]; path_params := [];
     json_body := None; form := None |}.

End RouterSamples.

(** ** Samples for the further properties *)

Module MoreSamples.
Import Samples FlowSamples.

(** A -> X, where the type of X is no registered node type. *)
Definition flow_unknown : FlowJson :=
  {| flow_id := Some "unknown-type";
     flow_nodes := Some [static_people "A"; typed "X" "maxdp_teleport"];
     flow_edges := Some [ed "A" "X"] |}.

Definition ex_unknown : FlowExecutor.t := built_from flow_unknown ["A"; "X"].

(** A flow parameter [limit] with default 10. *)
Definition limit_parameter : Node :=
  mkNode (Some "p") (Some "maxdp_flow_parameter")
         (Some [("parameter_name", VStr "limit"); ("default_value", VInt 10)]).

(** A flow parameter [size] with default 20. *)
Definition size_parameter : Node :=
  mkNode (Some "q") (Some "maxdp_flow_parameter")
         (Some [("parameter_name", VStr "size"); ("default_value", VInt 20)]).

(** Two triggers whose [trigger_data] is a list of pairs. *)
Definition page_trigger : Node :=
  mkNode (Some "t") (Some "maxdp_trigger")
         (Some [("trigger_data", VList [VList [VStr "page"; VInt 2]])]).

Definition limit_trigger : Node :=
  mkNode (Some "t") (Some "maxdp_trigger")
         (Some [("trigger_data", VList [VList [VStr "limit"; VStr "z"]])]).

(** The context of a run of [flow_ab] before the first node and after the
    last. *)
Definition ctx_start : FlowExecutor.FlowExecutionContext :=
  {| FlowExecutor.execution_id := "exec_1";
     FlowExecutor.global_variables := [("limit", VStr "5")];
     FlowExecutor.node_outputs := [];
     FlowExecutor.execution_log := [] |}.

Definition ctx_ab_done : FlowExecutor.FlowExecutionContext :=
  {| FlowExecutor.execution_id := "exec_1";
     FlowExecutor.global_variables := [("limit", VStr "5")];
     FlowExecutor.node_outputs := [("A", VTable people); ("B", VTable people)];
     FlowExecutor.execution_log := ["A"; "B"] |}.

(** Worker 1 created at time 0 and worker 2 three hours later. *)
Definition aged_trace : list WorkerManager.op :=
  [WorkerManager.Acquire (ManagerSamples.api 1) [] 0;
   WorkerManager.Acquire (ManagerSamples.api 2) [] (WorkerManager.hours 3)].

Definition aged_state : WorkerManager.t :=
  WorkerManager.run insertion_order (WorkerManager.initial ManagerSamples.stock_settings)
    aged_trace.

Definition alice : dict := [("user_id", VStr "alice")].
Definition bob : dict := [("user_id", VStr "bob")].

(** A GET whose query string carries [limit] twice and a [_metadata] of
    its own, on a route with the path parameter [limit]. *)
Definition layered_get : ExecuteRouter.Request :=
  {| ExecuteRouter.method := "GET"; ExecuteRouter.content_type := None;
     ExecuteRouter.user_agent := None; ExecuteRouter.client_host := None;
     ExecuteRouter.query_params := [("limit", "1"); ("_metadata", "x"); ("limit", "2")];
     ExecuteRouter.path_params := [("limit", "3")];
     ExecuteRouter.json_body := None; ExecuteRouter.form := None |}.

End MoreSamples.

(** * Properties of the DAG scheduler *)

Section DagFacts.
Import DagUtil Graph.

(** The edges as pairs of endpoints. *)
Definition edge_pair (e : Edge) : option (string * string) :=
  match edge_source e, edge_target e with
  | Some u, Some v => Some (u, v)
  | _, _ => None
  end.
Definition pairs (edges : list Edge) : list (string * string) := omap edge_pair edges.

(** Targets of the edges that leave [u], in edge order. *)
Definition succs (u : string) (E : list (string * string)) : list string :=
  (filter (λ p, p.1 = u) E).*2.

(** Number of edges into [v] whose source is not in [done]. *)
Definition indeg (E : list (string * string)) (done : list string) (v : string) : Z :=
  Z.of_nat (length (filter (λ p, p.2 = v ∧ p.1 ∉ done) E)).

Lemma elem_of_pairs edges u v : (u, v) ∈ pairs edges ↔ edge_rel edges u v.
Proof.
  unfold pairs, edge_rel. rewrite list_elem_of_omap. split.
  - intros (e & He & Hp). exists e. unfold edge_pair in Hp.
    destruct (edge_source e), (edge_target e); naive_solver.
  - intros (e & He & Hs & Ht). exists e. unfold edge_pair. by rewrite Hs, Ht.
Qed.

Lemma elem_of_succs u v E : v ∈ succs u E ↔ (u, v) ∈ E.
Proof.
  unfold succs. rewrite list_elem_of_fmap. split.
  - intros ([a b] & -> & Hin). apply list_elem_of_filter in Hin as [Ha Hin].
    simpl in *. by subst.
  - intros Hin. exists (u, v). split; [done|]. by apply list_elem_of_filter.
Qed.

Lemma collect_node_ids_ok nodes acc :
  Forall (λ n, is_Some (node_id n)) nodes →
  NoDup (acc ++ declared_ids nodes) →
  collect_node_ids nodes acc = Ok (acc ++ declared_ids nodes).
Proof.
  revert acc. induction nodes as [|n nodes IH]; intros acc Hs Hnd; simpl.
  - unfold declared_ids. simpl. by rewrite app_nil_r.
  - inversion Hs as [|? ? [i Hi] Hs']; subst.
    unfold declared_ids in *. simpl in *. rewrite Hi in *. simpl in *.
    destruct (decide (i ∈ acc)) as [Hin|Hin].
    + exfalso. apply NoDup_app in Hnd as (_ & Hd & _).
      apply (Hd i Hin). left.
    + rewrite IH; [by rewrite <- app_assoc|done|by rewrite <- app_assoc].
Qed.

Lemma deg_insert m k x k' :
  deg (<[k := x]> m) k' = if decide (k = k') then x else deg m k'.
Proof.
  unfold deg. destruct (decide (k = k')) as [->|Hne].
  - by rewrite lookup_insert_eq.
  - by rewrite lookup_insert_ne.
Qed.

Lemma adj_insert g k x k' :
  adj (<[k := x]> g) k' = if decide (k = k') then x else adj g k'.
Proof.
  unfold adj. destruct (decide (k = k')) as [->|Hne].
  - by rewrite lookup_insert_eq.
  - by rewrite lookup_insert_ne.
Qed.

Definition resolved (ids : list string) (e : Edge) : Prop :=
  ∃ u v, edge_source e = Some u ∧ edge_target e = Some v ∧ u ∈ ids ∧ v ∈ ids.

Lemma add_edges_ok ids edges : ∀ g m,
  Forall (resolved ids) edges →
  ∃ g' m', add_edges ids edges g m = Ok (g', m') ∧
    (∀ u, adj g' u = adj g u ++ succs u (pairs edges)) ∧
    (∀ v, deg m' v = deg m v + Z.of_nat (length (filter (λ p, p.2 = v) (pairs edges)))).
Proof.
  induction edges as [|e edges IH]; intros g m Hres.
  - exists g, m. split; [done|]. split; intros; unfold succs, pairs; simpl.
    + by rewrite app_nil_r.
    + lia.
  - inversion Hres as [|? ? (u & v & Hu & Hv & Hiu & Hiv) Hres']; subst.
    assert (Hp : pairs (e :: edges) = (u, v) :: pairs edges).
    { unfold pairs. simpl. unfold edge_pair at 1. by rewrite Hu, Hv. }
    rewrite Hp. cbn [add_edges].
    unfold _validate_edge. rewrite Hu, Hv. simpl.
    rewrite decide_False by (intros H; by apply H).
    rewrite decide_False by (intros H; by apply H).
    destruct (IH (<[u := adj g u ++ [v]]> g) (<[v := deg m v + 1]> m) Hres')
      as (g' & m' & -> & Hg & Hm).
    exists g', m'. split; [done|]. split.
    + intros u'. rewrite Hg, adj_insert. unfold succs. rewrite filter_cons. simpl.
      destruct (decide (u = u')) as [->|Hne]; simpl; [|done].
      by rewrite <- app_assoc.
    + intros v'. rewrite Hm, deg_insert. rewrite filter_cons. simpl.
      destruct (decide (v = v')) as [->|Hne]; simpl; lia.
Qed.

(** *** The inner loop of Kahn's algorithm *)

Definition occ (v : string) (ns : list string) : Z :=
  Z.of_nat (length (filter (λ x, x = v) ns)).

Lemma occ_pos v ns : v ∈ ns ↔ 0 < occ v ns.
Proof.
  unfold occ. induction ns as [|n ns IH]; simpl.
  - rewrite elem_of_nil. simpl. lia.
  - rewrite elem_of_cons, filter_cons.
    destruct (decide (n = v)) as [->|Hne]; simpl.
    + split; [lia|auto].
    + rewrite IH. split; [intros [?|?]; [congruence|done]|auto].
Qed.

Lemma occ_nonneg v ns : 0 ≤ occ v ns.
Proof. unfold occ. lia. Qed.

Lemma foldl_relax ns : ∀ m q,
  (∀ v, v ∈ ns → occ v ns ≤ deg m v) →
  ∃ new, (foldl relax (m, q) ns).2 = q ++ new ∧
    NoDup new ∧
    (∀ v, deg (foldl relax (m, q) ns).1 v = deg m v - occ v ns) ∧
    (∀ v, v ∈ new ↔ v ∈ ns ∧ deg m v - occ v ns = 0).
Proof.
  induction ns as [|n ns IH]; intros m q Hge.
  - exists []. simpl. rewrite app_nil_r. split; [done|]. split; [constructor|].
    split; intros v.
    + unfold occ. simpl. lia.
    + rewrite elem_of_nil. naive_solver.
  - set (d := deg m n - 1).
    set (m1 := <[n := d]> m).
    assert (Hstep : relax (m, q) n = (m1, if decide (d = 0) then q ++ [n] else q))
      by reflexivity.
    cbn [foldl]. rewrite Hstep. clear Hstep.
    assert (Hocc : ∀ v, occ v (n :: ns) = (if decide (n = v) then 1 else 0) + occ v ns).
    { intros v. unfold occ. rewrite filter_cons.
      destruct (decide (n = v)); simpl; lia. }
    assert (Hm1 : ∀ v, deg m1 v = deg m v - (if decide (n = v) then 1 else 0)).
    { intros v. unfold m1. rewrite deg_insert. unfold d.
      destruct (decide (n = v)); subst; lia. }
    assert (Hge1 : ∀ v, v ∈ ns → occ v ns ≤ deg m1 v).
    { intros v Hv. rewrite Hm1. pose proof (Hge v ltac:(by right)) as Hv'.
      rewrite Hocc in Hv'. lia. }
    destruct (decide (d = 0)) as [Hd|Hd].
    + destruct (IH m1 (q ++ [n]) Hge1) as (new & Hq & Hnd & Hdeg & Hnew).
      assert (Hn : n ∉ ns).
      { intros Hin. specialize (Hge1 n Hin). apply occ_pos in Hin.
        rewrite Hm1 in Hge1. rewrite decide_True in Hge1 by done. unfold d in Hd. lia. }
      exists (n :: new). rewrite Hq, <- app_assoc. split; [done|].
      split; [|split].
      * constructor; [|done]. rewrite Hnew. by intros [? _].
      * intros v. rewrite Hdeg, Hm1, Hocc. lia.
      * intros v. rewrite !elem_of_cons, Hnew, Hm1, Hocc.
        destruct (decide (n = v)) as [->|Hne].
        -- split; [intros _|auto]. split; [by left|].
           assert (occ v ns = 0); [|unfold d in Hd; lia].
           pose proof (occ_pos v ns). pose proof (occ_nonneg v ns).
           destruct (decide (occ v ns = 0)); [done|]. exfalso. apply Hn. apply H. lia.
        -- split.
           ++ intros [->|[? ?]]; [done|]. split; [by right|lia].
           ++ intros [[->|?] ?]; [done|]. right. split; [done|lia].
    + destruct (IH m1 q Hge1) as (new & Hq & Hnd & Hdeg & Hnew).
      exists new. split; [done|]. split; [done|]. split.
      * intros v. rewrite Hdeg, Hm1, Hocc. lia.
      * intros v. rewrite Hnew, elem_of_cons, Hm1, Hocc.
        destruct (decide (n = v)) as [->|Hne].
        -- split.
           ++ intros [? ?]. split; [by left|lia].
           ++ intros [_ ?]. pose proof (occ_nonneg v ns).
              assert (0 < occ v ns) by (unfold d in Hd; lia).
              split; [by apply occ_pos|lia].
        -- split.
           ++ intros [? ?]. split; [by right|lia].
           ++ intros [[->|?] ?]; [done|]. split; [done|lia].
Qed.

Lemma occ_succs E u v : occ v (succs u E) = Z.of_nat (length (filter (λ p, p.2 = v ∧ p.1 = u) E)).
Proof.
  unfold occ, succs. f_equal. induction E as [|[a b] E' IH]; [done|].
  rewrite (filter_cons (λ p, p.1 = u)), (filter_cons (λ p, p.2 = v ∧ p.1 = u)).
  cbn [fst snd].
  destruct (decide (a = u)) as [->|Hne].
  - rewrite fmap_cons, filter_cons. cbn [snd].
    destruct (decide (b = v)) as [->|Hne'].
    + rewrite decide_True by done. cbn [length]. by rewrite IH.
    + rewrite decide_False by naive_solver. done.
  - rewrite decide_False by naive_solver. done.
Qed.

Lemma indeg_snoc E done u v :
  u ∉ done →
  indeg E (done ++ [u]) v = indeg E done v - occ v (succs u E).
Proof.
  intros Hu. rewrite occ_succs. unfold indeg.
  induction E as [|[a b] E' IH]; [done|].
  rewrite !filter_cons. simpl.
  destruct (decide (b = v)) as [->|Hb].
  - destruct (decide (a = u)) as [->|Ha].
    + rewrite decide_False by (rewrite elem_of_app, list_elem_of_singleton; naive_solver).
      rewrite decide_True by done. rewrite decide_True by done. simpl. lia.
    + destruct (decide (a ∈ done)) as [Hin|Hin].
      * rewrite decide_False by (rewrite elem_of_app; naive_solver).
        rewrite decide_False by naive_solver. rewrite decide_False by naive_solver. lia.
      * rewrite decide_True
          by (rewrite elem_of_app, list_elem_of_singleton; naive_solver).
        rewrite decide_True by done. rewrite decide_False by naive_solver. simpl. lia.
  - rewrite !decide_False by naive_solver. lia.
Qed.

Lemma indeg_zero E done v u : indeg E done v = 0 → (u, v) ∈ E → u ∈ done.
Proof.
  unfold indeg. intros Hz Hin.
  destruct (decide (u ∈ done)) as [|Hn]; [done|exfalso].
  assert (Hf : (u, v) ∈ filter (λ p, p.2 = v ∧ p.1 ∉ done) E)
    by (apply list_elem_of_filter; done).
  destruct (filter _ E); [by apply elem_of_nil in Hf|simpl in Hz; lia].
Qed.

Lemma indeg_pos E done v : 0 < indeg E done v → ∃ u, (u, v) ∈ E ∧ u ∉ done.
Proof.
  unfold indeg. intros Hz.
  destruct (filter _ E) as [|[a b] l] eqn:Hf; [simpl in Hz; lia|].
  assert (Hin : (a, b) ∈ filter (λ p, p.2 = v ∧ p.1 ∉ done) E)
    by (rewrite Hf; left).
  apply list_elem_of_filter in Hin as [[Hb Ha] Hin]. simpl in *. subst.
  by exists a.
Qed.

(** *** The invariant of the [while queue] loop *)

Section Kahn.
Context (ids : list string) (E : list (string * string)).
Context (graph : gmap string (list string)).
Hypothesis graph_adj : ∀ u, adj graph u = succs u E.
Hypothesis endpoints : ∀ u v, (u, v) ∈ E → u ∈ ids ∧ v ∈ ids.

Record kahn_inv (m : gmap string Z) (queue result : list string) : Prop := {
  ki_nodup : NoDup (result ++ queue);
  ki_incl : ∀ x, x ∈ result ++ queue → x ∈ ids;
  ki_deg : ∀ v, v ∈ ids → deg m v = indeg E result v;
  ki_zero : ∀ v, v ∈ ids → (v ∈ result ++ queue ↔ deg m v = 0);
  ki_ord : ∀ u v, (u, v) ∈ E → v ∈ result → before result u v;
}.

Lemma before_app_l l k u v : before l u v → before (l ++ k) u v.
Proof.
  intros (i & j & Hi & Hj & Hij). exists i, j.
  split; [|split; [|done]]; by apply lookup_app_l_Some.
Qed.

Lemma kahn_step m current queue result :
  kahn_inv m (current :: queue) result →
  kahn_inv (foldl relax (m, queue) (adj graph current)).1
           (foldl relax (m, queue) (adj graph current)).2
           (result ++ [current]).
Proof.
  intros [Hnd Hincl Hdeg Hzero Hord].
  rewrite graph_adj.
  assert (Hcur : current ∉ result).
  { apply NoDup_app in Hnd as (_ & Hd & _). intros Hin. apply (Hd _ Hin). left. }
  assert (Hcid : current ∈ ids).
  { apply Hincl. rewrite elem_of_app. right. left. }
  assert (Hsucc_ids : ∀ v, v ∈ succs current E → v ∈ ids).
  { intros v Hv. apply elem_of_succs in Hv. by apply endpoints in Hv as [_ ?]. }
  assert (Hge : ∀ v, v ∈ succs current E → occ v (succs current E) ≤ deg m v).
  { intros v Hv. rewrite Hdeg by auto.
    pose proof (indeg_snoc E result current v Hcur) as Hs.
    assert (0 ≤ indeg E (result ++ [current]) v) by (unfold indeg; lia). lia. }
  destruct (foldl_relax (succs current E) m queue Hge) as (new & Hq & Hnew_nd & Hd' & Hnew).
  rewrite Hq.
  assert (Hnew_fresh : ∀ v, v ∈ new → v ∉ result ++ current :: queue).
  { intros v Hv Hin. apply Hnew in Hv as [Hv Hz].
    apply Hzero in Hin; [|auto]. apply occ_pos in Hv. lia. }
  constructor.
  - rewrite <- app_assoc. simpl. apply NoDup_app. apply NoDup_app in Hnd as (Hr & Hd & Hcq).
    split; [done|]. split.
    + intros x Hx. rewrite elem_of_cons, elem_of_app. intros [->|[Hxq|Hxn]].
      * done.
      * apply (Hd x Hx). by right.
      * apply (Hnew_fresh x Hxn). rewrite elem_of_app. by left.
    + apply NoDup_cons in Hcq as [Hc Hqn]. apply NoDup_cons. split.
      * rewrite elem_of_app. intros [?|Hxn]; [done|].
        apply (Hnew_fresh _ Hxn). rewrite elem_of_app. right. left.
      * apply NoDup_app. split; [done|]. split; [|done].
        intros x Hx Hxn. apply (Hnew_fresh x Hxn). rewrite elem_of_app. right. by right.
  - intros x. rewrite <- app_assoc. simpl. rewrite elem_of_app, elem_of_cons, elem_of_app.
    intros [?|[->|[?|Hxn]]].
    + apply Hincl. rewrite elem_of_app. by left.
    + done.
    + apply Hincl. rewrite elem_of_app. right. by right.
    + apply Hsucc_ids. by apply Hnew in Hxn as [? _].
  - intros v Hv. rewrite Hd', Hdeg, indeg_snoc by done. done.
  - intros v Hv. rewrite Hd'. rewrite <- app_assoc. simpl.
    pose proof (occ_nonneg v (succs current E)) as Hnn.
    pose proof (occ_pos v (succs current E)) as Hpos.
    assert (Hle : occ v (succs current E) ≤ deg m v).
    { rewrite Hdeg by done. pose proof (indeg_snoc E result current v Hcur).
      assert (0 ≤ indeg E (result ++ [current]) v) by (unfold indeg; lia). lia. }
    split.
    + rewrite elem_of_app, elem_of_cons, elem_of_app. intros [Hr|[->|[Hqv|Hn]]].
      * assert (deg m v = 0) by (apply Hzero; [done|rewrite elem_of_app; by left]). lia.
      * assert (deg m current = 0)
          by (apply Hzero; [done|rewrite elem_of_app; right; left]). lia.
      * assert (deg m v = 0)
          by (apply Hzero; [done|rewrite elem_of_app; right; by right]). lia.
      * by apply Hnew in Hn as [_ ?].
    + intros Hz. destruct (decide (deg m v = 0)) as [Hm|Hm].
      * apply Hzero in Hm; [|done]. revert Hm.
        rewrite !elem_of_app, !elem_of_cons, elem_of_app. naive_solver.
      * rewrite elem_of_app, elem_of_cons, elem_of_app. right. right. right.
        apply Hnew. split; [|done]. apply Hpos. lia.
  - intros u v Huv. rewrite elem_of_app, list_elem_of_singleton. intros [Hv| ->].
    + apply before_app_l. by apply Hord.
    + assert (Hu : u ∈ result).
      { apply (indeg_zero E result current); [|done]. rewrite <- Hdeg by done.
        apply Hzero; [done|]. rewrite elem_of_app. right. left. }
      apply list_elem_of_lookup in Hu as [i Hi].
      exists i, (length result). split; [by apply lookup_app_l_Some|].
      split.
      * rewrite lookup_app_r by lia. by rewrite Nat.sub_diag.
      * by apply lookup_lt_Some in Hi.
Qed.

Lemma kahn_loop_spec fuel : ∀ m queue result,
  kahn_inv m queue result →
  (length ids ≤ fuel + length result)%nat →
  ∃ res m', kahn_loop fuel graph m queue result = Some res ∧ kahn_inv m' [] res.
Proof.
  induction fuel as [|fuel IH]; intros m queue result Hinv Hfuel.
  - destruct queue as [|c queue]; [by exists result, m|exfalso].
    pose proof (ki_nodup _ _ _ Hinv) as Hnd.
    pose proof (ki_incl _ _ _ Hinv) as Hincl.
    pose proof (NoDup_submseteq _ _ Hnd Hincl) as Hsub.
    apply submseteq_length in Hsub. rewrite length_app in Hsub. simpl in *. lia.
  - destruct queue as [|c queue]; [by exists result, m|].
    cbn [kahn_loop]. apply IH.
    + by apply kahn_step.
    + rewrite length_app. simpl. lia.
Qed.

(** Once the queue is empty, a node that was not output still has an incoming
    edge from another such node. *)
Lemma kahn_residual m res v :
  kahn_inv m [] res → v ∈ ids → v ∉ res →
  ∃ u, (u, v) ∈ E ∧ u ∈ ids ∧ u ∉ res.
Proof.
  intros Hinv Hv Hn.
  assert (Hnz : deg m v ≠ 0).
  { intros Hz. apply Hn. apply (ki_zero _ _ _ Hinv) in Hz; [|done].
    by rewrite app_nil_r in Hz. }
  rewrite (ki_deg _ _ _ Hinv) in Hnz by done.
  destruct (indeg_pos E res v) as (u & Hu & Hur).
  { unfold indeg in *. lia. }
  exists u. split; [done|]. split; [|done]. by apply endpoints in Hu as [? _].
Qed.

End Kahn.

(** *** Chains *)

Lemma chain_app_inv R p q : chain R (p ++ q) → chain R p ∧ chain R q.
Proof.
  induction p as [|a p IH]; [done|]. simpl. intros [Hh Ht].
  destruct (IH Ht) as [Hp Hq]. split; [|done]. split; [|done].
  destruct p; [done|]. done.
Qed.

Lemma chain_snoc R p a b : chain R (p ++ [a]) → R a b → chain R ((p ++ [a]) ++ [b]).
Proof.
  induction p as [|c p IH]; simpl.
  - intros _ HR. done.
  - intros [Hh Ht] HR. split; [|by apply IH].
    destruct p; simpl in *; done.
Qed.

Lemma chain_drop R p i : chain R p → chain R (drop i p).
Proof.
  intros Hc. rewrite <- (take_drop i p) in Hc. by apply chain_app_inv in Hc as [_ ?].
Qed.

Lemma chain_impl (R T : string → string → Prop) p :
  (∀ x y, R x y → T x y) → chain R p → chain T p.
Proof.
  intros HRT. induction p as [|a p IH]; [done|]. simpl. intros [Hh Ht].
  split; [|by apply IH]. destruct p; [done|]. by apply HRT.
Qed.

(** A chain from [a] to [b] inside a transitive relation relates [a] to [b]. *)
Lemma chain_trans (T : string → string → Prop) mid : ∀ a b,
  (∀ x y z, T x y → T y z → T x z) →
  chain T (a :: mid ++ [b]) → T a b.
Proof.
  induction mid as [|c mid IH]; intros a b Htr; simpl.
  - by intros [? _].
  - intros [Hac Ht]. apply (Htr a c b); [done|]. by apply IH.
Qed.

Lemma list_index_Some x l :
  x ∈ l → ∃ i rest, list_index x l = Some i ∧ drop i l = x :: rest.
Proof.
  induction l as [|y l IH]; [by intros ?%elem_of_nil|].
  intros Hin. simpl. destruct (decide (y = x)) as [->|Hne].
  - by exists O, l.
  - apply elem_of_cons in Hin as [?|Hin]; [congruence|].
    destruct (IH Hin) as (i & rest & -> & Hd). by exists (S i), rest.
Qed.

(** *** The depth-first search of [_find_cycle] *)

Section Dfs.
Context (graph : gmap string (list string)) (Rem : list string).

Definition arc (u v : string) : Prop := v ∈ adj graph u.

(** A list of finished nodes: the successors of each one inside [Rem] were
    finished before it. *)
Fixpoint closed (fin : list string) : Prop :=
  match fin with
  | [] => True
  | u :: l => (∀ v, arc u v → v ∈ Rem → v ∈ l) ∧ closed l
  end.

Record dfs_inv (st : dfs_state) (fin : list string) : Prop := {
  di_nodup : NoDup (path st ++ fin);
  di_stack : ∀ x, x ∈ rec_stack st ↔ x ∈ path st;
  di_visited : ∀ x, x ∈ visited st ↔ x ∈ path st ∨ x ∈ fin;
  di_chain : chain arc (path st);
  di_rem : ∀ x, x ∈ path st ++ fin → x ∈ Rem;
  di_closed : closed fin;
}.

Definition good_cycle (c : list string) : Prop :=
  (∃ u mid, c = u :: mid ++ [u]) ∧ chain arc c ∧ ∀ x, x ∈ c → x ∈ Rem.

(** What a call of [dfs], or a run of the loop over the neighbours, leaves:
    a cycle, or the same path with more finished nodes, [P] among them. *)
Definition dfs_post (st : dfs_state) (fin : list string) (P : string → Prop)
    (r : res dag_exn (list string * dfs_state)) : Prop :=
  ∃ c st', r = Ok (c, st') ∧
    ((c ≠ [] ∧ good_cycle c) ∨
     (c = [] ∧ path st' = path st ∧
      ∃ new, dfs_inv st' (new ++ fin) ∧ ∀ v, P v → v ∈ new ++ fin)).

Lemma closed_app l k : closed (l ++ k) → closed k.
Proof. induction l as [|a l IH]; [done|]. simpl. intros [_ ?]. auto. Qed.

Lemma closed_elem fin l1 u l2 v :
  closed fin → fin = l1 ++ u :: l2 → arc u v → v ∈ Rem → v ∈ l2.
Proof.
  intros Hc ->. apply closed_app in Hc. simpl in Hc. destruct Hc as [Hu _]. auto.
Qed.

Lemma path_length_le st fin : dfs_inv st fin → (length (path st) ≤ length Rem)%nat.
Proof.
  intros Hinv. pose proof (di_nodup _ _ Hinv) as Hnd.
  apply NoDup_app in Hnd as (Hnd & _ & _).
  apply submseteq_length, NoDup_submseteq; [done|].
  intros x Hx. apply (di_rem _ _ Hinv). rewrite elem_of_app. by left.
Qed.

Lemma visit_spec (call : string → dfs_state → res dag_exn (list string * dfs_state))
    (P : list string) (u : string) :
  (∀ v s fin, dfs_inv s fin → path s = P ++ [u] → v ∈ Rem → arc u v →
     dfs_post s fin (λ x, x = v) (call v s)) →
  ∀ nbrs s fin,
    dfs_inv s fin → path s = P ++ [u] → (∀ v, v ∈ nbrs → arc u v) →
    dfs_post s fin (λ x, x ∈ nbrs ∧ x ∈ Rem) (visit_neighbors call Rem nbrs s).
Proof.
  intros Hcall. induction nbrs as [|n nbrs IH]; intros s fin Hinv Hpath Harc.
  - exists [], s. split; [done|]. right. split; [done|]. split; [done|].
    exists []. split; [done|]. intros v [Hv _]. by apply elem_of_nil in Hv.
  - cbn [visit_neighbors]. destruct (decide (n ∈ Rem)) as [Hn|Hn].
    + destruct (Hcall n s fin Hinv Hpath Hn) as (c & s' & -> & [[Hc Hgood]|(-> & Hp' & new & Hinv' & Hin)]).
      { apply Harc. left. }
      * exists c, s'. destruct c; [done|]. split; [done|]. by left.
      * destruct (IH s' (new ++ fin) Hinv') as (c & s'' & -> & Hres).
        { by rewrite Hp'. }
        { intros v Hv. apply Harc. by right. }
        exists c, s''. split; [done|].
        destruct Hres as [?|(-> & Hp'' & new' & Hinv'' & Hin')]; [by left|].
        right. split; [done|]. split; [by rewrite Hp''|].
        exists (new' ++ new). rewrite <- app_assoc. split; [done|].
        intros v [Hv Hvr]. apply elem_of_cons in Hv as [->|Hv].
        -- rewrite elem_of_app. right. by apply Hin.
        -- by apply Hin'.
    + destruct (IH s fin Hinv Hpath) as (c & s' & -> & Hres).
      { intros v Hv. apply Harc. by right. }
      exists c, s'. split; [done|].
      destruct Hres as [?|(-> & Hp' & new & Hinv' & Hin)]; [by left|].
      right. split; [done|]. split; [done|]. exists new. split; [done|].
      intros v [Hv Hvr]. apply elem_of_cons in Hv as [->|Hv]; [done|]. by apply Hin.
Qed.

Lemma dfs_spec fuel : ∀ node st fin,
  dfs_inv st fin → node ∈ Rem → chain arc (path st ++ [node]) →
  (length Rem < fuel + length (path st))%nat →
  dfs_post st fin (λ x, x = node) (dfs fuel graph Rem node st).
Proof.
  induction fuel as [|fuel IH]; intros node st fin Hinv Hnode Hchain Hfuel.
  - pose proof (path_length_le _ _ Hinv). lia.
  - cbn [dfs]. destruct (decide (node ∈ rec_stack st)) as [Hrs|Hrs].
    { (* the node is on the recursion stack: a cycle *)
      apply (di_stack _ _ Hinv) in Hrs.
      destruct (list_index_Some _ _ Hrs) as (i & rest & -> & Hdrop).
      exists (drop i (path st) ++ [node]), st. split; [done|]. left.
      split; [rewrite Hdrop; done|]. split; [|split].
      - exists node, rest. by rewrite Hdrop.
      - rewrite <- (take_drop i (path st)), <- app_assoc in Hchain.
        by apply chain_app_inv in Hchain as [_ ?].
      - intros x. rewrite elem_of_app, list_elem_of_singleton. intros [Hx| ->]; [|done].
        apply (di_rem _ _ Hinv). rewrite elem_of_app. left.
        rewrite <- (take_drop i (path st)), elem_of_app. by right. }
    destruct (decide (node ∈ visited st)) as [Hvis|Hvis].
    { (* already finished *)
      exists [], st. split; [done|]. right. split; [done|]. split; [done|].
      exists []. split; [done|]. intros v ->.
      apply (di_visited _ _ Hinv) in Hvis as [Hp|Hf]; [|done].
      by apply (di_stack _ _ Hinv) in Hp. }
    (* a fresh node *)
    assert (Hnp : node ∉ path st).
    { intros Hp. apply Hvis. apply (di_visited _ _ Hinv). by left. }
    assert (Hnf : node ∉ fin).
    { intros Hf. apply Hvis. apply (di_visited _ _ Hinv). by right. }
    set (st1 := {| path := path st ++ [node];
                   visited := {[node]} ∪ visited st;
                   rec_stack := {[node]} ∪ rec_stack st |}).
    assert (Hinv1 : dfs_inv st1 fin).
    { destruct Hinv as [Hnd Hst Hvs Hch Hrm Hcl]. constructor; simpl.
      - rewrite <- app_assoc. simpl. apply NoDup_app in Hnd as (Hp & Hd & Hf).
        apply NoDup_app. split; [done|]. split.
        + intros x Hx. rewrite elem_of_cons. intros [->|Hxf]; [done|]. by apply (Hd x).
        + by apply NoDup_cons.
      - intros x. rewrite elem_of_union, elem_of_singleton, elem_of_app,
          list_elem_of_singleton, Hst. naive_solver.
      - intros x. rewrite elem_of_union, elem_of_singleton, elem_of_app,
          list_elem_of_singleton, Hvs. naive_solver.
      - done.
      - intros x. rewrite <- app_assoc, elem_of_app. simpl. rewrite elem_of_cons.
        intros [?|[->|?]]; [|done|]; apply Hrm; rewrite elem_of_app; auto.
      - done. }
    assert (Hloop : dfs_post st1 fin (λ x, x ∈ adj graph node ∧ x ∈ Rem)
              (visit_neighbors (dfs fuel graph Rem) Rem (adj graph node) st1)).
    { apply (visit_spec _ (path st) node); [|done|done|done].
      intros v s fin' Hs Hps Hv Harc. apply IH; [done|done| |].
      - rewrite Hps. apply chain_snoc; done.
      - rewrite Hps, length_app. simpl. lia. }
    destruct Hloop as (c & s & -> & [[Hc Hgood]|(-> & Hps & new & Hinvs & Hin)]).
    + exists c, s. destruct c; [done|]. split; [done|]. by left.
    + eexists [], _. split; [done|]. right. split; [done|]. simpl in Hps.
      split; [simpl; rewrite Hps; apply removelast_last|].
      exists (node :: new). split; [|intros v ->; left].
      destruct Hinvs as [Hnd Hst Hvs Hch Hrm Hcl]. rewrite Hps in *.
      constructor; simpl.
      * rewrite removelast_last. rewrite <- app_assoc in Hnd. done.
      * intros x. rewrite removelast_last, elem_of_difference, elem_of_singleton, Hst,
          elem_of_app, list_elem_of_singleton. naive_solver.
      * intros x. rewrite removelast_last, Hvs, elem_of_app, list_elem_of_singleton,
          elem_of_cons. naive_solver.
      * rewrite removelast_last. by apply chain_app_inv in Hch as [? _].
      * intros x Hx. apply Hrm. rewrite removelast_last in Hx.
        by rewrite <- app_assoc.
      * split; [|done]. intros v Hv Hvr. by apply Hin.
Qed.

(** The driver loop: a cycle, or every node of [todo] finished. *)
Lemma find_cycle_loop_spec fuel : ∀ todo vis fin,
  (length Rem < fuel)%nat →
  dfs_inv {| path := []; visited := vis; rec_stack := ∅ |} fin →
  (∀ x, x ∈ todo → x ∈ Rem) →
  (∃ c, find_cycle_loop fuel graph Rem todo vis = Ok c ∧ good_cycle c) ∨
  (∃ fin', NoDup fin' ∧ closed fin' ∧ (∀ x, x ∈ fin' → x ∈ Rem) ∧
           (∀ x, x ∈ todo → x ∈ fin') ∧ (∀ x, x ∈ fin → x ∈ fin')).
Proof.
  intros todo. induction todo as [|n todo IH]; intros vis fin Hfuel Hinv Htodo.
  - right. exists fin. destruct Hinv as [Hnd _ _ _ Hrm Hcl]. simpl in *.
    split; [done|]. split; [done|]. split; [done|]. split; [|done].
    by intros x ?%elem_of_nil.
  - cbn [find_cycle_loop]. destruct (decide (n ∉ vis)) as [Hn|Hn].
    + destruct (dfs_spec fuel n _ fin Hinv) as (c & s & -> & [[Hc Hgood]|(-> & Hps & new & Hinvs & Hin)]).
      { apply Htodo. left. }
      { done. }
      { simpl. lia. }
      * left. exists c. destruct c; [done|]. done.
      * simpl in Hps.
        destruct (IH (visited s) (new ++ fin)) as [?|(fin' & H1 & H2 & H3 & H4 & H5)];
          [done| | |by left|].
        { destruct Hinvs as [Hnd Hst Hvs Hch Hrm Hcl]. rewrite Hps in *.
          constructor; simpl; try done. set_solver. }
        { intros x Hx. apply Htodo. by right. }
        right. exists fin'. split; [done|]. split; [done|]. split; [done|]. split.
        -- intros x. rewrite elem_of_cons. intros [->|Hx]; [|by apply H4].
           apply H5. by apply Hin.
        -- intros x Hx. apply H5. rewrite elem_of_app. by right.
    + destruct (IH vis fin Hfuel Hinv) as [?|(fin' & H1 & H2 & H3 & H4 & H5)]; [|by left|].
      { intros x Hx. apply Htodo. by right. }
      right. exists fin'. split; [done|]. split; [done|]. split; [done|]. split; [|done].
      intros x. rewrite elem_of_cons. intros [->|Hx]; [|by apply H4].
      apply H5. apply dec_stable in Hn.
      apply (di_visited _ _ Hinv) in Hn as [Hp|Hf]; [|done].
      by apply elem_of_nil in Hp.
Qed.

(** Finished nodes cannot all have a predecessor among themselves. *)
Lemma closed_has_source fin :
  NoDup fin → closed fin → fin ≠ [] →
  ¬ (∀ x, x ∈ fin → x ∈ Rem ∧ ∃ p, p ∈ fin ∧ arc p x).
Proof.
  intros Hnd Hcl Hne Hpred. destruct fin as [|u0 l]; [done|].
  destruct (Hpred u0) as (Hu0 & p & Hp & Harc); [left|].
  apply list_elem_of_split in Hp as (l1 & l2 & Heq).
  pose proof (closed_elem _ l1 p l2 u0 Hcl Heq Harc Hu0) as Hin.
  rewrite Heq in Hnd. destruct l1 as [|a l1]; simpl in *.
  - injection Heq as -> ->. by apply NoDup_cons in Hnd as [? _].
  - injection Heq as -> ->. apply NoDup_cons in Hnd as [Hn _]. apply Hn.
    rewrite elem_of_app. right. by right.
Qed.

(** [_find_cycle] returns a cycle whenever every remaining node has a
    remaining predecessor. *)
Lemma find_cycle_spec :
  Rem ≠ [] →
  (∀ x, x ∈ Rem → ∃ p, p ∈ Rem ∧ arc p x) →
  ∃ c, _find_cycle graph Rem = Ok c ∧ good_cycle c.
Proof.
  intros Hne Hpred. unfold _find_cycle.
  destruct (find_cycle_loop_spec (S (length Rem)) Rem ∅ [])
    as [?|(fin' & H1 & H2 & H3 & H4 & _)]; [lia| |done|done|exfalso].
  { constructor; simpl; [constructor|set_solver|set_solver|done|by intros x ?%elem_of_nil|done]. }
  apply (closed_has_source fin' H1 H2).
  - destruct Rem as [|r ?]; [done|]. intros ->. specialize (H4 r ltac:(left)).
    by apply elem_of_nil in H4.
  - intros x Hx. split; [auto|]. destruct (Hpred x (H3 x Hx)) as (p & Hp & Harc).
    exists p. auto.
Qed.

End Dfs.

(** *** [before] on a duplicate-free list is a strict order *)

Lemma before_trans l a b c : NoDup l → before l a b → before l b c → before l a c.
Proof.
  intros Hnd (i & j & Hi & Hj & Hij) (j' & k & Hj' & Hk & Hjk).
  assert (j = j') as <- by (eapply NoDup_lookup; eauto).
  exists i, k. split; [done|]. split; [done|lia].
Qed.

Lemma before_irrefl l a : NoDup l → ¬ before l a a.
Proof.
  intros Hnd (i & j & Hi & Hj & Hij).
  assert (i = j) by (eapply NoDup_lookup; eauto). lia.
Qed.

(** *** Running [topological_sort] on a well-formed flow *)

Section Run.
Context (order : SetOrder).
Context (nodes : list Node) (edges : list Edge).
Hypothesis wf : well_formed nodes edges.

Let ids := declared_ids nodes.
Let E := pairs edges.

Lemma ids_nodup : NoDup ids.
Proof. by destruct wf as (_ & ? & _). Qed.

Lemma order_ids_nodup : NoDup (order ids).
Proof. rewrite (set_iter_perm order ids ids_nodup). apply ids_nodup. Qed.

Lemma elem_of_order_ids x : x ∈ order ids ↔ x ∈ ids.
Proof. by rewrite (set_iter_perm order ids ids_nodup). Qed.

Lemma endpoints_ids u v : (u, v) ∈ E → u ∈ ids ∧ v ∈ ids.
Proof.
  intros Huv. apply elem_of_pairs in Huv as (e & He & Hs & Ht).
  destruct wf as (_ & _ & Hres). rewrite Forall_forall in Hres.
  destruct (Hres e He) as (u' & v' & Hs' & Ht' & ? & ?). by simplify_eq.
Qed.

Lemma deg_init (l : list string) : ∀ m v,
  deg (foldl (λ m nid, <[nid := 0]> m) m l) v = if decide (v ∈ l) then 0 else deg m v.
Proof.
  induction l as [|a l IH]; intros m v; cbn [foldl].
  - by rewrite decide_False by apply not_elem_of_nil.
  - rewrite IH, deg_insert. destruct (decide (v ∈ l)) as [Hin|Hin].
    + by rewrite decide_True by (by right).
    + destruct (decide (a = v)) as [->|Hne].
      * by rewrite decide_True by left.
      * rewrite decide_False; [done|]. rewrite elem_of_cons. naive_solver.
Qed.

Definition remaining (result : list string) : list string :=
  order (filter (λ nid, nid ∉ result) (order ids)).

Lemma elem_of_remaining result x : x ∈ remaining result ↔ x ∈ ids ∧ x ∉ result.
Proof.
  unfold remaining. rewrite set_iter_perm by apply NoDup_filter, order_ids_nodup.
  rewrite list_elem_of_filter, elem_of_order_ids. naive_solver.
Qed.

(** The function follows its source up to the test on the length of
    [result], and the loop invariant holds there. *)
Lemma topological_sort_unfold :
  ∃ graph m0 m result,
    (∀ u, adj graph u = succs u E) ∧
    (∀ v, deg m0 v = indeg E [] v) ∧
    kahn_loop (length ids) graph m0
      (filter (λ nid, deg m0 nid = 0) (order ids)) [] = Some result ∧
    kahn_inv ids E m [] result ∧
    topological_sort order nodes edges =
      if decide (length result ≠ length ids) then
        match _find_cycle graph (remaining result) with
        | Ok cycle_info => Err (DAGCycleError cycle_info)
        | Err e => Err e
        | OutOfFuel => OutOfFuel
        end
      else Ok result.
Proof.
  destruct wf as (Hsome & Hnd & Hres).
  unfold topological_sort.
  rewrite (collect_node_ids_ok nodes [] Hsome Hnd). simpl. fold ids.
  destruct (add_edges_ok ids edges ∅
              (foldl (λ m nid, <[nid := 0]> m) ∅ (order ids)) Hres)
    as (graph & m & Hadd & Hg & Hm).
  rewrite Hadd.
  assert (Hgraph : ∀ u, adj graph u = succs u E) by (intros u; by rewrite Hg).
  assert (Hdeg : ∀ v, deg m v = indeg E [] v).
  { intros v. rewrite Hm, deg_init. unfold deg at 1. rewrite lookup_empty. simpl.
    replace (if decide (v ∈ order ids) then 0 else 0) with 0 by (by case_decide).
    unfold indeg. rewrite Z.add_0_l. do 2 f_equal. apply list_filter_iff.
    intros [a b]. simpl. split; [intros ->; split; [done|apply not_elem_of_nil]|by intros [? _]]. }
  assert (Hinv0 : kahn_inv ids E m (filter (λ nid, deg m nid = 0) (order ids)) []).
  { constructor; simpl.
    - apply NoDup_filter, order_ids_nodup.
    - intros x Hx. apply list_elem_of_filter in Hx as [_ Hx]. by apply elem_of_order_ids.
    - intros v _. apply Hdeg.
    - intros v Hv. rewrite list_elem_of_filter, elem_of_order_ids. naive_solver.
    - intros u v _ Hv. by apply elem_of_nil in Hv. }
  destruct (kahn_loop_spec ids E graph Hgraph endpoints_ids (length ids) m _ [] Hinv0)
    as (result & m' & Hloop & Hinv); [simpl; lia|].
  exists graph, m, m', result. rewrite Hloop. done.
Qed.

(** When the loop did not output every node, [_find_cycle] returns a
    directed cycle of the flow. *)
Lemma residual_cycle graph m result :
  (∀ u, adj graph u = succs u E) →
  kahn_inv ids E m [] result →
  length result ≠ length ids →
  ∃ c, _find_cycle graph (remaining result) = Ok c ∧
       directed_cycle edges c ∧ ∀ x, x ∈ c → x ∈ ids.
Proof.
  intros Hgraph Hinv Hlen.
  assert (Hsub : result ⊆+ ids).
  { apply NoDup_submseteq.
    - pose proof (ki_nodup _ _ _ _ _ Hinv) as Hnd. by rewrite app_nil_r in Hnd.
    - intros x Hx. apply (ki_incl _ _ _ _ _ Hinv). by rewrite app_nil_r. }
  destruct (find_cycle_spec graph (remaining result)) as (c & Hc & Hshape & Hchain & Hrem).
  - intros Hnil. apply Hlen. apply Permutation_length, submseteq_length_Permutation; [done|].
    apply submseteq_length, NoDup_submseteq; [apply ids_nodup|].
    intros x Hx. destruct (decide (x ∈ result)) as [|Hn]; [done|exfalso].
    assert (Hr : x ∈ remaining result) by (by apply elem_of_remaining).
    rewrite Hnil in Hr. by apply elem_of_nil in Hr.
  - intros x Hx. apply elem_of_remaining in Hx as [Hx Hn].
    destruct (kahn_residual ids E endpoints_ids m result x Hinv Hx Hn) as (u & Hu & Hui & Hur).
    exists u. split; [by apply elem_of_remaining|].
    unfold arc. rewrite Hgraph. by apply elem_of_succs.
  - exists c. split; [done|]. split; [split; [done|]|].
    + eapply chain_impl; [|done]. intros x y. unfold arc. rewrite Hgraph, elem_of_succs.
      apply elem_of_pairs.
    + intros x Hx. by apply Hrem, elem_of_remaining in Hx as [? _].
Qed.

(** A full output orders the endpoints of every edge. *)
Lemma full_before m result :
  kahn_inv ids E m [] result → length result = length ids →
  NoDup result ∧ result ≡ₚ ids ∧ ∀ u v, edge_rel edges u v → before result u v.
Proof.
  intros Hinv Hlen.
  pose proof (ki_nodup _ _ _ _ _ Hinv) as Hnd. rewrite app_nil_r in Hnd.
  assert (Hperm : result ≡ₚ ids).
  { apply submseteq_length_Permutation; [|lia]. apply NoDup_submseteq; [done|].
    intros x Hx. apply (ki_incl _ _ _ _ _ Hinv). by rewrite app_nil_r. }
  split; [done|]. split; [done|].
  intros u v Huv. apply elem_of_pairs in Huv.
  apply (ki_ord _ _ _ _ _ Hinv); [done|]. rewrite Hperm.
  by apply endpoints_ids in Huv as [_ ?].
Qed.

Lemma cycle_not_full m result :
  kahn_inv ids E m [] result → has_cycle edges → length result ≠ length ids.
Proof.
  intros Hinv (p & (u & mid & ->) & Hchain) Hlen.
  destruct (full_before m result Hinv Hlen) as (Hnd & _ & Hord).
  apply (before_irrefl result u Hnd).
  apply (chain_trans (before result) mid u u).
  - intros x y z. by apply before_trans.
  - eapply chain_impl; [|done]. done.
Qed.

End Run.

(** *** Validation accepts exactly the well-formed flows *)

Lemma collect_node_ids_inv nodes : ∀ acc,
  match collect_node_ids nodes acc with
  | Ok l => Forall (λ n, is_Some (node_id n)) nodes ∧
            l = acc ++ declared_ids nodes ∧ (NoDup acc → NoDup l)
  | Err e => ∃ reason, e = DAGValidationError reason
  | OutOfFuel => False
  end.
Proof.
  induction nodes as [|n nodes IH]; intros acc; simpl.
  - split; [constructor|]. unfold declared_ids. simpl. by rewrite app_nil_r.
  - unfold declared_ids. simpl. destruct (node_id n) as [i|] eqn:Hi; [|by eexists].
    destruct (decide (i ∈ acc)) as [Hin|Hin]; [by eexists|].
    specialize (IH (acc ++ [i])).
    destruct (collect_node_ids nodes (acc ++ [i])) as [l|e|]; [|done|done].
    destruct IH as (Hall & -> & Hnd). split; [constructor; [by rewrite Hi|done]|].
    simpl. rewrite <- app_assoc. split; [done|]. intros Hacc. rewrite app_assoc.
    apply Hnd. apply NoDup_app. split; [done|]. split; [|apply NoDup_singleton].
    intros x Hx ->%list_elem_of_singleton. done.
Qed.

Lemma add_edges_inv ids edges : ∀ g m,
  match add_edges ids edges g m with
  | Ok _ => Forall (resolved ids) edges
  | Err e => ∃ reason, e = DAGValidationError reason
  | OutOfFuel => False
  end.
Proof.
  induction edges as [|e edges IH]; intros g m; simpl; [constructor|].
  unfold _validate_edge.
  destruct (edge_source e) as [u|] eqn:Hu, (edge_target e) as [v|] eqn:Hv; simpl;
    try by eexists.
  destruct (decide (u ∉ ids)) as [Hui|Hui]; [by eexists|].
  destruct (decide (v ∉ ids)) as [Hvi|Hvi]; [by eexists|].
  apply dec_stable in Hui, Hvi.
  specialize (IH (<[u := adj g u ++ [v]]> g) (<[v := deg m v + 1]> m)).
  destruct (add_edges ids edges _ _); [|done|done].
  constructor; [|done]. by exists u, v.
Qed.

Lemma sort_not_err_well_formed (order : SetOrder) nodes edges :
  (∀ reason, topological_sort order nodes edges ≠ Err (DAGValidationError reason)) →
  well_formed nodes edges.
Proof.
  unfold topological_sort. intros Hne.
  pose proof (collect_node_ids_inv nodes []) as Hc.
  destruct (collect_node_ids nodes []) as [l|e|]; [| |done].
  - destruct Hc as (Hall & -> & Hnd). simpl in *.
    pose proof (add_edges_inv (declared_ids nodes) edges ∅
      (foldl (λ m nid, <[nid := 0]> m) ∅ (order (declared_ids nodes)))) as Ha.
    destruct (add_edges _ _ _ _) as [[g m]|e|]; [| |done].
    + split; [done|]. split; [apply Hnd; constructor|done].
    + destruct Ha as [r ->]. by destruct (Hne r).
  - destruct Hc as [r ->]. by destruct (Hne r).
Qed.

Lemma sort_ok_well_formed (order : SetOrder) nodes edges result :
  topological_sort order nodes edges = Ok result → well_formed nodes edges.
Proof.
  intros Hok. apply (sort_not_err_well_formed order). intros r. by rewrite Hok.
Qed.

(** [topological_sort] returns or raises: the fuel given to its loops is
    always enough. *)
Lemma topological_sort_total (order : SetOrder) nodes edges :
  topological_sort order nodes edges ≠ OutOfFuel.
Proof.
  intros Hout.
  assert (Hwf : well_formed nodes edges).
  { apply (sort_not_err_well_formed order). intros r. by rewrite Hout. }
  destruct (topological_sort_unfold order nodes edges Hwf)
    as (graph & m0 & m & result & Hg & _ & _ & Hinv & Heq).
  rewrite Heq in Hout. case_decide as Hlen; [|done].
  destruct (residual_cycle order nodes edges Hwf graph m result Hg Hinv Hlen)
    as (c & Hc & _).
  by rewrite Hc in Hout.
Qed.

(** A flow that is not well formed is rejected by the validation. *)
Lemma topological_sort_invalid (order : SetOrder) nodes edges :
  ¬ well_formed nodes edges →
  ∃ reason, topological_sort order nodes edges = Err (DAGValidationError reason).
Proof.
  intros Hnwf. unfold topological_sort.
  pose proof (collect_node_ids_inv nodes []) as Hc.
  destruct (collect_node_ids nodes []) as [l|e|]; [|by destruct Hc as [r ->]; eexists|done].
  destruct Hc as (Hall & -> & Hnd). simpl in *.
  pose proof (add_edges_inv (declared_ids nodes) edges ∅
    (foldl (λ m nid, <[nid := 0]> m) ∅ (order (declared_ids nodes)))) as Ha.
  destruct (add_edges _ _ _ _) as [[g m]|e|]; [|by destruct Ha as [r ->]; eexists|done].
  exfalso. apply Hnwf. split; [done|]. split; [apply Hnd; constructor|done].
Qed.

Lemma sort_valid (order : SetOrder) nodes edges :
  valid_flow nodes edges →
  ∃ result, topological_sort order nodes edges = Ok result ∧
    NoDup result ∧ result ≡ₚ declared_ids nodes ∧
    ∀ u v, edge_rel edges u v → before result u v.
Proof.
  intros [Hwf Hacyc].
  destruct (topological_sort_unfold order nodes edges Hwf)
    as (graph & m0 & m & result & Hg & _ & _ & Hinv & Heq).
  rewrite Heq. case_decide as Hlen.
  - exfalso. apply Hacyc.
    destruct (residual_cycle order nodes edges Hwf graph m result Hg Hinv Hlen)
      as (c & _ & Hc & _).
    by exists c.
  - exists result. split; [done|].
    apply (full_before nodes edges Hwf m result Hinv).
    destruct (decide (length result = length (declared_ids nodes))); [done|].
    by destruct Hlen.
Qed.

Lemma sort_cyclic (order : SetOrder) nodes edges :
  well_formed nodes edges → has_cycle edges →
  ∃ cycle_info, topological_sort order nodes edges = Err (DAGCycleError cycle_info) ∧
    directed_cycle edges cycle_info ∧ ∀ x, x ∈ cycle_info → x ∈ declared_ids nodes.
Proof.
  intros Hwf Hcyc.
  destruct (topological_sort_unfold order nodes edges Hwf)
    as (graph & m0 & m & result & Hg & _ & _ & Hinv & Heq).
  rewrite Heq.
  pose proof (cycle_not_full nodes edges Hwf m result Hinv Hcyc) as Hlen.
  rewrite decide_True by done.
  destruct (residual_cycle order nodes edges Hwf graph m result Hg Hinv Hlen)
    as (c & -> & Hc & Hin).
  by exists c.
Qed.

(** A normal return certifies that the flow has no cycle. *)
Lemma sort_ok_acyclic (order : SetOrder) nodes edges result :
  well_formed nodes edges →
  topological_sort order nodes edges = Ok result → ¬ has_cycle edges.
Proof.
  intros Hwf Hok Hcyc.
  destruct (sort_cyclic order nodes edges Hwf Hcyc) as (c & Hc & _). congruence.
Qed.

Lemma declared_ids_length nodes :
  Forall (λ n, is_Some (node_id n)) nodes → length (declared_ids nodes) = length nodes.
Proof.
  induction 1 as [|n nodes [i Hi] _ IH]; [done|].
  unfold declared_ids in *. simpl. rewrite Hi. simpl. f_equal. exact IH.
Qed.

(** *** The queue is first in, first out *)

Lemma foldl_relax_queue ns : ∀ m q, ∃ new, (foldl relax (m, q) ns).2 = q ++ new.
Proof.
  induction ns as [|n ns IH]; intros m q; simpl.
  - exists []. by rewrite app_nil_r.
  - unfold relax at 2. simpl. case_decide.
    + destruct (IH (<[n:=deg m n - 1]> m) (q ++ [n])) as [new ->].
      exists (n :: new). by rewrite <- app_assoc.
    + apply IH.
Qed.

Lemma kahn_loop_prefix graph fuel : ∀ m queue result res,
  kahn_loop fuel graph m queue result = Some res →
  ∃ rest, res = result ++ queue ++ rest.
Proof.
  induction fuel as [|fuel IH]; intros m queue result res; destruct queue as [|c queue];
    simpl; try done.
  - intros [= ->]. exists []. by rewrite app_nil_r.
  - intros [= ->]. exists []. by rewrite app_nil_r.
  - intros Hloop. apply IH in Hloop as [rest ->].
    destruct (foldl_relax_queue (adj graph c) m queue) as [new ->].
    exists (new ++ rest). by rewrite <- !app_assoc.
Qed.

Lemma indeg_nil_zero ids edges v :
  Forall (resolved ids) edges →
  indeg (pairs edges) [] v = 0 ↔ is_source edges v.
Proof.
  intros Hres. unfold indeg, is_source. rewrite Forall_forall in Hres. split.
  - intros Hz. apply Forall_forall. intros e He Ht.
    destruct (Hres e He) as (u & v' & Hs & Ht' & _).
    assert (Hin : (u, v) ∈ filter (λ p, p.2 = v ∧ p.1 ∉ []) (pairs edges)).
    { apply list_elem_of_filter. split; [split; [done|apply not_elem_of_nil]|].
      apply elem_of_pairs. by exists e. }
    destruct (filter _ (pairs edges)); [by apply elem_of_nil in Hin|simpl in Hz; lia].
  - intros Hsrc. rewrite Forall_forall in Hsrc.
    destruct (filter _ (pairs edges)) as [|[a b] l] eqn:Hf; [done|exfalso].
    assert (Hin : (a, b) ∈ filter (λ p, p.2 = v ∧ p.1 ∉ []) (pairs edges))
      by (rewrite Hf; left).
    apply list_elem_of_filter in Hin as [[Hb _] Hin]. simpl in Hb. subst.
    apply elem_of_pairs in Hin as (e & He & _ & Ht). by apply (Hsrc e He).
Qed.

(** The output begins with the source nodes in the iteration order of the
    set of ids, and depends on the iteration order only through the order of
    that set. *)
Lemma sort_sources_first (order : SetOrder) nodes edges result :
  well_formed nodes edges →
  topological_sort order nodes edges = Ok result →
  ∃ rest, result = filter (is_source edges) (order (declared_ids nodes)) ++ rest.
Proof.
  intros Hwf Hok.
  destruct (topological_sort_unfold order nodes edges Hwf)
    as (graph & m0 & m & result' & Hg & Hdeg & Hloop & Hinv & Heq).
  rewrite Heq in Hok. case_decide; [by destruct (_find_cycle _ _)|].
  injection Hok as ->.
  apply kahn_loop_prefix in Hloop as [rest ->]. exists rest. simpl. f_equal.
  apply list_filter_iff. intros v. rewrite Hdeg.
  apply (indeg_nil_zero (declared_ids nodes)). by destruct Hwf as (_ & _ & ?).
Qed.

Lemma sort_order_ext (order order' : SetOrder) nodes edges result :
  order' (declared_ids nodes) = order (declared_ids nodes) →
  topological_sort order nodes edges = Ok result →
  topological_sort order' nodes edges = Ok result.
Proof.
  unfold topological_sort. intros Heq.
  pose proof (collect_node_ids_inv nodes []) as Hc.
  destruct (collect_node_ids nodes []) as [l| |]; [|done|done].
  destruct Hc as (_ & -> & _). simpl. rewrite Heq.
  destruct (add_edges _ _ _ _) as [[g m]| |]; [|done|done].
  destruct (kahn_loop _ _ _ _ _) as [r|]; [|done].
  case_decide; [|done]. by destruct (_find_cycle _ _).
Qed.


End DagFacts.

(** * The claims about the scheduler *)

Section DagClaims.
Import DagUtil Graph Samples.

Lemma line_well_formed edges :
  Forall (λ e, e ∈ [ed "A" "B"; ed "B" "C"; ed "C" "A"; ed "A" "C"]) edges →
  well_formed line_nodes edges.
Proof.
  intros Hall. split; [repeat constructor; by eexists|].
  change (declared_ids line_nodes) with ["A"; "B"; "C"].
  split; [by apply (bool_decide_unpack _)|].
  eapply Forall_impl; [done|]. intros e He.
  set_unfold in He. destruct He as [->|[->|[->|[->|[]]]]];
    do 2 eexists; (split; [reflexivity|]); (split; [reflexivity|]);
    split; set_solver.
Qed.

Lemma line_valid : valid_flow line_nodes line_edges.
Proof.
  assert (Hwf : well_formed line_nodes line_edges).
  { apply line_well_formed. repeat constructor; set_solver. }
  split; [done|].
  by apply (sort_ok_acyclic insertion_order line_nodes line_edges ["A"; "B"; "C"]).
Qed.

Lemma fork_valid : valid_flow line_nodes fork_edges.
Proof.
  assert (Hwf : well_formed line_nodes fork_edges).
  { apply line_well_formed. repeat constructor; set_solver. }
  split; [done|].
  by apply (sort_ok_acyclic insertion_order line_nodes fork_edges ["A"; "C"; "B"]).
Qed.

(** C1. For every valid flow (every node has an id, no id is declared twice,
    every edge endpoint is a declared id, no directed cycle) and whatever the
    iteration order of Python sets, [topological_sort] returns an order that
    is a duplicate-free permutation of the declared node ids, of the length
    of the node list, in which the source of every edge occurs at a smaller
    index than its target. *)
Theorem C1_topological_sort_valid (order : SetOrder) nodes edges :
  valid_flow nodes edges →
  ∃ result, topological_sort order nodes edges = Ok result ∧
    NoDup result ∧ result ≡ₚ declared_ids nodes ∧
    length result = length nodes ∧
    ∀ u v, edge_rel edges u v →
      ∃ i j : nat, result !! i = Some u ∧ result !! j = Some v ∧ (i < j)%nat.
Proof.
  intros Hvalid. destruct (sort_valid order nodes edges Hvalid)
    as (result & Hok & Hnd & Hperm & Hord).
  exists result. split; [done|]. split; [done|]. split; [done|]. split; [|done].
  rewrite Hperm. apply declared_ids_length. by destruct Hvalid as [(? & _) _].
Qed.

Lemma C1_witness :
  ∃ result, topological_sort reverse_order line_nodes line_edges = Ok result ∧
    NoDup result ∧ result ≡ₚ declared_ids line_nodes ∧
    length result = length line_nodes ∧
    ∀ u v, edge_rel line_edges u v →
      ∃ i j : nat, result !! i = Some u ∧ result !! j = Some v ∧ (i < j)%nat.
Proof. apply C1_topological_sort_valid. exact line_valid. Defined.

(** C2. For every flow whose nodes and edges form a directed graph (ids
    present and distinct, edge endpoints declared) that contains a directed
    cycle, [topological_sort] raises [DAGCycleError]; the path it reports
    consists of declared nodes, each consecutive pair of it is an edge of the
    flow, and it ends at the node it starts from. *)
Theorem C2_cycle_detected (order : SetOrder) nodes edges :
  well_formed nodes edges → has_cycle edges →
  ∃ cycle_info,
    topological_sort order nodes edges = Err (DAGCycleError cycle_info) ∧
    directed_cycle edges cycle_info ∧
    ∀ x, x ∈ cycle_info → x ∈ declared_ids nodes.
Proof. apply sort_cyclic. Qed.

Lemma edge_rel_ed edges s t : ed s t ∈ edges → edge_rel edges s t.
Proof. intros Hin. by exists (ed s t). Qed.

Lemma ring_has_cycle : has_cycle ring_edges.
Proof.
  exists ["A"; "B"; "C"; "A"]. split; [by exists "A", ["B"; "C"]|].
  simpl. repeat split; apply edge_rel_ed; set_solver.
Qed.

Lemma C2_witness :
  ∃ cycle_info,
    topological_sort insertion_order line_nodes ring_edges
      = Err (DAGCycleError cycle_info) ∧
    directed_cycle ring_edges cycle_info ∧
    ∀ x, x ∈ cycle_info → x ∈ declared_ids line_nodes.
Proof.
  apply C2_cycle_detected; [|exact ring_has_cycle].
  apply line_well_formed. repeat constructor; set_solver.
Defined.

(** The path reported for the ring A -> B -> C -> A. *)
Example ring_cycle_path :
  topological_sort insertion_order line_nodes ring_edges
    = Err (DAGCycleError ["A"; "B"; "C"; "A"]).
Proof. reflexivity. Qed.

(** C8, as stated, fails.  With A the only source and the edge to C listed
    before the edge to B, C is enqueued before B although B is declared
    first, whatever the iteration order of the set; and two nodes without
    edges come out in the iteration order of the set, which need not be the
    declaration order. *)
Lemma C8_counterexample :
  topological_sort insertion_order line_nodes fork_edges = Ok ["A"; "C"; "B"] ∧
  topological_sort reverse_order line_nodes fork_edges = Ok ["A"; "C"; "B"] ∧
  SpecScheduler.topological_order line_nodes fork_edges = ["A"; "B"; "C"] ∧
  topological_sort reverse_order pair_nodes [] = Ok ["B"; "A"] ∧
  SpecScheduler.topological_order pair_nodes [] = ["A"; "B"].
Proof. repeat split; reflexivity. Qed.

(** C8, as the code has it.  The queue is seeded with the nodes that have no
    incoming edge in the iteration order of the set [node_ids]: for a valid
    flow the returned order begins with exactly these nodes in that order.
    The returned order is a function of the node list, the edge list and the
    order in which the set of ids is iterated: two runs that iterate it in the
    same order return the identical list. *)
Theorem C8_order_determined (order : SetOrder) nodes edges :
  valid_flow nodes edges →
  ∃ result rest,
    topological_sort order nodes edges = Ok result ∧
    result = filter (is_source edges) (order (declared_ids nodes)) ++ rest ∧
    ∀ order' : SetOrder,
      order' (declared_ids nodes) = order (declared_ids nodes) →
      topological_sort order' nodes edges = Ok result.
Proof.
  intros Hvalid. destruct (sort_valid order nodes edges Hvalid) as (result & Hok & _).
  destruct (sort_sources_first order nodes edges result (proj1 Hvalid) Hok) as [rest Hrest].
  exists result, rest. split; [done|]. split; [done|].
  intros order' Heq. by apply (sort_order_ext order).
Qed.

Lemma C8_witness :
  ∃ result rest,
    topological_sort insertion_order line_nodes fork_edges = Ok result ∧
    result = filter (is_source fork_edges) (insertion_order (declared_ids line_nodes)) ++ rest ∧
    ∀ order' : SetOrder,
      order' (declared_ids line_nodes) = insertion_order (declared_ids line_nodes) →
      topological_sort order' line_nodes fork_edges = Ok result.
Proof. apply C8_order_determined. exact fork_valid. Defined.

End DagClaims.

(** * Facts about dictionaries *)

Section DictFacts.
Context {V : Type}.
Implicit Types d o : list (string * V).

Lemma dict_get_set k k' (v : V) d :
  dict_get k (dict_set k' v d) = if decide (k' = k) then Some v else dict_get k d.
Proof.
  induction d as [|[a b] d IH]; simpl.
  - by destruct (decide (k' = k)).
  - destruct (decide (a = k')) as [->|Hne]; simpl.
    + by destruct (decide (k' = k)).
    + destruct (decide (a = k)) as [->|Hne'].
      * by rewrite decide_False by done.
      * done.
Qed.

Lemma dict_get_None k d : dict_get k d = None ↔ k ∉ d.*1.
Proof.
  induction d as [|[a b] d IH]; simpl.
  - split; [intros _; apply not_elem_of_nil|done].
  - rewrite not_elem_of_cons. destruct (decide (a = k)) as [->|Hne].
    + split; [done|]. by intros [? _].
    + rewrite IH. naive_solver.
Qed.

Lemma dict_get_Some_elem k v d : dict_get k d = Some v → (k, v) ∈ d.
Proof.
  induction d as [|[a b] d IH]; simpl; [done|].
  destruct (decide (a = k)) as [->|Hne].
  - intros [= ->]. left.
  - intros H. right. auto.
Qed.

Lemma dict_get_elem k v d : NoDup d.*1 → (k, v) ∈ d → dict_get k d = Some v.
Proof.
  induction d as [|[a b] d IH]; simpl; [by intros _ ?%elem_of_nil|].
  intros Hnd Hin. apply NoDup_cons in Hnd as [Ha Hnd].
  apply elem_of_cons in Hin as [[= -> ->]|Hin].
  - by rewrite decide_True.
  - destruct (decide (a = k)) as [->|Hne]; [|auto].
    exfalso. apply Ha. apply list_elem_of_fmap. by exists (k, v).
Qed.

Lemma dict_set_keys_absent k (v : V) d :
  dict_get k d = None → dict_set k v d = d ++ [(k, v)].
Proof.
  induction d as [|[a b] d IH]; simpl; [done|].
  destruct (decide (a = k)); [done|]. intros H. by rewrite IH.
Qed.

Lemma dict_set_keys_present k (v : V) d :
  is_Some (dict_get k d) → (dict_set k v d).*1 = d.*1.
Proof.
  induction d as [|[a b] d IH]; simpl; [by intros [? ?]|].
  destruct (decide (a = k)) as [->|]; [done|]. intros H.
  rewrite !fmap_cons. f_equal. by apply IH.
Qed.

Lemma dict_set_nodup k (v : V) d : NoDup d.*1 → NoDup (dict_set k v d).*1.
Proof.
  intros Hnd. destruct (dict_get k d) as [x|] eqn:Hk.
  - by rewrite dict_set_keys_present.
  - rewrite dict_set_keys_absent by done. rewrite fmap_app. simpl.
    apply NoDup_app. split; [done|]. split; [|apply NoDup_singleton].
    intros y Hy ->%list_elem_of_singleton. by apply dict_get_None in Hk.
Qed.

Lemma dict_update_nodup d o : NoDup d.*1 → NoDup (dict_update d o).*1.
Proof.
  unfold dict_update. revert d. induction o as [|[a b] o IH]; intros d Hnd; simpl; [done|].
  apply IH. by apply dict_set_nodup.
Qed.

(** After [d.update(o)] the keys of [o] carry the values of [o]. *)
Lemma dict_get_update k d o :
  NoDup o.*1 →
  dict_get k (dict_update d o) =
    match dict_get k o with Some v => Some v | None => dict_get k d end.
Proof.
  unfold dict_update. revert d. induction o as [|[a b] o IH]; intros d Hnd; simpl; [done|].
  apply NoDup_cons in Hnd as [Ha Hnd]. rewrite IH by done.
  destruct (decide (a = k)) as [->|Hne].
  - assert (dict_get k o = None) as -> by (by apply dict_get_None).
    rewrite dict_get_set. by rewrite decide_True.
  - destruct (dict_get k o); [done|]. rewrite dict_get_set. by rewrite decide_False.
Qed.

Lemma dict_pop_split k d w :
  NoDup d.*1 → dict_get k d = Some w →
  ∃ l1 l2, d = l1 ++ (k, w) :: l2 ∧ dict_pop k d = l1 ++ l2.
Proof.
  induction d as [|[a b] d IH]; simpl; [done|].
  intros Hnd. apply NoDup_cons in Hnd as [Ha Hnd].
  destruct (decide (a = k)) as [->|Hne].
  - intros [= ->]. by exists [], d.
  - intros Hg. destruct (IH Hnd Hg) as (l1 & l2 & -> & ->).
    by exists ((a, b) :: l1), l2.
Qed.

Lemma dict_pop_middle k (w : V) pre post :
  k ∉ pre.*1 → dict_pop k (pre ++ (k, w) :: post) = pre ++ post.
Proof.
  induction pre as [|[a b] pre IH]; simpl; intros Hk.
  - by rewrite decide_True.
  - apply not_elem_of_cons in Hk as [Hne Hk]. rewrite decide_False by done.
    by rewrite IH.
Qed.

Lemma dict_pop_get k k' d :
  NoDup d.*1 →
  dict_get k (dict_pop k' d) = if decide (k' = k) then None else dict_get k d.
Proof.
  induction d as [|[a b] d IH]; simpl; intros Hnd.
  - by destruct (decide (k' = k)).
  - apply NoDup_cons in Hnd as [Ha Hnd].
    destruct (decide (a = k')) as [->|Hne]; simpl.
    + destruct (decide (k' = k)) as [->|Hne'].
      * by apply dict_get_None.
      * done.
    + rewrite IH by done. destruct (decide (a = k)) as [->|Hne'].
      * by rewrite decide_False.
      * done.
Qed.

Lemma dict_pop_sublist k d : dict_pop k d `sublist_of` d.
Proof.
  induction d as [|[a b] d IH]; simpl; [done|].
  destruct (decide (a = k)); [by apply sublist_cons|by apply sublist_skip].
Qed.

Lemma dict_pop_nodup k d : NoDup d.*1 → NoDup (dict_pop k d).*1.
Proof.
  intros Hnd. eapply sublist_NoDup; [done|]. apply fmap_sublist, dict_pop_sublist.
Qed.

Lemma dict_pop_length k d : (length (dict_pop k d) ≤ length d)%nat.
Proof. apply sublist_length, dict_pop_sublist. Qed.

Lemma dict_set_length k (v : V) d :
  length (dict_set k v d) =
    match dict_get k d with Some _ => length d | None => S (length d) end.
Proof.
  destruct (dict_get k d) eqn:Hk.
  - transitivity (length (dict_set k v d).*1); [by rewrite length_fmap|].
    rewrite dict_set_keys_present by eauto. by rewrite length_fmap.
  - rewrite dict_set_keys_absent by done. rewrite length_app. simpl. lia.
Qed.

End DictFacts.

(** * Properties of the flow executor *)

Section ExecutorFacts.
Import DagUtil Graph FlowExecutor.

Lemma collect_inputs_fold ex nid ctx k srcs : ∀ acc,
  dict_get k
    (foldl (λ input_data input_node_id,
              match get_node_output ctx input_node_id with
              | VNone => input_data
              | output =>
                  dict_set (_get_output_handle_name ex input_node_id nid) output input_data
              end) acc srcs)
  = match last (filter (binds ex nid ctx k) srcs) with
    | Some src => Some (get_node_output ctx src)
    | None => dict_get k acc
    end.
Proof.
  induction srcs as [|s srcs IH]; intros acc; [done|].
  cbn [foldl]. rewrite IH, filter_cons. clear IH.
  destruct (decide (binds ex nid ctx k s)) as [[Hout Hk]|Hnb].
  - rewrite last_cons. destruct (last (filter _ srcs)); [done|].
    destruct (get_node_output ctx s) eqn:Hs; try done;
      rewrite dict_get_set, decide_True by done; done.
  - destruct (last (filter _ srcs)); [done|].
    destruct (get_node_output ctx s) eqn:Hs; try done;
      (rewrite dict_get_set; rewrite decide_False; [done|];
       intros Hk; apply Hnb; split; [by rewrite Hs|done]).
Qed.

(** The input map of a node, key by key. *)
Lemma prepare_node_input_get ex nid ctx k :
  NoDup (global_variables ctx).*1 →
  dict_get k (_prepare_node_input ex nid ctx) =
    match dict_get k (global_variables ctx) with
    | Some g => Some g
    | None =>
        get_node_output ctx <$>
          last (filter (binds ex nid ctx k) (default [] (inputs (edge_map ex) !! nid)))
    end.
Proof.
  intros Hnd. unfold _prepare_node_input. rewrite dict_get_update by done.
  destruct (dict_get k (global_variables ctx)); [done|].
  unfold collect_inputs. rewrite collect_inputs_fold.
  by destruct (last _).
Qed.

(** *** The executor built by the constructor *)

Definition outs (em : EdgeMap) (u : string) : list string := default [] (outputs em !! u).

Lemma edge_map_init_outs nodes : ∀ em u,
  outs em u = [] →
  outs (foldl (λ em node,
           match node_id node with
           | Some i => mkEdgeMap (<[i := []]> (inputs em)) (<[i := []]> (outputs em))
           | None => em
           end) em nodes) u = [].
Proof.
  induction nodes as [|n nodes IH]; intros em u Hem; [done|].
  cbn [foldl]. apply IH. destruct (node_id n) as [i|]; [|done].
  unfold outs in *. simpl. destruct (decide (i = u)) as [->|Hne].
  - by rewrite lookup_insert_eq.
  - by rewrite lookup_insert_ne.
Qed.

Lemma edge_map_edges_outs edges : ∀ em u,
  outs (foldl (λ em edge,
           match edge_source edge, edge_target edge with
           | Some s, Some t =>
               mkEdgeMap (<[t := default [] (inputs em !! t) ++ [s]]> (inputs em))
                         (<[s := default [] (outputs em !! s) ++ [t]]> (outputs em))
           | _, _ => em
           end) em edges) u
  = outs em u ++ succs u (pairs edges).
Proof.
  induction edges as [|e edges IH]; intros em u.
  - unfold succs, pairs. simpl. by rewrite app_nil_r.
  - cbn [foldl]. rewrite IH. clear IH. unfold pairs. simpl. unfold edge_pair at 2.
    destruct (edge_source e) as [s|], (edge_target e) as [t|]; simpl; try done.
    unfold succs. rewrite filter_cons. simpl. unfold outs. simpl.
    destruct (decide (s = u)) as [->|Hne].
    + rewrite lookup_insert_eq. simpl. by rewrite <- app_assoc.
    + by rewrite lookup_insert_ne.
Qed.

Lemma build_edge_map_outs nodes edges u :
  outs (_build_edge_map nodes edges) u = succs u (pairs edges).
Proof.
  unfold _build_edge_map. rewrite edge_map_edges_outs, edge_map_init_outs; [done|].
  unfold outs. simpl. by rewrite lookup_empty.
Qed.

(** What the constructor establishes. *)
Lemma init_inv order fj uctx ex :
  __init__ order fj uctx = Ok ex →
  nodes ex ≠ [] ∧
  topological_sort order (nodes ex) (edges ex) = Ok (execution_order ex) ∧
  edge_map ex = _build_edge_map (nodes ex) (edges ex) ∧
  node_map ex = build_node_map (nodes ex).
Proof.
  unfold __init__. destruct (_validate_flow_json fj); [|done|done].
  set (ns := default [] (flow_nodes fj)). set (es := default [] (flow_edges fj)).
  destruct (validate_dag_structure order ns es) as [[why|]|[]|] eqn:Hv; [done| |done].
  destruct (topological_sort order ns es) as [r| |] eqn:Hs; [|done|done].
  intros [= <-]. simpl. split; [|done].
  intros Hnil. unfold validate_dag_structure in Hv. by rewrite Hnil in Hv.
Qed.

(** The last node of the execution order has no outgoing edge. *)
Lemma last_is_terminal order nodes edges result z :
  topological_sort order nodes edges = Ok result →
  last result = Some z → succs z (pairs edges) = [].
Proof.
  intros Hok Hlast.
  pose proof (sort_ok_well_formed order nodes edges result Hok) as Hwf.
  pose proof (sort_ok_acyclic order nodes edges result Hwf Hok) as Hacyc.
  destruct (sort_valid order nodes edges (conj Hwf Hacyc)) as (r & Hr & Hnd & _ & Hord).
  rewrite Hok in Hr. injection Hr as <-.
  destruct (succs z (pairs edges)) as [|v l] eqn:Hsucc; [done|exfalso].
  assert (Hzv : edge_rel edges z v).
  { apply elem_of_pairs, elem_of_succs. rewrite Hsucc. left. }
  destruct (Hord z v Hzv) as (i & j & Hi & Hj & Hij).
  rewrite last_lookup in Hlast.
  assert (i = pred (length result)) by (eapply NoDup_lookup; eauto).
  apply lookup_lt_Some in Hj. lia.
Qed.

Lemma results_fold (f : string → value) l : ∀ acc,
  NoDup (acc.*1 ++ l) →
  foldl (λ results nid, dict_set nid (f nid) results) acc l
    = acc ++ ((λ n, (n, f n)) <$> l).
Proof.
  induction l as [|n l IH]; intros acc Hnd; simpl; [by rewrite app_nil_r|].
  assert (Hn : dict_get n acc = None).
  { apply dict_get_None. apply NoDup_app in Hnd as (_ & Hd & _).
    intros Hin. apply (Hd n Hin). left. }
  rewrite dict_set_keys_absent by done. rewrite IH.
  - by rewrite <- app_assoc.
  - rewrite fmap_app. simpl. by rewrite <- app_assoc.
Qed.

Lemma built_has_terminal order fj uctx ex :
  __init__ order fj uctx = Ok ex → NoDup (execution_order ex) ∧ terminal_nodes ex ≠ [].
Proof.
  intros Hinit. destruct (init_inv order fj uctx ex Hinit) as (Hne & Hsort & Hem & _).
  pose proof (sort_ok_well_formed _ _ _ _ Hsort) as Hwf.
  pose proof (sort_ok_acyclic _ _ _ _ Hwf Hsort) as Hacyc.
  destruct (sort_valid order _ _ (conj Hwf Hacyc)) as (r & Hr & Hnd & Hperm & _).
  rewrite Hsort in Hr. injection Hr as <-. split; [done|].
  destruct (last (execution_order ex)) as [z|] eqn:Hlast.
  - intros Hnil.
    assert (Hz : z ∈ terminal_nodes ex); [|rewrite Hnil in Hz; by apply elem_of_nil in Hz].
    apply list_elem_of_filter. split.
    + rewrite Hem. fold (outs (_build_edge_map (nodes ex) (edges ex)) z).
      rewrite build_edge_map_outs.
      by apply (last_is_terminal order (nodes ex) (edges ex) (execution_order ex)).
    + rewrite last_lookup in Hlast. by eapply list_elem_of_lookup_2.
  - apply last_None in Hlast. apply Permutation_length in Hperm.
    rewrite Hlast in Hperm. simpl in Hperm.
    rewrite declared_ids_length in Hperm by (by destruct Hwf as (? & _)).
    destruct (nodes ex); [done|simpl in Hperm; lia].
Qed.

End ExecutorFacts.

(** * The claims about the executor *)

Section ExecutorClaims.
Import DagUtil Graph FlowExecutor Samples FlowSamples.

Lemma ex_ab_built : __init__ insertion_order flow_ab [] = Ok ex_ab.
Proof. reflexivity. Qed.

Lemma ex_two_displays_built :
  __init__ insertion_order flow_two_displays [] = Ok ex_two_displays.
Proof. reflexivity. Qed.

(** C5, as stated, fails.  In the flow A -> B the edge binds the key ["A"]
    of the input map of B to the output of A, a table; a global variable
    called [A] replaces it. *)
Lemma C5_counterexample :
  __init__ insertion_order flow_ab [] = Ok ex_ab ∧
  collect_inputs ex_ab "B" ctx_clash = [("A", VTable people)] ∧
  get_node_output ctx_clash "A" = VTable people ∧
  dict_get "A" (_prepare_node_input ex_ab "B" ctx_clash) = Some (VStr "query").
Proof. repeat split; reflexivity. Qed.

(** C5, as the code has it.  [global_variables] is merged into the input map
    with [dict.update]: a key of [global_variables] carries the global value,
    also when an incoming edge bound it; every other key carries the recorded
    output of the last upstream node, in the order of the incoming edges, that
    has an output (not [None]) and whose handle name is that key, and is
    absent when there is no such node. *)
Theorem C5_prepare_node_input (ex : FlowExecutor.t) (nid : string)
    (ctx : FlowExecutionContext) (k : string) :
  NoDup (global_variables ctx).*1 →
  dict_get k (_prepare_node_input ex nid ctx) =
    match dict_get k (global_variables ctx) with
    | Some g => Some g
    | None =>
        get_node_output ctx <$>
          last (filter (binds ex nid ctx k) (default [] (inputs (edge_map ex) !! nid)))
    end.
Proof. apply prepare_node_input_get. Qed.

Lemma C5_witness :
  dict_get "A" (_prepare_node_input ex_ab "B" ctx_clash) =
    match dict_get "A" (global_variables ctx_clash) with
    | Some g => Some g
    | None =>
        get_node_output ctx_clash <$>
          last (filter (binds ex_ab "B" ctx_clash "A")
                  (default [] (inputs (edge_map ex_ab) !! "B")))
    end.
Proof.
  apply C5_prepare_node_input. simpl. apply NoDup_singleton.
Defined.

(** What [_determine_final_result] returns for an executor built by the
    constructor: the output of the node without outgoing edges when there is
    one, and a map over those nodes when there are several. *)
Lemma final_result_of_built (order : SetOrder) fj uctx (ex : FlowExecutor.t)
    (ctx : FlowExecutionContext) :
  __init__ order fj uctx = Ok ex →
  ∃ nid rest, terminal_nodes ex = nid :: rest ∧
    _determine_final_result ex ctx =
      match rest with
      | [] => get_node_output ctx nid
      | _ :: _ => VDict ((λ n, (n, get_node_output ctx n)) <$> nid :: rest)
      end.
Proof.
  intros Hinit. destruct (built_has_terminal order fj uctx ex Hinit) as [Hnd Hne].
  unfold _determine_final_result. fold (terminal_nodes ex).
  assert (Hndt : NoDup (terminal_nodes ex)) by (by apply NoDup_filter).
  destruct (terminal_nodes ex) as [|nid [|n2 rest]] eqn:Ht; [done| |].
  - by exists nid, [].
  - exists nid, (n2 :: rest). split; [done|]. f_equal.
    by rewrite (results_fold (get_node_output ctx) (nid :: n2 :: rest) []).
Qed.

(** C6.  The code does not follow the precedence of the claim, nor the
    docstring of [DisplayResultsNode], by which the executor takes that node
    for the final output.  [_determine_final_result] looks for
    [display_results] nodes only when no node is without outgoing edges,
    which never happens for an executor the constructor built: such an
    executor has a terminal node, and the result is the output of that node
    or, when there are several, a map over all of them, [display_results]
    nodes or not.  In the flow A -> B, A -> C, where B and C are
    [display_results] nodes showing the table of A, the result is the map
    over B and C and not the table, whatever the other node classes do, and
    the endpoint answers 500 because the map of tables is not JSON. *)
Theorem C6_display_rule_unreachable :
  (∀ (order : SetOrder) fj uctx (ctx : FlowExecutionContext),
     match __init__ order fj uctx with
     | Ok ex =>
         ∃ nid rest, terminal_nodes ex = nid :: rest ∧
           _determine_final_result ex ctx =
             match rest with
             | [] => get_node_output ctx nid
             | _ :: _ => VDict ((λ n, (n, get_node_output ctx n)) <$> nid :: rest)
             end
     | _ => True
     end) ∧
  __init__ insertion_order flow_two_displays [] = Ok ex_two_displays ∧
  (∀ rest, execute (runtime_with rest) ex_two_displays [] "exec_1"
             = Ok (VDict [("B", VTable people); ("C", VTable people)])) ∧
  (ExecuteRouter.run_published_api insertion_order sample_runtime
     (WorkerManager.initial ManagerSamples.stock_settings)
     (Some (Some RouterSamples.api_two_displays)) RouterSamples.plain_get None 7).1
    = ExecuteRouter.mkResponse 500 (ExecuteRouter.Detail "Internal server error").
Proof.
  split; [|split; [reflexivity|split; [intros rest; reflexivity|reflexivity]]].
  intros order fj uctx ctx.
  destruct (__init__ order fj uctx) as [ex| |] eqn:Hinit; [|done|done].
  by apply (final_result_of_built order fj uctx).
Qed.

End ExecutorClaims.

(** * Properties of the sink nodes *)

Section SinkClaims.
Import Sinks FlowSamples.

Lemma get_input_dataframe_first input :
  match _get_input_dataframe input with
  | Ok df => first_table input = Some df
  | Err e => first_table input = None ∧ e = ValueError "No DataFrame found in input data"
  | OutOfFuel => False
  end.
Proof.
  induction input as [|[k v] input IH]; [done|].
  destruct v; simpl; solve [done | apply IH].
Qed.

(** What the method [invoke] of a sink class does. *)
Lemma invoke_cases (k : sink) (node_config : dict) (fx : Effects) (input : dict) :
  match first_table input with
  | Some df =>
      if accepts k node_config fx df
      then invoke k node_config fx input = Ok df
      else ∃ e, invoke k node_config fx input = Err e
  | None =>
      invoke k node_config fx input = Err (ValueError "No DataFrame found in input data")
  end.
Proof.
  pose proof (get_input_dataframe_first input) as Hfirst.
  destruct (_get_input_dataframe input) as [df|e|] eqn:Hget; [| |done].
  - rewrite Hfirst.
    destruct k; simpl;
      [unfold TableWriterNode_invoke | unfold FileWriterNode_invoke
      | unfold APIRequestNode_invoke | unfold DisplayResultsNode_invoke
      | unfold SendNotificationNode_invoke]; rewrite Hget.
    + destruct (truthy _); simpl; [|by eexists].
      unfold external. destruct (to_sql_ok fx _ _); [done|by eexists].
    + destruct (truthy _); simpl; [|by eexists].
      destruct (cfg_get_or _ _ _); simpl; try by eexists.
      case_bool_decide; simpl.
      * rewrite decide_True by done. unfold external.
        destruct (write_file_ok fx _ _); [done|by eexists].
      * rewrite decide_False by done. by eexists.
    + destruct (cfg_get_or node_config "method" _); try by eexists.
      destruct (truthy _); simpl; [|by eexists].
      destruct (cfg_get_or node_config "data_format" _); simpl; try by eexists.
      case_bool_decide; simpl;
        [rewrite decide_True by done|rewrite decide_False by done; by eexists].
      destruct (cfg_get_or node_config "headers" _); simpl; try by eexists.
      unfold external. destruct (http_client_ok fx _); simpl; [|by eexists].
      case_bool_decide; simpl;
        [rewrite decide_True by done|rewrite decide_False by done; by eexists].
      destruct (http_ok fx _ _); [done|by eexists].
    + destruct (debug_enabled fx), (sample_rows_ok _ _); simpl; by eexists.
    + cbv zeta. unfold _send_email_notification, _send_webhook_notification, external.
      destruct (cfg_get_or node_config "notification_type" _); try by eexists.
      repeat case_decide; try by eexists.
      * destruct (truthy _); simpl; [|by eexists].
        destruct (email_ok fx _ _); [done|by eexists].
      * destruct (truthy _); simpl; [|by eexists].
        destruct (webhook_ok fx _ _); [done|by eexists].
  - destruct Hfirst as [-> ->].
    destruct k; simpl;
      [unfold TableWriterNode_invoke | unfold FileWriterNode_invoke
      | unfold APIRequestNode_invoke | unfold DisplayResultsNode_invoke
      | unfold SendNotificationNode_invoke]; by rewrite Hget.
Qed.

(** A sink node of a flow is constructed before it is invoked.  Whenever it
    returns, it returns the first table of its input; a [table_writer] node
    never does, because it cannot be constructed. *)
Lemma run_node_cases (k : sink) (node_config : dict) (fx : Effects) (input : dict) :
  match run_node k node_config fx input with
  | Ok df => first_table input = Some df ∧ k ≠ TableWriter
  | Err _ => True
  | OutOfFuel => False
  end.
Proof.
  pose proof (invoke_cases k node_config fx input) as Hcases. unfold run_node.
  destruct k; cbn [__init__]; try done;
    (destruct (first_table input) as [df|];
     [destruct (accepts _ node_config fx df);
      [rewrite Hcases; done|destruct Hcases as [e ->]; done]
     |rewrite Hcases; done]).
Qed.

(** With debug logging on, a [display_results] node whose [max_rows] is
    [True] raises for a table with rows, since [head] refuses the Boolean,
    and returns an empty table, since [min] then yields its length. *)
Example display_results_boolean_max_rows :
  run_node DisplayResults [("max_rows", VBool true)] verbose [("A", VTable people)]
    = Err TypeError ∧
  run_node DisplayResults [("max_rows", VBool true)] verbose
    [("A", VTable (mkDataFrame ["id"] ["int64"] []))]
    = Ok (mkDataFrame ["id"] ["int64"] []).
Proof. split; reflexivity. Qed.



End SinkClaims.

(** * Properties of the worker manager *)

Section ManagerFacts.
Import WorkerManager.

Lemma max_workers_default m : max_workers m = 50.
Proof. reflexivity. Qed.

(** *** [min] *)

Lemma py_min_fold {A} (key : A → Z) l : ∀ x,
  ∃ pre post b,
    foldl (λ best y, if key y <? key best then y else best) x l = b ∧
    x :: l = pre ++ b :: post ∧
    Forall (λ y, key b < key y) pre ∧ Forall (λ y, key b ≤ key y) post.
Proof.
  induction l as [|a l IH]; intros x.
  - exists [], [], x. by repeat split.
  - cbn [foldl]. destruct (Z.ltb_spec (key a) (key x)) as [Hlt|Hge].
    + destruct (IH a) as (pre & post & b & Hb & Heq & Hpre & Hpost).
      exists (x :: pre), post, b. split; [done|]. split; [by rewrite Heq|].
      split; [|done]. constructor; [|done].
      assert (key b ≤ key a); [|lia].
      destruct pre as [|p pre]; simpl in Heq.
      * injection Heq as -> _. lia.
      * injection Heq as <- _. apply Forall_cons in Hpre as [Hp _]. simpl in Hp. lia.
    + destruct (IH x) as (pre & post & b & Hb & Heq & Hpre & Hpost).
      destruct pre as [|p pre]; simpl in Heq.
      * injection Heq as <- <-.
        exists [], (a :: l), x. split; [done|]. split; [done|].
        split; [constructor|]. constructor; [lia|done].
      * injection Heq as <- ->. apply Forall_cons in Hpre as [Hp Hpre]. simpl in Hp.
        exists (x :: a :: pre), post, b. split; [done|]. split; [done|].
        split; [|done]. constructor; [done|]. constructor; [lia|done].
Qed.

(** [min] returns the first element among those of least key. *)
Lemma py_min_spec {A} (key : A → Z) l :
  match py_min key l with
  | Some b => ∃ pre post, l = pre ++ b :: post ∧
                Forall (λ y, key b < key y) pre ∧ Forall (λ y, key b ≤ key y) post
  | None => l = []
  end.
Proof.
  destruct l as [|x l]; [done|]. simpl.
  destruct (py_min_fold key l x) as (pre & post & b & <- & Heq & Hpre & Hpost).
  by exists pre, post.
Qed.

(** *** The invariant of the cache *)

Record cache_inv (m : WorkerManager.t) : Prop := {
  ci_keys : NoDup (active_workers m).*1;
  ci_size : Z.of_nat (length (active_workers m)) ≤ max_workers m;
  ci_time : Forall (λ kv : string * WorkerInfo, total_execution_time kv.2 = 0%Q)
              (active_workers m);
}.

Lemma Forall_dict_set {V} (P : string * V → Prop) k v (d : list (string * V)) :
  Forall P d → P (k, v) → Forall P (dict_set k v d).
Proof.
  intros Hd Hkv. induction d as [|[a b] d IH]; simpl; [by constructor|].
  inversion Hd; subst. destruct (decide (a = k)); constructor; auto.
Qed.

Lemma Forall_dict_pop {V} (P : string * V → Prop) k (d : list (string * V)) :
  Forall P d → Forall P (dict_pop k d).
Proof.
  intros Hd. eapply Forall_forall. intros x Hx. rewrite Forall_forall in Hd.
  apply Hd. eapply elem_of_sublist; [done|]. apply dict_pop_sublist.
Qed.

Lemma cleanup_fold_sublist {V} (ks : list string) : ∀ d : list (string * V),
  foldl (λ ws api_id, dict_pop api_id ws) d ks `sublist_of` d.
Proof.
  induction ks as [|k ks IH]; intros d; simpl; [done|].
  etrans; [apply IH|apply dict_pop_sublist].
Qed.

Lemma sublist_cache_inv m ws :
  cache_inv m → ws `sublist_of` active_workers m → cache_inv (with_workers m ws).
Proof.
  intros [Hk Hs Ht] Hsub. constructor; simpl.
  - eapply sublist_NoDup; [done|]. by apply fmap_sublist.
  - apply sublist_length in Hsub. unfold max_workers in *. simpl. lia.
  - rewrite Forall_forall in Ht. apply Forall_forall. intros x Hx.
    apply Ht. by eapply elem_of_sublist.
Qed.

(** What [_ensure_capacity] does. *)
Lemma ensure_capacity_spec m :
  NoDup (active_workers m).*1 →
  if decide (Z.of_nat (length (active_workers m)) < max_workers m)
  then _ensure_capacity m = Ok m
  else ∃ pre victim w post,
         active_workers m = pre ++ (victim, w) :: post ∧
         _ensure_capacity m = Ok (with_workers m (pre ++ post)) ∧
         Forall (λ kv : string * WorkerInfo, last_used w < last_used kv.2) pre ∧
         Forall (λ kv : string * WorkerInfo, last_used w ≤ last_used kv.2) post.
Proof.
  intros Hk. unfold _ensure_capacity. fold (max_workers m).
  case_decide as Hlt.
  - destruct (Z.geb_spec (Z.of_nat (length (active_workers m))) (max_workers m)); [lia|done].
  - destruct (Z.geb_spec (Z.of_nat (length (active_workers m))) (max_workers m)); [|lia].
    pose proof (py_min_spec (λ kv : string * WorkerInfo, last_used kv.2) (active_workers m))
      as Hmin.
    destruct (py_min _ (active_workers m)) as [[victim w]|].
    + destruct Hmin as (pre & post & Heq & Hpre & Hpost).
      exists pre, victim, w, post. split; [done|]. split; [|done].
      do 2 f_equal. rewrite Heq. apply dict_pop_middle.
      rewrite Heq, fmap_app, fmap_cons in Hk. apply NoDup_app in Hk as (_ & Hd & _).
      intros Hin. apply (Hd _ Hin). left.
    + exfalso. rewrite Hmin in *. simpl in *. rewrite max_workers_default in *. lia.
Qed.

Lemma ensure_capacity_keys m :
  NoDup (active_workers m).*1 →
  ∃ m1, _ensure_capacity m = Ok m1 ∧
        settings m1 = settings m ∧ constructed m1 = constructed m ∧
        active_workers m1 `sublist_of` active_workers m.
Proof.
  intros Hk. pose proof (ensure_capacity_spec m Hk) as Hspec.
  case_decide as Hlt.
  - exists m. split; [done|]. split; [done|]. split; [done|]. reflexivity.
  - destruct Hspec as (pre & victim & w & post & Heq & -> & _ & _).
    eexists. split; [done|]. split; [done|]. split; [done|]. simpl.
    rewrite Heq. apply sublist_app; [done|]. by apply sublist_cons.
Qed.

Lemma ensure_capacity_inv m :
  cache_inv m →
  ∃ m1, _ensure_capacity m = Ok m1 ∧ cache_inv m1 ∧
        settings m1 = settings m ∧ constructed m1 = constructed m ∧
        active_workers m1 `sublist_of` active_workers m ∧
        Z.of_nat (length (active_workers m1)) < max_workers m.
Proof.
  intros Hinv. pose proof (ensure_capacity_spec m (ci_keys m Hinv)) as Hspec.
  case_decide as Hlt.
  - exists m. split; [done|]. split; [done|]. split; [done|]. split; [done|].
    split; [reflexivity|done].
  - destruct Hspec as (pre & victim & w & post & Heq & -> & _ & _).
    eexists. split; [done|].
    assert (Hsub : pre ++ post `sublist_of` active_workers m).
    { rewrite Heq. apply sublist_app; [done|]. by apply sublist_cons. }
    split; [by apply sublist_cache_inv|]. split; [done|]. split; [done|].
    split; [done|]. simpl.
    pose proof (ci_size m Hinv) as Hs. rewrite Heq in Hs.
    rewrite !length_app in *. simpl in *. lia.
Qed.

Lemma create_new_worker_inv order m p u now :
  match _create_new_worker order m p u now with
  | Ok (w, m2) =>
      ∃ ex, w = new_worker_info {| ref := constructed m; obj := ex |} now ∧
            m2 = {| active_workers := active_workers m; settings := settings m;
                    constructed := S (constructed m) |}
  | Err _ => True
  | OutOfFuel => False
  end.
Proof.
  unfold _create_new_worker. destruct (flow_definition p) as [fj|]; [|done].
  destruct (flow_json_falsy (Some fj)); [done|].
  destruct (FlowExecutor.__init__ order fj u) as [ex| |] eqn:Hinit; [by exists ex|done|].
  unfold FlowExecutor.__init__ in Hinit.
  destruct (FlowExecutor._validate_flow_json fj) eqn:Hv; [|done|].
  - unfold FlowExecutor.validate_dag_structure in Hinit.
    pose proof (topological_sort_total order (default [] (flow_nodes fj))
                  (default [] (flow_edges fj))) as Htot.
    destruct (default [] (flow_nodes fj)) as [|n ns] eqn:Hn; [done|].
    destruct (mapM node_id (n :: ns)); [|done].
    case_decide; [done|]. destruct (FlowExecutor.check_edges _ _); [done|].
    destruct (DagUtil.topological_sort order (n :: ns) _); done.
  - unfold FlowExecutor._validate_flow_json in Hv.
    by destruct (flow_nodes fj), (flow_edges fj).
Qed.

Lemma acquire_inv order m p u now :
  cache_inv m → cache_inv (get_or_create_worker order m p u now).2.
Proof.
  intros Hinv. unfold get_or_create_worker.
  destruct (dict_get (api_id p) (active_workers m)) as [w|] eqn:Hget; simpl.
  - destruct Hinv as [Hk Hs Ht]. constructor; simpl.
    + by apply dict_set_nodup.
    + rewrite dict_set_length, Hget. done.
    + apply Forall_dict_set; [done|]. simpl.
      rewrite Forall_forall in Ht. apply dict_get_Some_elem in Hget.
      apply Ht in Hget. simpl in Hget. by rewrite Hget.
  - destruct (ensure_capacity_inv m Hinv) as (m1 & -> & Hinv1 & Hs1 & Hc1 & Hsub & Hlen).
    pose proof (create_new_worker_inv order m1 p u now) as Hcreate.
    destruct (_create_new_worker order m1 p u now) as [[w m2]| |]; [|done|done].
    destruct Hcreate as (ex & -> & ->). simpl.
    destruct Hinv1 as [Hk Hs Ht]. constructor; simpl.
    + by apply dict_set_nodup.
    + assert (Hnone : dict_get (api_id p) (active_workers m1) = None).
      { apply dict_get_None. apply dict_get_None in Hget. intros Hin. apply Hget.
        eapply elem_of_sublist; [done|]. by apply fmap_sublist. }
      rewrite dict_set_length, Hnone. rewrite max_workers_default in *.
      change (max_workers _) with 50. lia.
    + by apply Forall_dict_set.
Qed.

Lemma step_inv order m o : cache_inv m → cache_inv (step order m o).
Proof.
  intros Hinv. destruct o as [p u now|now|a|]; simpl.
  - by apply acquire_inv.
  - apply sublist_cache_inv; [done|]. apply cleanup_fold_sublist.
  - unfold force_remove_worker. destruct (dict_get a (active_workers m)); [|done].
    simpl. apply sublist_cache_inv; [done|]. apply dict_pop_sublist.
  - apply sublist_cache_inv; [done|]. apply sublist_nil_l.
Qed.

Lemma run_inv order ops : ∀ m, cache_inv m → cache_inv (run order m ops).
Proof.
  induction ops as [|o ops IH]; intros m Hinv; [done|].
  simpl. apply IH. by apply step_inv.
Qed.

Lemma initial_inv s : cache_inv (initial s).
Proof. constructor; simpl; [constructor|done|constructor]. Qed.

Lemma reachable_inv order m : reachable order m → cache_inv m.
Proof. intros (s & ops & ->). apply run_inv, initial_inv. Qed.

(** An acquisition that misses: what is evicted and what is inserted. *)
Lemma acquire_miss order m p u now e m' :
  cache_inv m →
  dict_get (api_id p) (active_workers m) = None →
  get_or_create_worker order m p u now = (Ok e, m') →
  ∃ kept, active_workers m' = kept ++ [(api_id p, new_worker_info e now)] ∧
    if decide (Z.of_nat (length (active_workers m)) < max_workers m)
    then kept = active_workers m
    else ∃ pre victim w post,
           active_workers m = pre ++ (victim, w) :: post ∧ kept = pre ++ post ∧
           Forall (λ kv : string * WorkerInfo, last_used w < last_used kv.2) pre ∧
           Forall (λ kv : string * WorkerInfo, last_used w ≤ last_used kv.2) post.
Proof.
  intros Hinv Hget. unfold get_or_create_worker. rewrite Hget.
  pose proof (ensure_capacity_spec m (ci_keys m Hinv)) as Hspec.
  destruct (ensure_capacity_inv m Hinv) as (m1 & Hens & _ & _ & _ & Hsub & _).
  rewrite Hens.
  pose proof (create_new_worker_inv order m1 p u now) as Hcreate.
  destruct (_create_new_worker order m1 p u now) as [[w m2]| |]; [|done|done].
  destruct Hcreate as (ex & -> & ->). simpl. intros [= <- <-]. simpl.
  assert (Hnone : dict_get (api_id p) (active_workers m1) = None).
  { apply dict_get_None. apply dict_get_None in Hget. intros Hin. apply Hget.
    eapply elem_of_sublist; [done|]. by apply fmap_sublist. }
  exists (active_workers m1). split; [by rewrite dict_set_keys_absent|].
  case_decide.
  - rewrite Hspec in Hens. by injection Hens as <-.
  - destruct Hspec as (pre & victim & w & post & Heq & Hens' & Hpre & Hpost).
    rewrite Hens' in Hens. injection Hens as <-. simpl. by exists pre, victim, w, post.
Qed.

(** *** Counting cache hits *)

Lemma hits_invariant order ops api : ∀ m count,
  cache_inv m →
  (∀ w, dict_get api (active_workers m) = Some w → execution_count w = count) →
  ∀ w, dict_get api (active_workers (run order m ops)) = Some w →
       execution_count w = hits_since_created order m ops api count.
Proof.
  induction ops as [|o ops IH]; intros m count Hinv Hcount; [done|].
  cbn [run foldl hits_since_created]. apply IH; [by apply step_inv|].
  clear IH. intros w.
  destruct o as [p u now|now|a|]; simpl.
  - unfold get_or_create_worker.
    destruct (dict_get (api_id p) (active_workers m)) as [w0|] eqn:Hget.
    + simpl. rewrite dict_get_set. destruct (decide (api_id p = api)) as [<-|Hne].
      * rewrite Hget. intros [= <-]. simpl. by rewrite (Hcount w0).
      * apply Hcount.
    + destruct (ensure_capacity_inv m Hinv) as (m1 & -> & Hinv1 & _ & _ & Hsub & _).
      assert (Hsame : ∀ w', dict_get api (active_workers m1) = Some w' →
                            dict_get api (active_workers m) = Some w').
      { intros w' Hw'. apply dict_get_elem; [by apply (ci_keys m)|].
        eapply elem_of_sublist; [|done]. by apply dict_get_Some_elem. }
      pose proof (create_new_worker_inv order m1 p u now) as Hcreate.
      destruct (_create_new_worker order m1 p u now) as [[w1 m2]| |]; [|simpl|done].
      * destruct Hcreate as (ex & -> & ->). simpl. rewrite dict_get_set.
        destruct (decide (api_id p = api)) as [<-|Hne].
        -- rewrite Hget. by intros [= <-].
        -- intros Hw. by apply Hcount, Hsame.
      * destruct (decide (api_id p = api)) as [<-|Hne].
        -- intros Hw. apply Hsame in Hw. congruence.
        -- intros Hw. by apply Hcount, Hsame.
  - intros Hw. apply Hcount. apply dict_get_elem; [by apply (ci_keys m)|].
    eapply elem_of_sublist; [by apply dict_get_Some_elem|]. apply cleanup_fold_sublist.
  - unfold force_remove_worker. destruct (dict_get a (active_workers m)); [|apply Hcount].
    simpl. intros Hw. apply Hcount. apply dict_get_elem; [by apply (ci_keys m)|].
    eapply elem_of_sublist; [by apply dict_get_Some_elem|]. apply dict_pop_sublist.
  - done.
Qed.

Lemma sum_Q_zero (l : list Q) : Forall (λ q, q = 0%Q) l → sum_Q l = 0%Q.
Proof.
  unfold sum_Q. induction 1 as [|q l -> _ IH]; [done|]. simpl. exact IH.
Qed.

End ManagerFacts.

(** * The claims about the worker manager *)

Section ManagerClaims.
Import WorkerManager Samples FlowSamples ManagerSamples.

(** After every operation the cache holds at most fifty entries.  When
    [get_or_create_worker] inserts an entry while the cache holds fifty,
    exactly one entry is evicted and the new one is appended: the evicted
    entry has the least [last_used], and every entry that precedes it in the
    cache has a strictly greater [last_used].  Below fifty nothing is
    evicted. *)
Lemma capacity_and_eviction (order : SetOrder) (m : WorkerManager.t)
    (p : PublishedApi) (u : dict) (now : Z) :
  reachable order m →
  Z.of_nat (length (active_workers m)) ≤ 50 ∧
  ∀ e m',
    dict_get (api_id p) (active_workers m) = None →
    get_or_create_worker order m p u now = (Ok e, m') →
    ∃ kept, active_workers m' = kept ++ [(api_id p, new_worker_info e now)] ∧
      if decide (Z.of_nat (length (active_workers m)) < 50)
      then kept = active_workers m
      else ∃ pre victim w post,
             active_workers m = pre ++ (victim, w) :: post ∧ kept = pre ++ post ∧
             Forall (λ kv : string * WorkerInfo, last_used w < last_used kv.2) pre ∧
             Forall (λ kv : string * WorkerInfo, last_used w ≤ last_used kv.2) post.
Proof.
  intros Hreach. pose proof (reachable_inv order m Hreach) as Hinv.
  split; [apply (ci_size m Hinv)|].
  intros e m' Hget Hacq. by apply (acquire_miss order m p u now).
Qed.

(** A state with a full cache is reached. *)
Example full_cache_reachable :
  reachable insertion_order tie_state ∧ length (active_workers tie_state) = 50%nat.
Proof. split; [by exists stock_settings, tie_trace|by vm_compute]. Qed.

(** *** Ties on [last_used]

    The cache is kept in the order of insertion, which is the order of
    [created_at] as long as the clock read by [datetime.utcnow()] does not
    step back.  [min] returns the first of the entries of least
    [last_used], so among them the one created first is evicted. *)

Definition clock_of (o : op) : option Z :=
  match o with
  | Acquire _ _ now => Some now
  | Cleanup current_time => Some current_time
  | ForceRemove _ | ClearAll => None
  end.

(** The clock readings of the operations do not decrease, starting at [t]. *)
Fixpoint clock_from (t : Z) (ops : list op) : Prop :=
  match ops with
  | [] => True
  | o :: ops' =>
      match clock_of o with
      | Some now => t ≤ now ∧ clock_from now ops'
      | None => clock_from t ops'
      end
  end.

(** The last clock reading. *)
Fixpoint clock_end (t : Z) (ops : list op) : Z :=
  match ops with
  | [] => t
  | o :: ops' => clock_end (default t (clock_of o)) ops'
  end.

Definition by_creation (t : Z) (ws : list (string * WorkerInfo)) : Prop :=
  StronglySorted (λ a b : string * WorkerInfo, created_at a.2 ≤ created_at b.2) ws ∧
  Forall (λ kv : string * WorkerInfo, created_at kv.2 ≤ t) ws.

Lemma by_creation_sublist t ws ws' :
  ws' `sublist_of` ws → by_creation t ws → by_creation t ws'.
Proof.
  intros Hsub [Hs Hb]. split.
  - clear Hb. induction Hsub as [|x l1 l2 Hsub IH|x l1 l2 Hsub IH]; [done| |].
    + apply StronglySorted_inv in Hs as [Hs Hx]. constructor; [by apply IH|].
      rewrite Forall_forall in Hx. apply Forall_forall. intros y Hy. apply Hx.
      by eapply elem_of_sublist.
    + apply StronglySorted_inv in Hs as [Hs _]. by apply IH.
  - rewrite Forall_forall in Hb. apply Forall_forall. intros y Hy. apply Hb.
    by eapply elem_of_sublist.
Qed.

Lemma by_creation_later t t' ws : t ≤ t' → by_creation t ws → by_creation t' ws.
Proof.
  intros Hle [Hs Hb]. split; [done|]. eapply Forall_impl; [done|]. simpl. lia.
Qed.

Lemma by_creation_used t k w now ws :
  dict_get k ws = Some w → by_creation t ws →
  by_creation t (dict_set k (update_usage w now 0%Q) ws).
Proof.
  intros Hget [Hs Hb].
  assert (Hc : (λ kv : string * WorkerInfo, created_at kv.2) <$>
                 dict_set k (update_usage w now 0%Q) ws
               = (λ kv : string * WorkerInfo, created_at kv.2) <$> ws).
  { clear Hs Hb. induction ws as [|[a x] ws IH]; [done|]. simpl in *.
    case_decide; simpl; [by injection Hget as ->|]. f_equal. by apply IH. }
  assert (Hsorted : ∀ l : list (string * WorkerInfo),
            StronglySorted (λ a b : string * WorkerInfo, created_at a.2 ≤ created_at b.2) l
            ↔ StronglySorted Z.le ((λ kv : string * WorkerInfo, created_at kv.2) <$> l)).
  { induction l as [|x l IH]; [split; constructor|].
    rewrite fmap_cons. split; intros H; apply StronglySorted_inv in H as [H1 H2];
      (constructor; [by apply IH|]); [by rewrite Forall_fmap|by rewrite Forall_fmap in H2]. }
  split.
  - apply Hsorted. rewrite Hc. by apply Hsorted.
  - assert (Hfa : ∀ l : list (string * WorkerInfo),
              Forall (λ kv : string * WorkerInfo, created_at kv.2 ≤ t) l
              ↔ Forall (λ c, c ≤ t) ((λ kv : string * WorkerInfo, created_at kv.2) <$> l)).
    { intros l. by rewrite Forall_fmap. }
    apply Hfa. rewrite Hc. by apply Hfa.
Qed.

Lemma by_creation_snoc t k w ws :
  by_creation t ws → created_at w = t → by_creation t (ws ++ [(k, w)]).
Proof.
  intros [Hs Hb] Hw. split.
  - clear -Hs Hb Hw. induction ws as [|x ws IH]; simpl.
    + repeat constructor.
    + apply StronglySorted_inv in Hs as [Hs Hx]. apply Forall_cons in Hb as [Hxt Hb].
      constructor; [by apply IH|]. apply Forall_app. split; [done|].
      constructor; [|constructor]. simpl. lia.
  - apply Forall_app. split; [done|]. constructor; [|constructor]. simpl. lia.
Qed.

Lemma step_by_creation order m o t :
  cache_inv m → by_creation t (active_workers m) → clock_from t [o] →
  by_creation (default t (clock_of o)) (active_workers (step order m o)).
Proof.
  intros Hinv Hby Hclock. destruct o as [p u now|now|a|]; simpl in *.
  - destruct Hclock as [Hle _]. apply (by_creation_later t now) in Hby; [|done].
    unfold get_or_create_worker.
    destruct (dict_get (api_id p) (active_workers m)) as [w|] eqn:Hget; simpl.
    + by apply by_creation_used.
    + destruct (ensure_capacity_inv m Hinv) as (m1 & -> & _ & _ & _ & Hsub & _).
      pose proof (create_new_worker_inv order m1 p u now) as Hcreate.
      destruct (_create_new_worker order m1 p u now) as [[w m2]| |]; [|simpl|done].
      * destruct Hcreate as (ex & -> & ->). simpl.
        assert (Hnone : dict_get (api_id p) (active_workers m1) = None).
        { apply dict_get_None. apply dict_get_None in Hget. intros Hin. apply Hget.
          eapply elem_of_sublist; [done|]. by apply fmap_sublist. }
        rewrite dict_set_keys_absent by done.
        apply by_creation_snoc; [|done]. by apply (by_creation_sublist now _ _ Hsub).
      * by apply (by_creation_sublist now _ _ Hsub).
  - destruct Hclock as [Hle _]. apply (by_creation_later t now); [done|].
    eapply by_creation_sublist; [apply cleanup_fold_sublist|done].
  - unfold force_remove_worker. destruct (dict_get a (active_workers m)); [|done].
    simpl. eapply by_creation_sublist; [apply dict_pop_sublist|done].
  - split; constructor.
Qed.

Lemma run_by_creation order ops : ∀ m t,
  cache_inv m → by_creation t (active_workers m) → clock_from t ops →
  by_creation (clock_end t ops) (active_workers (run order m ops)).
Proof.
  induction ops as [|o ops IH]; intros m t Hinv Hby Hclock; [done|].
  cbn [run foldl clock_end]. apply IH.
  - by apply step_inv.
  - apply step_by_creation; [done|done|].
    simpl in *. destruct (clock_of o); [split; [apply Hclock|done]|done].
  - simpl in Hclock. destruct (clock_of o); [apply Hclock|done].
Qed.

(** When the clock does not step back, an insert at capacity evicts an
    entry of least [last_used] and, among the entries of that [last_used],
    one of least [created_at]. *)
Lemma eviction_ties_by_created_at (order : SetOrder) (s : Settings) (ops : list op)
    (t0 : Z) (p : PublishedApi) (u : dict) (now : Z) e m' :
  let m := run order (initial s) ops in
  clock_from t0 ops → clock_end t0 ops ≤ now →
  dict_get (api_id p) (active_workers m) = None →
  ¬ Z.of_nat (length (active_workers m)) < 50 →
  get_or_create_worker order m p u now = (Ok e, m') →
  ∃ pre victim w post,
    active_workers m = pre ++ (victim, w) :: post ∧
    active_workers m' = pre ++ post ++ [(api_id p, new_worker_info e now)] ∧
    Forall (λ kv : string * WorkerInfo,
              last_used w ≤ last_used kv.2 ∧
              (last_used kv.2 = last_used w → created_at w ≤ created_at kv.2))
           (active_workers m).
Proof.
  intros m Hclock Hnow Hget Hfull Hacq.
  assert (Hinv : cache_inv m) by apply run_inv, initial_inv.
  destruct (acquire_miss order m p u now e m' Hinv Hget Hacq) as (kept & Heq & Hcase).
  change (max_workers m) with 50 in Hcase. rewrite decide_False in Hcase by done.
  destruct Hcase as (pre & victim & w & post & Hm & -> & Hpre & Hpost).
  exists pre, victim, w, post. split; [done|]. split; [by rewrite Heq, <- app_assoc|].
  assert (Hby : by_creation (clock_end t0 ops) (active_workers m)).
  { apply run_by_creation; [apply initial_inv|split; constructor|done]. }
  destruct Hby as [Hs _]. rewrite Hm in Hs |- *.
  apply Forall_app. split.
  - eapply Forall_impl; [exact Hpre|]. intros kv Hlt. simpl in *. split; lia.
  - apply StronglySorted_app_1_r in Hs. apply StronglySorted_inv in Hs as [_ Hafter].
    constructor; [simpl; split; lia|].
    rewrite Forall_forall in Hpost, Hafter. apply Forall_forall. intros kv Hkv.
    split; [by apply Hpost|]. intros _. by apply Hafter.
Qed.

(** C4.  The code does not keep the cache within the configured capacity.
    [_ensure_capacity] reads [getattr(self.settings, 'MAX_ACTIVE_APIS', 50)],
    but the attribute of [Settings] is [max_active_apis]
    ([MAX_ACTIVE_APIS] is its environment variable), so the value read is
    50 whatever is configured, and 50 is the only bound on the cache.  With
    [max_active_apis] set to 2, three workers are cached after three
    acquisitions and none is evicted. *)
Theorem C4_configured_capacity_ignored :
  (∀ s : Settings, getattr s "MAX_ACTIVE_APIS" 50 = 50) ∧
  (∀ (order : SetOrder) (s : Settings) (ops : list op),
     Z.of_nat (length (active_workers (run order (initial s) ops))) ≤ 50) ∧
  let s := {| max_active_apis := 2; api_inactive_ttl_hours := 2;
              worker_cleanup_interval_minutes := 30;
              worker_stats_interval_minutes := 60 |} in
  let m := run insertion_order (initial s)
             [Acquire (api 1) [] 1; Acquire (api 2) [] 2; Acquire (api 3) [] 3] in
  max_active_apis (settings m) = 2 ∧
  (active_workers m).*1 = ["1"; "2"; "3"] ∧
  _ensure_capacity m = Ok m.
Proof.
  split; [done|]. split; [|repeat split; reflexivity].
  intros order s ops. apply (ci_size _ (run_inv order ops (initial s) (initial_inv s))).
Qed.

(** C10.  In every state the manager reaches, every cached entry has
    [total_execution_time] 0: [update_usage] is only called with its default
    argument, and no operation records an elapsed time.  So
    [get_manager_stats] reports a total execution time of 0 and every entry
    reports a total and an average of 0.  [execution_count] is the number
    of times the entry was found in the cache since the call that created
    it: the call that builds the executor is not counted. *)
Theorem C10_execution_time_zero (order : SetOrder) (s : Settings) (ops : list op)
    (api : string) (w : WorkerInfo) (now : Z) :
  dict_get api (active_workers (run order (initial s) ops)) = Some w →
  total_execution_time w = 0%Q ∧
  ws_total_execution_time (get_stats w) = 0%Q ∧
  (ws_avg_execution_time (get_stats w) == 0)%Q ∧
  ms_total_execution_time (get_manager_stats (run order (initial s) ops) now) = 0%Q ∧
  execution_count w = hits_since_created order (initial s) ops api 0.
Proof.
  intros Hget. pose proof (run_inv order ops (initial s) (initial_inv s)) as Hinv.
  assert (Hw : total_execution_time w = 0%Q).
  { pose proof (ci_time _ Hinv) as Ht. rewrite Forall_forall in Ht.
    by apply (Ht (api, w)), dict_get_Some_elem. }
  split; [done|]. split; [done|]. split; [|split].
  - simpl. rewrite Hw. unfold Qdiv. by rewrite Qmult_0_l.
  - simpl. apply sum_Q_zero. rewrite Forall_fmap, Forall_fmap.
    eapply Forall_impl; [apply (ci_time _ Hinv)|]. done.
  - apply (hits_invariant order ops api (initial s) 0 (initial_inv s)); [done|done].
Qed.

Lemma C10_witness :
  total_execution_time
    (update_usage (new_worker_info {| ref := 0; obj := ex_comment |} 10) 6 0%Q) = 0%Q ∧
  ws_total_execution_time (get_stats
    (update_usage (new_worker_info {| ref := 0; obj := ex_comment |} 10) 6 0%Q)) = 0%Q ∧
  (ws_avg_execution_time (get_stats
    (update_usage (new_worker_info {| ref := 0; obj := ex_comment |} 10) 6 0%Q)) == 0)%Q ∧
  ms_total_execution_time
    (get_manager_stats (run insertion_order (initial stock_settings) tie_trace) 60) = 0%Q ∧
  execution_count
    (update_usage (new_worker_info {| ref := 0; obj := ex_comment |} 10) 6 0%Q)
    = hits_since_created insertion_order (initial stock_settings) tie_trace "1" 0.
Proof.
  apply (C10_execution_time_zero insertion_order stock_settings tie_trace "1"). by vm_compute.
Defined.

End ManagerClaims.

(** * Concurrent callers of [get_or_create_worker] *)

Section ConcurrentFacts.
Import WorkerManager Concurrent.
Context (order : SetOrder) (p : PublishedApi) (uctx : nat → dict).

#[local] Abbreviation step := (Concurrent.step order p uctx).
#[local] Abbreviation builds := (Concurrent.builds order p).

(** The constructor does not look at the user context. *)
Lemma init_any_context fj u u' ex :
  FlowExecutor.__init__ order fj u = Ok ex →
  ∃ ex', FlowExecutor.__init__ order fj u' = Ok ex'.
Proof.
  unfold FlowExecutor.__init__. destruct (FlowExecutor._validate_flow_json fj); [|done|done].
  destruct (FlowExecutor.validate_dag_structure _ _ _) as [[?|]|[]|]; [done| |done].
  destruct (DagUtil.topological_sort _ _ _); [|done|done]. intros _. by eexists.
Qed.

Lemma create_builds m u now :
  builds →
  ∃ ex, _create_new_worker order m p u now =
    Ok (new_worker_info {| ref := constructed m; obj := ex |} now,
        {| active_workers := active_workers m; settings := settings m;
           constructed := S (constructed m) |}).
Proof.
  intros (fj & ex & Hfj & Hfalsy & Hinit). unfold _create_new_worker.
  rewrite Hfj, Hfalsy. destruct (init_any_context fj [] u ex Hinit) as [ex' ->].
  by exists ex'.
Qed.

Lemma create_ok_builds m u now w m2 :
  _create_new_worker order m p u now = Ok (w, m2) → builds.
Proof.
  unfold _create_new_worker. destruct (flow_definition p) as [fj|] eqn:Hfj; [|done].
  destruct (flow_json_falsy (Some fj)) eqn:Hfalsy; [done|].
  destruct (FlowExecutor.__init__ order fj u) as [ex| |] eqn:Hinit; [|done|done].
  intros _. destruct (init_any_context fj u [] ex Hinit) as [ex' Hex'].
  by exists fj, ex'.
Qed.

Definition holder (c : pc) : Prop :=
  match c with
  | Lookup | Ensure | Create | Insert _ => True
  | _ => False
  end.

Definition building (c : pc) : Prop :=
  match c with
  | Ensure | Create | Insert _ => True
  | _ => False
  end.

(** The three phases of a run that starts with [K] executors constructed and
    no entry for the API: nothing built yet; the executor built and not yet
    stored; the entry stored. *)
Definition phase (K : nat) (s : state) : Prop :=
  (dict_get (api_id p) (active_workers (manager s)) = None ∧
   constructed (manager s) = K ∧
   (∀ i w, callers s i ≠ Insert w) ∧
   (∀ i e, callers s i ≠ Done (Ok e)) ∧
   (builds → ∀ i r, callers s i ≠ Done r))
  ∨
  (dict_get (api_id p) (active_workers (manager s)) = None ∧
   constructed (manager s) = S K ∧ builds ∧
   (∃ i w, callers s i = Insert w ∧ ref (executor w) = K) ∧
   (∀ i r, callers s i ≠ Done r))
  ∨
  (builds ∧ constructed (manager s) = S K ∧
   ∃ w, dict_get (api_id p) (active_workers (manager s)) = Some w ∧
        ref (executor w) = K ∧
        (∀ i, ¬ building (callers s i)) ∧
        (∀ i r, callers s i = Done r → r = Ok (executor w))).

Record conc_inv (K n : nat) (s : state) : Prop := {
  cv_keys : NoDup (active_workers (manager s)).*1;
  cv_lock : ∀ i, holder (callers s i) → worker_lock s = Some i;
  cv_callers : ∀ i, callers s i = Absent ↔ ¬ (i < n)%nat;
  cv_phase : phase K s;
}.

Lemma set_caller_eq s i c : set_caller s i c i = c.
Proof. unfold set_caller. by rewrite decide_True. Qed.

Lemma set_caller_ne s i j c : j ≠ i → set_caller s i c j = callers s j.
Proof. intros Hne. unfold set_caller. by rewrite decide_False. Qed.

Lemma holder_unique K n s i j :
  conc_inv K n s → holder (callers s i) → holder (callers s j) → i = j.
Proof.
  intros Hinv Hi Hj. apply (cv_lock K n s Hinv) in Hi, Hj. congruence.
Qed.

Lemma init_conc_inv m n :
  cache_inv m → dict_get (api_id p) (active_workers m) = None →
  conc_inv (constructed m) n (init m n).
Proof.
  intros Hm Hnone. constructor; unfold init; cbn [manager worker_lock callers].
  - apply (ci_keys m Hm).
  - intros i. by case_decide.
  - intros i. case_decide; naive_solver.
  - unfold phase. cbn [manager worker_lock callers].
    left. split; [done|]. split; [done|]. split; [intros i w; by case_decide|].
    split; [intros i e; by case_decide|]. intros _ i r. by case_decide.
Qed.

Ltac caller_cases j i :=
  destruct (decide (j = i)) as [->|?];
  [rewrite ?set_caller_eq in * | rewrite ?set_caller_ne in * by done].

Lemma step_conc_inv K n s s' : conc_inv K n s → step s s' → conc_inv K n s'.
Proof.
  intros Hinv Hstep.
  pose proof (cv_keys K n s Hinv) as Hkeys.
  pose proof (cv_lock K n s Hinv) as Hlock.
  pose proof (cv_callers K n s Hinv) as Hcall.
  pose proof (cv_phase K n s Hinv) as Hphase.
  assert (Huniq : ∀ i j, holder (callers s i) → holder (callers s j) → i = j)
    by (intros i j; apply (holder_unique K n s); done).
  destruct Hstep as [s i Hi Hfree | s i w0 now Hi Hget | s i Hi Hget | s i m1 Hi Hens
                    | s i e Hi Hens | s i now w m2 Hi Hcr | s i now e Hi Hcr | s i w Hi];
    (constructor; cbn [manager worker_lock callers];
     [ (* keys *) | (* lock *) | (* callers *) | (* phase *) ]).
  (* taking the lock *)
  - done.
  - intros j. fold (set_caller s i Lookup j). caller_cases j i; [done|].
    intros Hj. apply Hlock in Hj. congruence.
  - intros j. fold (set_caller s i Lookup j). caller_cases j i; [|apply Hcall].
    rewrite <- Hcall, Hi. done.
  - unfold phase in *. cbn [manager worker_lock callers].
    destruct Hphase as [(H1 & H2 & H3 & H4 & H5)|[(H1 & H2 & H3 & (i0 & w & H4 & H4') & H5)
                       |(H1 & H2 & w & H3 & H4 & H5 & H6)]].
    + left. split; [done|]. split; [done|].
      split; [intros j w; caller_cases j i; [done|apply H3]|].
      split; [intros j e; caller_cases j i; [done|apply H4]|].
      intros Hb j r. caller_cases j i; [done|by apply H5].
    + right. left. split; [done|]. split; [done|]. split; [done|]. split.
      * exists i0, w. split; [|done]. rewrite set_caller_ne; [done|]. intros ->. congruence.
      * intros j r. caller_cases j i; [done|apply H5].
    + right. right. split; [done|]. split; [done|]. exists w. split; [done|].
      split; [done|]. split.
      * intros j. caller_cases j i; [by intros []|apply H5].
      * intros j r. caller_cases j i; [done|apply H6].
  (* the entry is found *)
  - by apply dict_set_nodup.
  - intros j. fold (set_caller s i (Done (Ok (executor (update_usage w0 now 0%Q)))) j).
    caller_cases j i; [by intros []|].
    intros Hj. assert (j = i); [|done]. apply Huniq; [done|by rewrite Hi].
  - intros j. fold (set_caller s i (Done (Ok (executor (update_usage w0 now 0%Q)))) j).
    caller_cases j i; [|apply Hcall]. rewrite <- Hcall, Hi. done.
  - unfold phase in *. cbn [manager worker_lock callers active_workers constructed with_workers].
    destruct Hphase as [(H1 & _)|[(H1 & _)|(H1 & H2 & w & H3 & H4 & H5 & H6)]];
      [congruence|congruence|].
    assert (w = w0) as -> by congruence.
    right. right. split; [done|]. split; [done|].
    exists (update_usage w0 now 0%Q). rewrite dict_get_set, decide_True by done.
    split; [done|]. split; [done|]. split.
    + intros j. caller_cases j i; [by intros []|apply H5].
    + intros j r. caller_cases j i; [by intros [= <-]|apply H6].
  (* the entry is missing *)
  - done.
  - intros j. fold (set_caller s i Ensure j). caller_cases j i.
    + intros _. apply Hlock. by rewrite Hi.
    + apply Hlock.
  - intros j. fold (set_caller s i Ensure j). caller_cases j i; [|apply Hcall].
    rewrite <- Hcall, Hi. done.
  - unfold phase in *. cbn [manager worker_lock callers].
    destruct Hphase as [(H1 & H2 & H3 & H4 & H5)|[(H1 & H2 & H3 & (i0 & w & H4 & H4') & H5)
                       |(H1 & H2 & w & H3 & _)]]; [| |congruence].
    + left. split; [done|]. split; [done|].
      split; [intros j w; caller_cases j i; [done|apply H3]|].
      split; [intros j e; caller_cases j i; [done|apply H4]|].
      intros Hb j r. caller_cases j i; [done|by apply H5].
    + assert (i = i0) as -> by (apply Huniq; [by rewrite Hi|by rewrite H4]). congruence.
  (* room is made *)
  - destruct (ensure_capacity_keys (manager s) Hkeys) as (m1' & Hens' & _ & _ & Hsub).
    assert (m1' = m1) as -> by congruence.
    eapply sublist_NoDup; [done|]. by apply fmap_sublist.
  - intros j. fold (set_caller s i Create j). caller_cases j i.
    + intros _. apply Hlock. by rewrite Hi.
    + apply Hlock.
  - intros j. fold (set_caller s i Create j). caller_cases j i; [|apply Hcall].
    rewrite <- Hcall, Hi. done.
  - destruct (ensure_capacity_keys (manager s) Hkeys) as (m1' & Hens' & _ & Hc & Hsub).
    assert (m1' = m1) as -> by congruence.
    unfold phase in *. cbn [manager worker_lock callers].
    destruct Hphase as [(H1 & H2 & H3 & H4 & H5)|[(H1 & H2 & H3 & (i0 & w & H4 & H4') & H5)
                       |(H1 & H2 & w & H3 & H4 & H5 & H6)]].
    + left. split.
      { apply dict_get_None. apply dict_get_None in H1. intros Hin. apply H1.
        eapply elem_of_sublist; [done|]. by apply fmap_sublist. }
      split; [congruence|].
      split; [intros j w; caller_cases j i; [done|apply H3]|].
      split; [intros j e; caller_cases j i; [done|apply H4]|].
      intros Hb j r. caller_cases j i; [done|by apply H5].
    + assert (i = i0) as -> by (apply Huniq; [by rewrite Hi|by rewrite H4]). congruence.
    + exfalso. apply (H5 i). by rewrite Hi.
  (* making room raises: it does not *)
  - destruct (ensure_capacity_keys (manager s) Hkeys) as (m1' & Hens' & _). congruence.
  - destruct (ensure_capacity_keys (manager s) Hkeys) as (m1' & Hens' & _). congruence.
  - destruct (ensure_capacity_keys (manager s) Hkeys) as (m1' & Hens' & _). congruence.
  - destruct (ensure_capacity_keys (manager s) Hkeys) as (m1' & Hens' & _). congruence.
  (* the executor is built *)
  - pose proof (create_new_worker_inv order (manager s) p (uctx i) now) as Hinvc.
    rewrite Hcr in Hinvc. destruct Hinvc as (ex & -> & ->). done.
  - intros j. fold (set_caller s i (Insert w) j). caller_cases j i.
    + intros _. apply Hlock. by rewrite Hi.
    + apply Hlock.
  - intros j. fold (set_caller s i (Insert w) j). caller_cases j i; [|apply Hcall].
    rewrite <- Hcall, Hi. done.
  - pose proof (create_ok_builds _ _ _ _ _ Hcr) as Hb.
    pose proof (create_new_worker_inv order (manager s) p (uctx i) now) as Hinvc.
    rewrite Hcr in Hinvc. destruct Hinvc as (ex & -> & ->).
    unfold phase in *. cbn [manager worker_lock callers active_workers constructed].
    destruct Hphase as [(H1 & H2 & H3 & H4 & H5)|[(H1 & H2 & H3 & (i0 & w & H4 & H4') & H5)
                       |(H1 & H2 & w & H3 & H4 & H5 & H6)]].
    + right. left. split; [done|]. split; [by rewrite H2|]. split; [done|]. split.
      * eexists i, _. rewrite set_caller_eq. split; [done|]. simpl. done.
      * intros j r. caller_cases j i; [done|by apply H5].
    + assert (i = i0) as -> by (apply Huniq; [by rewrite Hi|by rewrite H4]). congruence.
    + exfalso. apply (H5 i). by rewrite Hi.
  (* the construction raises *)
  - done.
  - intros j. fold (set_caller s i (Done (Err e)) j). caller_cases j i; [by intros []|].
    intros Hj. assert (j = i); [|done]. apply Huniq; [done|by rewrite Hi].
  - intros j. fold (set_caller s i (Done (Err e)) j). caller_cases j i; [|apply Hcall].
    rewrite <- Hcall, Hi. done.
  - assert (Hnb : ¬ builds).
    { intros Hb. destruct (create_builds (manager s) (uctx i) now Hb) as [ex Hex]. congruence. }
    unfold phase in *. cbn [manager worker_lock callers].
    destruct Hphase as [(H1 & H2 & H3 & H4 & H5)|[(_ & _ & Hb & _)|(Hb & _)]]; [|done|done].
    left. split; [done|]. split; [done|].
    split; [intros j w; caller_cases j i; [done|apply H3]|].
    split; [intros j e'; caller_cases j i; [done|apply H4]|].
    done.
  (* the entry is stored *)
  - by apply dict_set_nodup.
  - intros j. fold (set_caller s i (Done (Ok (executor w))) j).
    caller_cases j i; [by intros []|].
    intros Hj. assert (j = i); [|done]. apply Huniq; [done|by rewrite Hi].
  - intros j. fold (set_caller s i (Done (Ok (executor w))) j).
    caller_cases j i; [|apply Hcall]. rewrite <- Hcall, Hi. done.
  - unfold phase in *. cbn [manager worker_lock callers active_workers constructed with_workers].
    destruct Hphase as [(H1 & H2 & H3 & H4 & H5)|[(H1 & H2 & H3 & (i0 & w1 & H4 & H4') & H5)
                       |(H1 & H2 & w1 & H3 & H4 & H5 & H6)]].
    + by destruct (H3 i w).
    + assert (i = i0) as -> by (apply Huniq; [by rewrite Hi|by rewrite H4]).
      assert (w1 = w) as -> by congruence.
      right. right. split; [done|]. split; [done|]. exists w.
      rewrite dict_get_set, decide_True by done. split; [done|]. split; [done|]. split.
      * intros j. caller_cases j i0; [by intros []|]. intros Hj.
        assert (j = i0); [|done]. apply Huniq; [|by rewrite Hi].
        by destruct (callers s j).
      * intros j r. caller_cases j i0; [by intros [= <-]|]. intros Hj. by destruct (H5 j r).
    + exfalso. apply (H5 i). by rewrite Hi.
Qed.

Lemma steps_conc_inv K n s s' : conc_inv K n s → rtc step s s' → conc_inv K n s'.
Proof. intros Hinv Hsteps. induction Hsteps; eauto using step_conc_inv. Qed.

Lemma no_fuel_step s s' :
  (∀ j, callers s j ≠ Done OutOfFuel) → step s s' → ∀ j, callers s' j ≠ Done OutOfFuel.
Proof.
  intros Hs Hstep j. destruct Hstep; cbn [callers]; unfold set_caller; case_decide;
    solve [done | apply Hs].
Qed.

Lemma no_fuel_steps s s' :
  rtc step s s' → (∀ j, callers s j ≠ Done OutOfFuel) → ∀ j, callers s' j ≠ Done OutOfFuel.
Proof. induction 1; eauto using no_fuel_step. Qed.

(** One caller running alone from [Start] to [Done] does what the function
    [get_or_create_worker] does. *)
Lemma solo_run s i now :
  callers s i = Start → worker_lock s = None →
  ∃ s', rtc step s s' ∧ worker_lock s' = None ∧
        (∀ j, j ≠ i → callers s' j = callers s j) ∧
        callers s' i = Done (get_or_create_worker order (manager s) p (uctx i) now).1 ∧
        manager s' = (get_or_create_worker order (manager s) p (uctx i) now).2.
Proof.
  intros Hi Hfree.
  set (s1 := mkState (manager s) (Some i) (set_caller s i Lookup)).
  assert (H1 : step s s1) by (by apply step_lock).
  assert (Hc1 : callers s1 i = Lookup) by apply set_caller_eq.
  unfold get_or_create_worker.
  destruct (dict_get (api_id p) (active_workers (manager s))) as [w|] eqn:Hget.
  { eexists. split; [eapply rtc_l; [exact H1|]; eapply rtc_once;
                     apply (step_hit _ _ _ _ _ w now Hc1 Hget)|].
    cbn [worker_lock callers manager fst snd]. split; [done|]. split; [|by rewrite set_caller_eq].
    intros j Hj. subst s1.
    repeat (rewrite set_caller_ne by done; cbn [callers]). done. }
  set (s2 := mkState (manager s1) (worker_lock s1) (set_caller s1 i Ensure)).
  assert (H2 : step s1 s2) by (by apply step_miss).
  assert (Hc2 : callers s2 i = Ensure) by apply set_caller_eq.
  destruct (_ensure_capacity (manager s)) as [m1|e|] eqn:Hens.
  - set (s3 := mkState m1 (worker_lock s2) (set_caller s2 i Create)).
    assert (H3 : step s2 s3) by (by apply step_ensure).
    assert (Hc3 : callers s3 i = Create) by apply set_caller_eq.
    pose proof (create_new_worker_inv order m1 p (uctx i) now) as Hcinv.
    destruct (_create_new_worker order m1 p (uctx i) now) as [[w m2]|e|] eqn:Hcr; [| |done].
    + set (s4 := mkState m2 (worker_lock s3) (set_caller s3 i (Insert w))).
      assert (H4 : step s3 s4) by (by apply (step_create _ _ _ s3 i now w m2)).
      assert (Hc4 : callers s4 i = Insert w) by apply set_caller_eq.
      eexists. split.
      { eapply rtc_l; [exact H1|]. eapply rtc_l; [exact H2|]. eapply rtc_l; [exact H3|].
        eapply rtc_l; [exact H4|]. eapply rtc_once. by apply step_insert. }
      cbn [worker_lock callers manager fst snd]. split; [done|].
      split; [|by rewrite set_caller_eq].
      intros j Hj. subst s1 s2 s3 s4.
      repeat (rewrite set_caller_ne by done; cbn [callers]). done.
    + eexists. split.
      { eapply rtc_l; [exact H1|]. eapply rtc_l; [exact H2|]. eapply rtc_l; [exact H3|].
        eapply rtc_once. by apply (step_create_raise _ _ _ s3 i now e). }
      cbn [worker_lock callers manager fst snd]. split; [done|].
      split; [|by rewrite set_caller_eq].
      intros j Hj. subst s1 s2 s3.
      repeat (rewrite set_caller_ne by done; cbn [callers]). done.
  - eexists. split.
    { eapply rtc_l; [exact H1|]. eapply rtc_l; [exact H2|].
      eapply rtc_once. by apply (step_ensure_raise _ _ _ s2 i e). }
    cbn [worker_lock callers manager fst snd]. split; [done|].
    split; [|by rewrite set_caller_eq].
    intros j Hj. subst s1 s2.
    repeat (rewrite set_caller_ne by done; cbn [callers]). done.
  - unfold _ensure_capacity in Hens. destruct (_ >=? _); [|done].
    by destruct (py_min _ _) as [[]|].
Qed.

(** *** The interleaved calls are calls of [get_or_create_worker] *)

#[local] Abbreviation serial := (Concurrent.serial order p uctx).

Lemma serial_snoc sched i now : ∀ m,
  serial m (sched ++ [(i, now)]) =
    ((get_or_create_worker order (serial m sched).1 p (uctx i) now).2,
     (serial m sched).2 ++
       [(i, (get_or_create_worker order (serial m sched).1 p (uctx i) now).1)]).
Proof.
  induction sched as [|[j t] sched IH]; intros m; [done|].
  cbn [app Concurrent.serial fst snd]. by rewrite IH.
Qed.

Lemma serial_callers sched : ∀ m, (serial m sched).2.*1 = sched.*1.
Proof.
  induction sched as [|[j t] sched IH]; intros m; [done|].
  cbn [Concurrent.serial fst snd fmap list_fmap]. f_equal. apply IH.
Qed.

(** What the caller that holds the lock has done so far, from the manager
    [mf] it found to the manager [ms] of the state. *)
Definition pending (i : nat) (c : pc) (mf ms : WorkerManager.t) : Prop :=
  match c with
  | Lookup => ms = mf
  | Ensure => ms = mf ∧ dict_get (api_id p) (active_workers mf) = None
  | Create =>
      dict_get (api_id p) (active_workers mf) = None ∧ _ensure_capacity mf = Ok ms
  | Insert w =>
      dict_get (api_id p) (active_workers mf) = None ∧
      ∃ m1 now, _ensure_capacity mf = Ok m1 ∧
                _create_new_worker order m1 p (uctx i) now = Ok (w, ms)
  | _ => False
  end.

Lemma pending_holder i c mf ms : pending i c mf ms → holder c.
Proof. by destruct c. Qed.

(** The calls that have finished are those of [sched], run one after the
    other from [m]. *)
Record lin_inv (m : WorkerManager.t) (n : nat) (s : state) (sched : list (nat * Z))
    : Prop := {
  li_nodup : NoDup sched.*1;
  li_done : ∀ i r, callers s i = Done r ↔ (i, r) ∈ (serial m sched).2;
  li_lock : ∀ i, holder (callers s i) → worker_lock s = Some i;
  li_callers : ∀ i, callers s i = Absent ↔ ¬ (i < n)%nat;
  li_state :
    match worker_lock s with
    | None => manager s = (serial m sched).1
    | Some i => pending i (callers s i) (serial m sched).1 (manager s)
    end;
}.

Lemma init_lin_inv m n : lin_inv m n (init m n) [].
Proof.
  constructor; unfold init; cbn [manager worker_lock callers Concurrent.serial fst snd].
  - constructor.
  - intros i r. split; [by case_decide|]. intros Hin. by apply elem_of_nil in Hin.
  - intros i. by case_decide.
  - intros i. case_decide; naive_solver.
  - done.
Qed.

Lemma lin_inv_held m n s sched i :
  lin_inv m n s sched → holder (callers s i) →
  worker_lock s = Some i ∧ pending i (callers s i) (serial m sched).1 (manager s) ∧
  (i < n)%nat ∧ i ∉ sched.*1.
Proof.
  intros Hinv Hi. pose proof (li_lock _ _ _ _ Hinv i Hi) as Hl.
  pose proof (li_state _ _ _ _ Hinv) as Hs. rewrite Hl in Hs.
  split; [done|]. split; [done|]. split.
  - destruct (decide (i < n)%nat) as [|Hn]; [done|].
    apply (li_callers _ _ _ _ Hinv) in Hn. rewrite Hn in Hi. done.
  - rewrite <- (serial_callers sched m). intros Hin.
    apply list_elem_of_fmap in Hin as ([j r] & -> & Hin). simpl in Hi.
    apply (li_done _ _ _ _ Hinv) in Hin. rewrite Hin in Hi. done.
Qed.

(** The holder of the lock moves on inside the function. *)
Lemma lin_inv_inside m n s sched i c ms :
  lin_inv m n s sched → holder (callers s i) →
  pending i c (serial m sched).1 ms →
  lin_inv m n (mkState ms (worker_lock s) (set_caller s i c)) sched.
Proof.
  intros Hinv Hi Hp. destruct (lin_inv_held m n s sched i Hinv Hi) as (Hl & _ & Hn & _).
  pose proof (pending_holder _ _ _ _ Hp) as Hc.
  constructor; cbn [manager worker_lock callers].
  - apply (li_nodup _ _ _ _ Hinv).
  - intros j r. caller_cases j i.
    + split; [intros ->; done|]. intros Hin. apply (li_done _ _ _ _ Hinv) in Hin.
      rewrite Hin in Hi. done.
    + apply (li_done _ _ _ _ Hinv).
  - intros j. caller_cases j i; [done|]. apply (li_lock _ _ _ _ Hinv).
  - intros j. caller_cases j i; [|apply (li_callers _ _ _ _ Hinv)].
    split; [intros ->; done|lia].
  - rewrite Hl. by rewrite set_caller_eq.
Qed.

(** The holder of the lock leaves the function with the outcome of
    [get_or_create_worker]. *)
Lemma lin_inv_leave m n s sched i now :
  lin_inv m n s sched → holder (callers s i) →
  lin_inv m n
    (mkState (get_or_create_worker order (serial m sched).1 p (uctx i) now).2 None
       (set_caller s i
          (Done (get_or_create_worker order (serial m sched).1 p (uctx i) now).1)))
    (sched ++ [(i, now)]).
Proof.
  intros Hinv Hi. destruct (lin_inv_held m n s sched i Hinv Hi) as (Hl & _ & Hn & Hni).
  constructor; cbn [manager worker_lock callers]; rewrite ?serial_snoc; cbn [fst snd].
  - rewrite fmap_app. apply NoDup_app. split; [apply (li_nodup _ _ _ _ Hinv)|].
    split; [|apply NoDup_singleton].
    intros j Hj Hj'. apply list_elem_of_singleton in Hj'. simpl in Hj'. by subst.
  - intros j r. rewrite elem_of_app, list_elem_of_singleton. caller_cases j i.
    + split; [intros [= <-]; by right|].
      intros [Hin|[= <-]]; [|done]. apply (li_done _ _ _ _ Hinv) in Hin.
      rewrite Hin in Hi. done.
    + rewrite (li_done _ _ _ _ Hinv). split; [by left|]. intros [?|[= ? _]]; done.
  - intros j. caller_cases j i; [done|]. intros Hj.
    apply (li_lock _ _ _ _ Hinv) in Hj. congruence.
  - intros j. caller_cases j i; [|apply (li_callers _ _ _ _ Hinv)].
    split; [done|lia].
  - done.
Qed.

Lemma step_lin_inv m n s s' sched :
  lin_inv m n s sched → step s s' → ∃ sched', lin_inv m n s' sched'.
Proof.
  intros Hinv Hstep.
  destruct Hstep as [s i Hi Hfree | s i w0 now Hi Hget | s i Hi Hget | s i m1 Hi Hens
                    | s i e Hi Hens | s i now w m2 Hi Hcr | s i now e Hi Hcr | s i w Hi].
  - (* taking the lock *)
    exists sched. pose proof (li_state _ _ _ _ Hinv) as Hs. rewrite Hfree in Hs.
    constructor; cbn [manager worker_lock callers].
    + apply (li_nodup _ _ _ _ Hinv).
    + intros j r. caller_cases j i; [|apply (li_done _ _ _ _ Hinv)].
      split; [done|]. intros Hin. apply (li_done _ _ _ _ Hinv) in Hin. congruence.
    + intros j. caller_cases j i; [done|]. intros Hj.
      apply (li_lock _ _ _ _ Hinv) in Hj. congruence.
    + intros j. caller_cases j i; [|apply (li_callers _ _ _ _ Hinv)].
      split; [done|]. intros Hn. apply (li_callers _ _ _ _ Hinv) in Hn. congruence.
    + by rewrite set_caller_eq.
  - (* the entry is found *)
    assert (Hh : holder (callers s i)) by (by rewrite Hi).
    destruct (lin_inv_held m n s sched i Hinv Hh) as (_ & Hp & _). rewrite Hi in Hp.
    simpl in Hp. exists (sched ++ [(i, now)]).
    pose proof (lin_inv_leave m n s sched i now Hinv Hh) as Hleave.
    unfold get_or_create_worker in Hleave. rewrite <- Hp, Hget in Hleave. exact Hleave.
  - (* the entry is missing *)
    assert (Hh : holder (callers s i)) by (by rewrite Hi).
    destruct (lin_inv_held m n s sched i Hinv Hh) as (_ & Hp & _). rewrite Hi in Hp.
    simpl in Hp. exists sched. apply lin_inv_inside; [done|done|]. simpl.
    rewrite <- Hp. by split.
  - (* room is made *)
    assert (Hh : holder (callers s i)) by (by rewrite Hi).
    destruct (lin_inv_held m n s sched i Hinv Hh) as (_ & Hp & _). rewrite Hi in Hp.
    destruct Hp as [Hp Hnone]. exists sched. apply lin_inv_inside; [done|done|]. simpl.
    rewrite <- Hp in Hnone |- *. by split.
  - (* making room raises *)
    assert (Hh : holder (callers s i)) by (by rewrite Hi).
    destruct (lin_inv_held m n s sched i Hinv Hh) as (_ & Hp & _). rewrite Hi in Hp.
    destruct Hp as [Hp Hnone]. exists (sched ++ [(i, 0)]).
    pose proof (lin_inv_leave m n s sched i 0 Hinv Hh) as Hleave.
    unfold get_or_create_worker in Hleave. rewrite Hnone, <- Hp, Hens in Hleave.
    exact Hleave.
  - (* the executor is built *)
    assert (Hh : holder (callers s i)) by (by rewrite Hi).
    destruct (lin_inv_held m n s sched i Hinv Hh) as (_ & Hp & _). rewrite Hi in Hp.
    destruct Hp as [Hnone Hens]. exists sched. apply lin_inv_inside; [done|done|]. simpl.
    split; [done|]. by exists (manager s), now.
  - (* the construction raises *)
    assert (Hh : holder (callers s i)) by (by rewrite Hi).
    destruct (lin_inv_held m n s sched i Hinv Hh) as (_ & Hp & _). rewrite Hi in Hp.
    destruct Hp as [Hnone Hens]. exists (sched ++ [(i, now)]).
    pose proof (lin_inv_leave m n s sched i now Hinv Hh) as Hleave.
    unfold get_or_create_worker in Hleave. rewrite Hnone, Hens, Hcr in Hleave.
    exact Hleave.
  - (* the entry is stored *)
    assert (Hh : holder (callers s i)) by (by rewrite Hi).
    destruct (lin_inv_held m n s sched i Hinv Hh) as (_ & Hp & _). rewrite Hi in Hp.
    destruct Hp as (Hnone & m1 & now & Hens & Hcr). exists (sched ++ [(i, now)]).
    pose proof (lin_inv_leave m n s sched i now Hinv Hh) as Hleave.
    unfold get_or_create_worker in Hleave. rewrite Hnone, Hens, Hcr in Hleave.
    exact Hleave.
Qed.

Lemma steps_lin_inv m n s s' sched :
  lin_inv m n s sched → rtc step s s' → ∃ sched', lin_inv m n s' sched'.
Proof.
  intros Hinv Hsteps. revert sched Hinv.
  induction Hsteps as [|s1 s2 s3 Hstep _ IH]; intros sched Hinv; [by exists sched|].
  destruct (step_lin_inv m n s1 s2 sched Hinv Hstep) as [sched' Hinv']. by eapply IH.
Qed.

(** *** Progress *)

Lemma ensure_capacity_not_fuel m : _ensure_capacity m ≠ OutOfFuel.
Proof.
  unfold _ensure_capacity. destruct (_ >=? _); [|done]. by destruct (py_min _ _) as [[]|].
Qed.

(** The caller that holds the lock can take its next step. *)
Lemma holder_steps s i : holder (callers s i) → ∃ s', step s s'.
Proof.
  intros Hi. destruct (callers s i) as [| | | | |w|r] eqn:Hc; try done.
  - destruct (dict_get (api_id p) (active_workers (manager s))) as [w|] eqn:Hget.
    + eexists. by apply (step_hit _ _ _ s i w 0).
    + eexists. by apply step_miss.
  - destruct (_ensure_capacity (manager s)) as [m1|e|] eqn:Hens.
    + eexists. by apply (step_ensure _ _ _ s i m1).
    + eexists. by apply (step_ensure_raise _ _ _ s i e).
    + by apply ensure_capacity_not_fuel in Hens.
  - pose proof (create_new_worker_inv order (manager s) p (uctx i) 0) as Hcinv.
    destruct (_create_new_worker order (manager s) p (uctx i) 0) as [[w m2]|e|] eqn:Hcr;
      [| |done].
    + eexists. by apply (step_create _ _ _ s i 0 w m2).
    + eexists. by apply (step_create_raise _ _ _ s i 0 e).
  - eexists. by apply step_insert.
Qed.

Definition is_done (c : pc) : bool :=
  match c with Done _ => true | _ => false end.

Lemma all_done_or_not (s : state) (n : nat) :
  (∀ i, (i < n)%nat → is_done (callers s i) = true) ∨
  (∃ i, (i < n)%nat ∧ is_done (callers s i) = false).
Proof.
  induction n as [|n [IH|(i & Hi & Hc)]].
  - left. lia.
  - destruct (is_done (callers s n)) eqn:Hn.
    + left. intros i Hi. destruct (decide (i = n)) as [->|]; [done|]. apply IH. lia.
    + right. exists n. split; [lia|done].
  - right. exists i. split; [lia|done].
Qed.

Lemma finished_or_not m n s sched :
  lin_inv m n s sched →
  finished s ∨ ∃ i, (i < n)%nat ∧ is_done (callers s i) = false.
Proof.
  intros Hinv. destruct (all_done_or_not s n) as [Hall|?]; [left|by right].
  intros i. destruct (decide (i < n)%nat) as [Hi|Hi].
  - right. specialize (Hall i Hi). destruct (callers s i); try done. by eexists.
  - left. by apply (li_callers _ _ _ _ Hinv).
Qed.

(** A run that has not finished goes on: no interleaving is stuck. *)
Lemma progress m n s sched : lin_inv m n s sched → ¬ finished s → ∃ s', step s s'.
Proof.
  intros Hinv Hnf. destruct (finished_or_not m n s sched Hinv) as [|(i & Hi & Hc)]; [done|].
  destruct (callers s i) as [| | | | |w|r] eqn:Hci; try done.
  - apply (li_callers _ _ _ _ Hinv) in Hci. lia.
  - destruct (worker_lock s) as [j|] eqn:Hl.
    + pose proof (li_state _ _ _ _ Hinv) as Hs. rewrite Hl in Hs.
      apply pending_holder in Hs. by apply (holder_steps s j).
    + eexists. by apply step_lock.
  - apply (holder_steps s i). by rewrite Hci.
  - apply (holder_steps s i). by rewrite Hci.
  - apply (holder_steps s i). by rewrite Hci.
  - apply (holder_steps s i). by rewrite Hci.
Qed.

Lemma statements_left_ext n c c' :
  (∀ j, (j < n)%nat → c j = c' j) → statements_left n c = statements_left n c'.
Proof.
  induction n as [|n IH]; intros Heq; [done|]. simpl.
  rewrite (IH (λ j Hj, Heq j (Nat.lt_lt_succ_r _ _ Hj))), (Heq n); [done|lia].
Qed.

Lemma statements_left_set_caller n s i c :
  (i < n)%nat → (weight c < weight (callers s i))%nat →
  (statements_left n (set_caller s i c) < statements_left n (callers s))%nat.
Proof.
  induction n as [|n IH]; intros Hi Hw; [lia|]. simpl.
  destruct (decide (i = n)) as [->|Hne].
  - rewrite set_caller_eq.
    rewrite (statements_left_ext n (set_caller s n c) (callers s)); [lia|].
    intros j Hj. apply set_caller_ne. lia.
  - rewrite set_caller_ne by done. assert (i < n)%nat by lia. specialize (IH H Hw). lia.
Qed.

Lemma step_statements_left m n s s' sched :
  lin_inv m n s sched → step s s' →
  (statements_left n (callers s') < statements_left n (callers s))%nat.
Proof.
  intros Hinv Hstep.
  assert (Hn : ∀ i, callers s i ≠ Absent → (i < n)%nat).
  { intros i Hi. destruct (decide (i < n)%nat) as [|Hge]; [done|].
    by apply (li_callers _ _ _ _ Hinv) in Hge. }
  destruct Hstep; cbn [callers]; apply statements_left_set_caller;
    solve [apply Hn; congruence | match goal with H : callers _ _ = _ |- _ => rewrite H end;
                                  simpl; lia].
Qed.

(** Every run can be completed, and within as many steps as its callers
    have statements left. *)
Lemma run_to_finish m n : ∀ k s sched,
  (statements_left n (callers s) ≤ k)%nat → lin_inv m n s sched →
  ∃ s', rtc step s s' ∧ finished s'.
Proof.
  induction k as [|k IH]; intros s sched Hk Hinv.
  - destruct (finished_or_not m n s sched Hinv) as [Hfin|(i & Hi & Hc)]; [by exists s|].
    assert (Hnf : ¬ finished s).
    { intros Hfin. destruct (Hfin i) as [Ha|[r Hr]]; [|by rewrite Hr in Hc].
      apply (li_callers _ _ _ _ Hinv) in Ha. lia. }
    destruct (progress m n s sched Hinv Hnf) as [s' Hstep].
    pose proof (step_statements_left m n s s' sched Hinv Hstep). lia.
  - destruct (finished_or_not m n s sched Hinv) as [Hfin|(i & Hi & Hc)]; [by exists s|].
    assert (Hnf : ¬ finished s).
    { intros Hfin. destruct (Hfin i) as [Ha|[r Hr]]; [|by rewrite Hr in Hc].
      apply (li_callers _ _ _ _ Hinv) in Ha. lia. }
    destruct (progress m n s sched Hinv Hnf) as [s' Hstep].
    pose proof (step_statements_left m n s s' sched Hinv Hstep) as Hlt.
    destruct (step_lin_inv m n s s' sched Hinv Hstep) as [sched' Hinv'].
    destruct (IH s' sched') as (s'' & Hsteps & Hfin); [lia|done|].
    exists s''. split; [by eapply rtc_l|done].
Qed.

End ConcurrentFacts.

(** * The claim about concurrent acquisitions *)

Section ConcurrentClaims.
Import WorkerManager Concurrent Samples FlowSamples ManagerSamples.

(** C3.  Any number of callers run [get_or_create_worker] for the same API,
    which is absent from the cache, their statements interleaved in any way
    that [worker_lock] allows.  At every moment the calls that have finished
    are calls of the function [get_or_create_worker] run one after the
    other: each caller once, in some order and at some clock readings, each
    with the outcome the function gives it, and when the lock is free the
    manager is the one these calls leave.  If the flow of the API passes the
    constructor, at most one executor has been constructed at any moment,
    and once every caller has returned exactly one has been constructed and
    every caller has received that same executor.  If the flow does not pass
    the constructor, nothing is constructed, the cache never holds an entry
    for the API, and every caller that has finished has raised.  No
    interleaving is stuck or endless: a run that has not finished has a next
    step, every step takes one off the statements the callers have left (at
    most five each), and the run can always be completed. *)
Theorem C3_single_construction (order : SetOrder) (p : PublishedApi) (uctx : nat → dict)
    (m : WorkerManager.t) (n : nat) (s : state) :
  reachable order m →
  dict_get (api_id p) (active_workers m) = None →
  (0 < n)%nat →
  rtc (step order p uctx) (init m n) s →
  (∃ sched : list (nat * Z),
     NoDup sched.*1 ∧
     (∀ i r, callers s i = Done r ↔ (i, r) ∈ (serial order p uctx m sched).2) ∧
     (worker_lock s = None → manager s = (serial order p uctx m sched).1)) ∧
  (builds order p →
     (constructed (manager s) = constructed m ∨
      constructed (manager s) = S (constructed m)) ∧
     (finished s →
        constructed (manager s) = S (constructed m) ∧
        ∃ e, ref e = constructed m ∧
             ∀ i, (i < n)%nat → callers s i = Done (Ok e))) ∧
  (¬ builds order p →
     constructed (manager s) = constructed m ∧
     dict_get (api_id p) (active_workers (manager s)) = None ∧
     ∀ i r, callers s i = Done r → ∃ e, r = Err e) ∧
  (¬ finished s → ∃ s', step order p uctx s s') ∧
  (∀ s', step order p uctx s s' →
         (statements_left n (callers s') < statements_left n (callers s))%nat) ∧
  (∃ s', rtc (step order p uctx) s s' ∧ finished s').
Proof.
  intros Hreach Hnone Hn Hsteps.
  pose proof (init_conc_inv order p uctx m n (reachable_inv order m Hreach) Hnone) as Hinit.
  pose proof (steps_conc_inv order p uctx _ n _ s Hinit Hsteps) as Hinv.
  pose proof (cv_phase order p _ _ _ Hinv) as Hphase.
  pose proof (cv_callers order p _ _ _ Hinv) as Hcall.
  destruct (steps_lin_inv order p uctx m n _ s [] (init_lin_inv order p uctx m n) Hsteps)
    as [sched Hlin].
  split; [|split; [|split; [|split; [|split]]]].
  - exists sched. split; [apply (li_nodup _ _ _ _ _ _ _ Hlin)|].
    split; [apply (li_done _ _ _ _ _ _ _ Hlin)|].
    intros Hfree. pose proof (li_state _ _ _ _ _ _ _ Hlin) as Hs. by rewrite Hfree in Hs.
  - intros Hb. split.
    + destruct Hphase as [(_ & ? & _)|[(_ & ? & _)|(_ & ? & _)]]; auto.
    + intros Hfin.
      assert (H0 : ∃ r, callers s 0%nat = Done r).
      { destruct (Hfin 0%nat) as [Habs|?]; [|done]. apply Hcall in Habs. lia. }
      destruct H0 as [r0 H0].
      destruct Hphase as [(_ & _ & _ & _ & H5)|[(_ & _ & _ & _ & H5)
                         |(_ & Hc & w & _ & Href & _ & Hdone)]].
      * by destruct (H5 Hb 0%nat r0).
      * by destruct (H5 0%nat r0).
      * split; [done|]. exists (executor w). split; [done|].
        intros i Hi. destruct (Hfin i) as [Habs|[r Hr]].
        -- apply Hcall in Habs. lia.
        -- by rewrite Hr, (Hdone i r Hr).
  - intros Hnb.
    destruct Hphase as [(H1 & H2 & _ & H4 & _)|[(_ & _ & Hb & _)|(Hb & _)]]; [|done|done].
    split; [done|]. split; [done|].
    intros i [e| |] Hr; [by destruct (H4 i e)|by eexists|].
    exfalso. apply (no_fuel_steps order p uctx _ s Hsteps) in Hr; [done|].
    intros j. unfold init. cbn [callers]. by case_decide.
  - by apply (progress order p uctx m n s sched).
  - intros s' Hstep. by apply (step_statements_left order p uctx m n s s' sched).
  - by apply (run_to_finish order p uctx m n _ s sched (Nat.le_refl _)).
Qed.

(** Witness for C3: two callers acquire the worker of API 1 from the empty
    manager.  Caller 1 takes the lock, misses, checks the capacity,
    constructs the executor and inserts it; then caller 0 takes the lock
    and finds the entry. *)
Lemma C3_witness :
  ∃ s, rtc (step insertion_order (api 1) (λ _, [])) (init (initial stock_settings) 2) s ∧
       finished s ∧
       constructed (manager s) = 1%nat ∧
       ∃ e, ref e = 0%nat ∧ callers s 0%nat = Done (Ok e) ∧ callers s 1%nat = Done (Ok e).
Proof.
  assert (Hrun : ∃ s, rtc (step insertion_order (api 1) (λ _, []))
                        (init (initial stock_settings) 2) s ∧ finished s).
  { eexists. split.
    - eapply rtc_l; [by eapply (step_lock _ _ _ _ 1%nat)|].
      eapply rtc_l; [by eapply (step_miss _ _ _ _ 1%nat)|].
      eapply rtc_l; [eapply (step_ensure _ _ _ _ 1%nat); reflexivity|].
      eapply rtc_l; [eapply (step_create _ _ _ _ 1%nat 7); reflexivity|].
      eapply rtc_l; [eapply (step_insert _ _ _ _ 1%nat); reflexivity|].
      eapply rtc_l; [by eapply (step_lock _ _ _ _ 0%nat)|].
      eapply rtc_l; [eapply (step_hit _ _ _ _ 0%nat _ 9); reflexivity|].
      apply rtc_refl.
    - intros [|[|i]]; [right; by eexists|right; by eexists|left; reflexivity]. }
  destruct Hrun as (s & Hsteps & Hfin).
  exists s. split; [done|]. split; [done|].
  destruct (C3_single_construction insertion_order (api 1) (λ _, [])
              (initial stock_settings) 2 s) as (_ & Hb & _).
  - exists stock_settings, []. reflexivity.
  - reflexivity.
  - lia.
  - done.
  - destruct Hb as [_ Hb].
    + eexists _, _. split; [reflexivity|]. split; reflexivity.
    + destruct (Hb Hfin) as (Hc & e & Href & He).
      split; [done|]. exists e. split; [done|]. split; apply He; lia.
Defined.

End ConcurrentClaims.

(** * The execution endpoint *)

Section RouterFacts.
Import WorkerManager ExecuteRouter.

(** The handler answers with one of four status codes. *)
Lemma run_published_api_status order rt manager query request current_user now :
  status_code (run_published_api order rt manager query request current_user now).1
    ∈ [200; 403; 404; 500].
Proof.
  unfold run_published_api.
  destruct (_get_published_api query) as [published_api|]; [|set_solver].
  destruct (negb (is_active published_api)); [set_solver|].
  destruct (get_or_create_worker order manager published_api _ now) as [[executor|e|] manager'];
    [|set_solver..].
  destruct (FlowExecutor.execute rt (obj executor) _ _) as [result|e|]; [|set_solver..].
  destruct (formatted_serializable _); set_solver.
Qed.

(** A JSON body that cannot be decoded is read as the empty object. *)
Lemma parse_body_json_failure request request_data :
  json_body request = None →
  parse_body request request_data
    = parse_body (with_json_body request (Some (VDict []))) request_data.
Proof.
  intros Hbody. unfold parse_body, with_json_body. cbn [method content_type json_body form].
  by rewrite Hbody.
Qed.

Lemma parse_request_data_json_failure request now :
  json_body request = None →
  _parse_request_data request now
    = _parse_request_data (with_json_body request (Some (VDict []))) now.
Proof.
  intros Hbody. unfold _parse_request_data.
  rewrite (parse_body_json_failure request) by done. reflexivity.
Qed.

(** A form that cannot be decoded empties the request data. *)
Lemma parse_request_data_form_failure request now :
  method request ∈ ["POST"; "PUT"; "PATCH"] →
  contains "application/json" (default "" (content_type request)) = false →
  contains "application/x-www-form-urlencoded" (default "" (content_type request))
    || contains "multipart/form-data" (default "" (content_type request)) = true →
  form request = None →
  _parse_request_data request now = [].
Proof.
  intros Hm Hj Hf Hform. unfold _parse_request_data, parse_body.
  rewrite decide_True by done. by rewrite Hj, Hf, Hform.
Qed.

End RouterFacts.

Section RouterClaims.
Import WorkerManager ExecuteRouter Samples FlowSamples ManagerSamples RouterSamples.

(** The answers to the two undecodable requests of the samples, whatever the
    node classes besides [static_data] and [display_results] do. *)
Lemma undecodable_requests_answered (rest : FlowExecutor.NodeRuntime) :
  (run_published_api insertion_order (runtime_with rest) (initial stock_settings)
     (Some (Some api_ab)) bad_json None 7).1
    = mkResponse 200 (Success (FTable people)) ∧
  (run_published_api insertion_order (runtime_with rest) (initial stock_settings)
     (Some (Some api_ab)) bad_form None 7).1
    = mkResponse 200 (Success (FTable people)).
Proof. split; reflexivity. Qed.

(** C9, counterexample.  A POST that announces JSON and whose body cannot be
    decoded is sent to an active published API serving the flow A -> B, a
    table shown by a [display_results] node.  The request data holds the
    query parameter and the metadata only, the flow is executed and the
    answer is 200 with the table.  The same holds for a multipart form that
    cannot be decoded, with empty request data.  When the lookup of the
    published API raises, the answer is 404. *)
Lemma C9_counterexample :
  _parse_request_data bad_json 7
    = [("limit", VStr "5");
       ("_metadata", VDict [("method", VStr "POST"); ("client_ip", VStr "10.0.0.1");
                            ("user_agent", VStr "unknown"); ("timestamp", VInt 7)])] ∧
  (run_published_api insertion_order sample_runtime (initial stock_settings)
     (Some (Some api_ab)) bad_json None 7).1
    = mkResponse 200 (Success (FTable people)) ∧
  _parse_request_data bad_form 7 = [] ∧
  (run_published_api insertion_order sample_runtime (initial stock_settings)
     (Some (Some api_ab)) bad_form None 7).1
    = mkResponse 200 (Success (FTable people)) ∧
  status_code (run_published_api insertion_order sample_runtime (initial stock_settings)
                 None bad_json None 7).1 = 404.
Proof. repeat split; reflexivity. Qed.

(** C9, as the code has it.  The handler never answers 400: its status is 200,
    403, 404 or 500.  A JSON body that cannot be decoded is skipped, and the
    request is handled exactly as the same request with the empty object as
    its body: same response, same manager.  A form for which
    [request.form()] raises (a multipart body that cannot be decoded) leaves
    the request data empty, without the metadata. *)
Theorem C9_parse_failure_not_rejected (order : SetOrder) (rt : FlowExecutor.NodeRuntime)
    (manager : WorkerManager.t) (query : option (option PublishedApi))
    (request : Request) (current_user : option User) (now : Z) :
  status_code (run_published_api order rt manager query request current_user now).1 ≠ 400 ∧
  status_code (run_published_api order rt manager query request current_user now).1
    ∈ [200; 403; 404; 500] ∧
  (json_body request = None →
     run_published_api order rt manager query request current_user now
       = run_published_api order rt manager query
           (with_json_body request (Some (VDict []))) current_user now) ∧
  (method request ∈ ["POST"; "PUT"; "PATCH"] →
   contains "application/json" (default "" (content_type request)) = false →
   contains "application/x-www-form-urlencoded" (default "" (content_type request))
     || contains "multipart/form-data" (default "" (content_type request)) = true →
   form request = None →
   _parse_request_data request now = []).
Proof.
  pose proof (run_published_api_status order rt manager query request current_user now)
    as Hstatus.
  split; [|split; [done|split]].
  - intros Heq. rewrite Heq in Hstatus. set_solver.
  - intros Hbody. unfold run_published_api.
    by rewrite (parse_request_data_json_failure request now Hbody).
  - apply parse_request_data_form_failure.
Qed.

(** Witness for C9: the two undecodable requests above. *)
Lemma C9_witness :
  (run_published_api insertion_order sample_runtime (initial stock_settings)
     (Some (Some api_ab)) bad_json None 7
     = run_published_api insertion_order sample_runtime (initial stock_settings)
         (Some (Some api_ab)) (with_json_body bad_json (Some (VDict []))) None 7) ∧
  _parse_request_data bad_form 7 = [].
Proof.
  split.
  - apply (C9_parse_failure_not_rejected insertion_order sample_runtime
             (initial stock_settings) (Some (Some api_ab)) bad_json None 7).
    reflexivity.
  - apply (C9_parse_failure_not_rejected insertion_order sample_runtime
             (initial stock_settings) (Some (Some api_ab)) bad_form None 7).
    + by left.
    + reflexivity.
    + reflexivity.
    + reflexivity.
Defined.

End RouterClaims.

(** * Further properties of the DAG utilities *)

Section DagMoreFacts.
Import DagUtil Graph FlowExecutor.

(** On a flow that forms a graph, [topological_sort] either returns an
    order or reports a cycle of the flow. *)
Lemma sort_well_formed_cases (order : SetOrder) nodes edges :
  well_formed nodes edges →
  (∃ result, topological_sort order nodes edges = Ok result) ∨
  (∃ c, topological_sort order nodes edges = Err (DAGCycleError c) ∧
        directed_cycle edges c).
Proof.
  intros wf.
  destruct (topological_sort_unfold order nodes edges wf)
    as (graph & m0 & m & result & Hadj & _ & _ & Hinv & ->).
  case_decide as Hlen.
  - right. destruct (residual_cycle order nodes edges wf graph m result Hadj Hinv Hlen)
      as (c & -> & Hc & _). eauto.
  - left. eauto.
Qed.

Lemma sort_ok_valid (order : SetOrder) nodes edges result :
  topological_sort order nodes edges = Ok result → valid_flow nodes edges.
Proof.
  intros Hok. pose proof (sort_ok_well_formed order nodes edges result Hok) as wf.
  split; [done|]. by apply (sort_ok_acyclic order nodes edges result).
Qed.

Lemma remove_dups_length (l : list string) : (length (remove_dups l) ≤ length l)%nat.
Proof.
  induction l as [|x l IH]; simpl; [done|]. destruct (decide_rel _ _ _); simpl; lia.
Qed.

Lemma remove_dups_length_NoDup (l : list string) :
  length (remove_dups l) = length l ↔ NoDup l.
Proof.
  induction l as [|x l IH]; simpl.
  - split; [constructor|done].
  - pose proof (remove_dups_length l). destruct (decide_rel _ _ _) as [Hin|Hin]; simpl.
    + split; [lia|]. intros Hnd. apply NoDup_cons in Hnd as [? _]. done.
    + rewrite NoDup_cons. split.
      * intros Hlen. split; [done|]. apply IH. lia.
      * intros [_ Hnd]. apply IH in Hnd. lia.
Qed.

Lemma mapM_node_id nodes :
  match mapM node_id nodes with
  | Some ids => Forall (λ n, is_Some (node_id n)) nodes ∧ ids = declared_ids nodes
  | None => ¬ Forall (λ n, is_Some (node_id n)) nodes
  end.
Proof.
  induction nodes as [|n nodes IH]; simpl; [by split|].
  unfold declared_ids. simpl. destruct (node_id n) as [i|] eqn:Hi; simpl.
  - destruct (mapM node_id nodes) as [ids|]; simpl.
    + destruct IH as [Hall ->]. split; [|done]. constructor; [by rewrite Hi|done].
    + intros Hall. apply Forall_cons in Hall as [_ Hall]. done.
  - intros Hall. apply Forall_cons in Hall as [[? Hn] _]. congruence.
Qed.

Lemma check_edges_resolved ids edges :
  match check_edges ids edges with
  | None => Forall (resolved ids) edges
  | Some _ => ¬ Forall (resolved ids) edges
  end.
Proof.
  induction edges as [|e edges IH]; simpl; [done|].
  destruct (_validate_edge e) eqn:Hv; simpl.
  - destruct (edge_source e) as [s|] eqn:Hs, (edge_target e) as [t|] eqn:Ht;
      try (intros Hall; apply Forall_cons in Hall as [(u & v & ? & ? & _) _]; congruence).
    case_decide as Hsin.
    { intros Hall. apply Forall_cons in Hall as [(u & v & ? & ? & ? & _) _]. congruence. }
    case_decide as Htin.
    { intros Hall. apply Forall_cons in Hall as [(u & v & ? & ? & _ & ?) _]. congruence. }
    destruct (check_edges ids edges).
    + intros Hall. apply Forall_cons in Hall as [_ Hall]. done.
    + constructor; [|done]. exists s, t. split; [done|]. split; [done|].
      by split.
  - intros Hall. apply Forall_cons in Hall as [(u & v & Hu & Hv' & _) _].
    unfold _validate_edge in Hv. rewrite Hu, Hv' in Hv.
    rewrite !bool_decide_eq_true_2 in Hv by eauto. done.
Qed.

(** The sources of the edges into [v], in edge order. *)
Definition preds (v : string) (E : list (string * string)) : list string :=
  (filter (λ p, p.2 = v) E).*1.

Lemma elem_of_preds u v E : u ∈ preds v E ↔ (u, v) ∈ E.
Proof.
  unfold preds. rewrite list_elem_of_fmap. split.
  - intros ([a b] & -> & Hin). apply list_elem_of_filter in Hin as [Hb Hin].
    simpl in *. by subst.
  - intros Hin. exists (u, v). split; [done|]. by apply list_elem_of_filter.
Qed.

Lemma pairs_cons e edges s t :
  edge_source e = Some s → edge_target e = Some t →
  pairs (e :: edges) = (s, t) :: pairs edges.
Proof. intros Hs Ht. unfold pairs. simpl. unfold edge_pair at 1. by rewrite Hs, Ht. Qed.

Lemma dependencies_loop_spec ids v edges : ∀ acc,
  Forall (resolved ids) edges →
  dependencies_loop v edges acc = Ok (acc ++ preds v (pairs edges)).
Proof.
  induction edges as [|e edges IH]; intros acc Hall.
  - unfold preds, pairs. simpl. by rewrite app_nil_r.
  - apply Forall_cons in Hall as [(s & t & Hs & Ht & _) Hall].
    cbn [dependencies_loop]. rewrite Hs, Ht, (pairs_cons e edges s t Hs Ht).
    unfold preds. rewrite filter_cons. cbn [snd].
    destruct (decide (t = v)) as [->|Hne].
    + rewrite IH by done. cbn [fmap list_fmap fst]. by rewrite <- app_assoc.
    + by rewrite IH.
Qed.

Lemma dependents_loop_spec ids u edges : ∀ acc,
  Forall (resolved ids) edges →
  dependents_loop u edges acc = Ok (acc ++ succs u (pairs edges)).
Proof.
  induction edges as [|e edges IH]; intros acc Hall.
  - unfold succs, pairs. simpl. by rewrite app_nil_r.
  - apply Forall_cons in Hall as [(s & t & Hs & Ht & _) Hall].
    cbn [dependents_loop]. rewrite Hs, Ht, (pairs_cons e edges s t Hs Ht).
    unfold succs. rewrite filter_cons. cbn [fst].
    destruct (decide (s = u)) as [->|Hne].
    + rewrite IH by done. cbn [fmap list_fmap snd]. by rewrite <- app_assoc.
    + by rewrite IH.
Qed.

Definition ins (em : EdgeMap) (v : string) : list string := default [] (inputs em !! v).

Lemma edge_map_init_ins nodes : ∀ em v,
  ins em v = [] →
  ins (foldl (λ em node,
           match node_id node with
           | Some i => mkEdgeMap (<[i := []]> (inputs em)) (<[i := []]> (outputs em))
           | None => em
           end) em nodes) v = [].
Proof.
  induction nodes as [|n nodes IH]; intros em v Hem; [done|].
  cbn [foldl]. apply IH. destruct (node_id n) as [i|]; [|done].
  unfold ins in *. simpl. destruct (decide (i = v)) as [->|Hne].
  - by rewrite lookup_insert_eq.
  - by rewrite lookup_insert_ne.
Qed.

Lemma edge_map_edges_ins edges : ∀ em v,
  ins (foldl (λ em edge,
           match edge_source edge, edge_target edge with
           | Some s, Some t =>
               mkEdgeMap (<[t := default [] (inputs em !! t) ++ [s]]> (inputs em))
                         (<[s := default [] (outputs em !! s) ++ [t]]> (outputs em))
           | _, _ => em
           end) em edges) v
  = ins em v ++ preds v (pairs edges).
Proof.
  induction edges as [|e edges IH]; intros em v.
  - unfold preds, pairs. simpl. by rewrite app_nil_r.
  - cbn [foldl]. rewrite IH. clear IH. unfold pairs. simpl. unfold edge_pair at 2.
    destruct (edge_source e) as [s|], (edge_target e) as [t|]; simpl; try done.
    unfold preds. rewrite filter_cons. simpl. unfold ins. simpl.
    destruct (decide (t = v)) as [->|Hne].
    + rewrite lookup_insert_eq. simpl. by rewrite <- app_assoc.
    + by rewrite lookup_insert_ne.
Qed.

Lemma build_edge_map_ins nodes edges v :
  ins (_build_edge_map nodes edges) v = preds v (pairs edges).
Proof.
  unfold _build_edge_map. rewrite edge_map_edges_ins, edge_map_init_ins; [done|].
  unfold ins. simpl. by rewrite lookup_empty.
Qed.

(** [validate_dag_structure] answers, and answers [(True, _)] exactly for
    the non-empty valid flows. *)
Lemma validate_dag_structure_spec (order : SetOrder) (nodes : list Node)
    (edges : list Edge) :
  ∃ verdict, validate_dag_structure order nodes edges = Ok verdict ∧
    (verdict = None ↔ nodes ≠ [] ∧ valid_flow nodes edges).
Proof.
  unfold validate_dag_structure. destruct nodes as [|n nodes'] eqn:Hnodes.
  { eexists. split; [done|]. split; [done|]. by intros [? _]. }
  rewrite <- Hnodes. assert (Hne : nodes ≠ []) by (by rewrite Hnodes). clear Hnodes.
  pose proof (mapM_node_id nodes) as Hm.
  destruct (mapM node_id nodes) as [ids|].
  2:{ eexists. split; [done|]. split; [done|]. intros [_ [(Hall & _) _]]. done. }
  destruct Hm as [Hall ->].
  case_decide as Hlen.
  { eexists. split; [done|]. split; [done|]. intros [_ [(_ & Hnd & _) _]].
    apply remove_dups_length_NoDup in Hnd. lia. }
  assert (Hnd : NoDup (declared_ids nodes)).
  { apply remove_dups_length_NoDup. lia. }
  pose proof (check_edges_resolved (declared_ids nodes) edges) as Hc.
  destruct (check_edges (declared_ids nodes) edges) as [why|].
  { eexists. split; [done|]. split; [done|]. intros [_ [(_ & _ & Hres) _]]. done. }
  assert (wf : well_formed nodes edges) by done.
  pose proof (X1 := sort_well_formed_cases order nodes edges wf).
  destruct (topological_sort order nodes edges) as [r|e|] eqn:Hs.
  - eexists. split; [done|]. split; [|done]. intros _. split; [done|].
    by apply (sort_ok_valid order nodes edges r).
  - eexists. split; [done|]. split; [done|]. intros [_ Hvalid].
    destruct (sort_valid order nodes edges Hvalid) as (r & Hr & _). congruence.
  - destruct X1 as [[r Hr]|(c & Hc' & _)]; congruence.
Qed.

End DagMoreFacts.

Section DagMoreProperties.
Import DagUtil Graph FlowExecutor Samples.

(** X1.  What each outcome of [topological_sort] says about the flow.  An
    order is returned only for a valid flow; [DAGValidationError] is raised
    only for a flow that is not a graph (a node without id, a repeated id,
    an edge without or with an undeclared endpoint); [DAGCycleError] is
    raised only for a graph, and the path it carries is a directed cycle of
    it.  The [ValueError] of [path.index] is never raised and the call
    always ends. *)
Theorem X1_sort_outcomes (order : SetOrder) (nodes : list Node) (edges : list Edge) :
  match topological_sort order nodes edges with
  | Ok result => valid_flow nodes edges
  | Err (DAGValidationError _) => ¬ well_formed nodes edges
  | Err (DAGCycleError cycle_info) =>
      well_formed nodes edges ∧ directed_cycle edges cycle_info
  | Err ValueError => False
  | OutOfFuel => False
  end.
Proof.
  destruct (topological_sort order nodes edges) as [result|[reason|c|]|] eqn:Hs.
  - by apply (sort_ok_valid order nodes edges result).
  - intros wf. destruct (sort_well_formed_cases order nodes edges wf)
      as [[r Hr]|(c & Hc & _)]; congruence.
  - assert (wf : well_formed nodes edges).
    { apply (sort_not_err_well_formed order). intros reason. congruence. }
    split; [done|]. destruct (sort_well_formed_cases order nodes edges wf)
      as [[r Hr]|(c' & Hc & Hcyc)]; [congruence|].
    rewrite Hs in Hc. by injection Hc as ->.
  - assert (wf : well_formed nodes edges).
    { apply (sort_not_err_well_formed order). intros reason. congruence. }
    destruct (sort_well_formed_cases order nodes edges wf)
      as [[r Hr]|(c' & Hc & _)]; congruence.
  - by apply (topological_sort_total order nodes edges).
Qed.

(** X2.  [validate_dag_structure] never raises, and it answers [(True, _)]
    exactly for the non-empty valid flows: at least one node, every node
    with an id, no id twice, every edge with two declared endpoints, and no
    directed cycle. *)
Theorem X2_validate_dag_structure (order : SetOrder) (nodes : list Node)
    (edges : list Edge) :
  ∃ verdict, validate_dag_structure order nodes edges = Ok verdict ∧
    (verdict = None ↔ nodes ≠ [] ∧ valid_flow nodes edges).
Proof. apply validate_dag_structure_spec. Qed.

(** X3.  On a flow that forms a graph, [get_node_dependencies] and
    [get_node_dependents] return, mirror each other and are what the
    executor keeps in its edge map: [u] is a dependency of [v] exactly when
    [v] is a dependent of [u], exactly when the flow has an edge from [u]
    to [v]; and the two lists are the [inputs] entry of [v] and the
    [outputs] entry of [u] that [_build_edge_map] builds. *)
Theorem X3_dependencies_mirror_dependents (nodes : list Node) (edges : list Edge)
    (u v : string) :
  well_formed nodes edges →
  ∃ dependencies dependents,
    get_node_dependencies v edges = Ok dependencies ∧
    get_node_dependents u edges = Ok dependents ∧
    (u ∈ dependencies ↔ v ∈ dependents) ∧
    (u ∈ dependencies ↔ edge_rel edges u v) ∧
    default [] (inputs (_build_edge_map nodes edges) !! v) = dependencies ∧
    default [] (outputs (_build_edge_map nodes edges) !! u) = dependents.
Proof.
  intros (_ & _ & Hres).
  exists (preds v (pairs edges)), (succs u (pairs edges)).
  split; [apply (dependencies_loop_spec (declared_ids nodes) v edges [] Hres)|].
  split; [apply (dependents_loop_spec (declared_ids nodes) u edges [] Hres)|].
  split; [by rewrite elem_of_preds, elem_of_succs|].
  split; [by rewrite elem_of_preds, elem_of_pairs|].
  split; [apply build_edge_map_ins|apply build_edge_map_outs].
Qed.

Lemma X3_witness :
  ∃ dependencies dependents,
    get_node_dependencies "B" line_edges = Ok dependencies ∧
    get_node_dependents "A" line_edges = Ok dependents ∧
    ("A" ∈ dependencies ↔ "B" ∈ dependents) ∧
    ("A" ∈ dependencies ↔ edge_rel line_edges "A" "B") ∧
    default [] (inputs (_build_edge_map line_nodes line_edges) !! "B") = dependencies ∧
    default [] (outputs (_build_edge_map line_nodes line_edges) !! "A") = dependents.
Proof.
  apply (X3_dependencies_mirror_dependents line_nodes line_edges "A" "B").
  apply line_well_formed. repeat constructor; set_solver.
Defined.

End DagMoreProperties.

(** * Execution groups *)

Section GroupFacts.
Import DagUtil Graph.

(** [x] is in the group of index [i]. *)
Definition level_of (groups : list (list string)) (x : string) (i : nat) : Prop :=
  ∃ g, groups !! i = Some g ∧ x ∈ g.

Lemma elem_of_concat_level groups x : x ∈ concat groups ↔ ∃ i, level_of groups x i.
Proof.
  induction groups as [|g groups IH]; simpl.
  - split; [by intros ?%elem_of_nil|]. by intros (i & g & ? & _).
  - rewrite elem_of_app, IH. split.
    + intros [Hx|(i & g' & Hi & Hx)]; [by exists 0%nat, g|by exists (S i), g'].
    + intros ([|i] & g' & Hi & Hx); simpl in Hi.
      * left. by injection Hi as ->.
      * right. by exists i, g'.
Qed.

Lemma level_of_unique groups x i j :
  NoDup (concat groups) → level_of groups x i → level_of groups x j → i = j.
Proof.
  revert i j. induction groups as [|g groups IH]; intros i j Hnd (gi & Hi & Hxi) (gj & Hj & Hxj).
  - done.
  - simpl in Hnd. apply NoDup_app in Hnd as (_ & Hdisj & Hnd).
    destruct i as [|i], j as [|j]; simpl in Hi, Hj.
    + done.
    + injection Hi as <-. exfalso. apply (Hdisj x Hxi).
      apply elem_of_concat_level. by exists j, gj.
    + injection Hj as <-. exfalso. apply (Hdisj x Hxj).
      apply elem_of_concat_level. by exists i, gi.
    + f_equal. apply IH; [done|by exists gi|by exists gj].
Qed.

Lemma level_of_app_l groups g x i : level_of groups x i → level_of (groups ++ [g]) x i.
Proof. intros (g' & Hi & Hx). exists g'. split; [|done]. by apply lookup_app_l_Some. Qed.

Lemma level_of_snoc groups g x j :
  level_of (groups ++ [g]) x j →
  level_of groups x j ∨ (j = length groups ∧ x ∈ g).
Proof.
  intros (g' & Hj & Hx). apply lookup_app_Some in Hj as [Hj|[Hle Hj]].
  - left. by exists g'.
  - right. apply list_lookup_singleton_Some in Hj as [Hz <-]. split; [lia|done].
Qed.

Lemma level_of_lt groups x i : level_of groups x i → (i < length groups)%nat.
Proof. intros (g & Hi & _). by apply lookup_lt_Some in Hi. Qed.

Lemma concat_snoc (groups : list (list string)) g : concat (groups ++ [g]) = concat groups ++ g.
Proof. rewrite concat_app. simpl. by rewrite app_nil_r. Qed.

Lemma filter_ext_elem (P Q : string → Prop) `{∀ x, Decision (P x)} `{∀ x, Decision (Q x)}
    (l : list string) :
  (∀ x, x ∈ l → (P x ↔ Q x)) → filter P l = filter Q l.
Proof.
  induction l as [|a l IH]; intros Hext; [done|].
  rewrite !filter_cons. rewrite IH by (intros x Hx; apply Hext; by right).
  destruct (decide (P a)) as [Hp|Hp], (decide (Q a)) as [Hq|Hq]; try done.
  - exfalso. apply Hq, (Hext a); [left|done].
  - exfalso. apply Hp, (Hext a); [left|done].
Qed.

Lemma set_of_list_fold (l : list string) : ∀ acc,
  NoDup (acc ++ l) →
  foldl (λ acc x, if decide (x ∈ acc) then acc else acc ++ [x]) acc l = acc ++ l.
Proof.
  induction l as [|x l IH]; intros acc Hnd; simpl; [by rewrite app_nil_r|].
  rewrite decide_False.
  - rewrite IH; [by rewrite <- app_assoc|]. by rewrite <- app_assoc.
  - apply NoDup_app in Hnd as (_ & Hd & _). intros Hin. apply (Hd x Hin). left.
Qed.

Lemma set_of_list_NoDup (l : list string) : NoDup l → set_of_list l = l.
Proof. intros Hnd. unfold set_of_list. by rewrite set_of_list_fold. Qed.

Lemma group_edges_ok ids edges : ∀ g m,
  Forall (resolved ids) edges →
  ∃ g' m', group_edges edges g m = Ok (g', m') ∧
    (∀ u, adj g' u = adj g u ++ succs u (pairs edges)) ∧
    (∀ v, deg m' v = deg m v + Z.of_nat (length (filter (λ p, p.2 = v) (pairs edges)))).
Proof.
  induction edges as [|e edges IH]; intros g m Hres.
  - exists g, m. split; [done|]. split; intros; unfold succs, pairs; simpl.
    + by rewrite app_nil_r.
    + lia.
  - apply Forall_cons in Hres as [(u & v & Hu & Hv & _) Hres].
    rewrite (pairs_cons e edges u v Hu Hv). cbn [group_edges]. rewrite Hu, Hv.
    destruct (IH (<[u := adj g u ++ [v]]> g) (<[v := deg m v + 1]> m) Hres)
      as (g' & m' & -> & Hg & Hm).
    exists g', m'. split; [done|]. split.
    + intros u'. rewrite Hg, adj_insert. unfold succs. rewrite filter_cons. simpl.
      destruct (decide (u = u')) as [->|Hne]; simpl; [|done].
      by rewrite <- app_assoc.
    + intros v'. rewrite Hm, deg_insert. rewrite filter_cons. simpl.
      destruct (decide (v = v')) as [->|Hne]; simpl; lia.
Qed.

Lemma release_fold ns : ∀ m v, deg (foldl release m ns) v = deg m v - occ v ns.
Proof.
  induction ns as [|n ns IH]; intros m v; simpl.
  - unfold occ. simpl. lia.
  - rewrite IH. unfold release. rewrite deg_insert. unfold occ. rewrite filter_cons.
    destruct (decide (n = v)) as [->|Hne]; simpl; lia.
Qed.

Section Loop.
Context (order : SetOrder).
Context (nodes : list Node) (edges : list Edge).
Hypothesis wf : well_formed nodes edges.
Context (graph : gmap string (list string)).
Hypothesis graph_adj : ∀ u, adj graph u = succs u (pairs edges).

Let ids := declared_ids nodes.
Let E := pairs edges.

Lemma leave_fold level : ∀ rem m done,
  (∀ v, deg m v = indeg E done v) →
  NoDup level → (∀ x, x ∈ level → x ∉ done) →
  (foldl (leave graph) (rem, m) level).1 = filter (λ n, n ∉ level) rem ∧
  ∀ v, deg (foldl (leave graph) (rem, m) level).2 v = indeg E (done ++ level) v.
Proof.
  induction level as [|u level IH]; intros rem m done Hdeg Hnd Hout.
  - simpl. split.
    + symmetry. rewrite (filter_ext_elem _ (λ _, True)); [|intros; split; [done|intros _; apply not_elem_of_nil]].
      induction rem as [|a rem IHr]; [done|]. rewrite filter_cons. simpl. by f_equal.
    + intros v. by rewrite app_nil_r.
  - apply NoDup_cons in Hnd as [Hu Hnd]. cbn [foldl]. unfold leave at 2. cbn [fst snd].
    destruct (IH (filter (λ n, n ≠ u) rem) (foldl release m (adj graph u)) (done ++ [u]))
      as [Hrem Hm]; [| done | |].
    + intros v. rewrite release_fold, graph_adj, Hdeg.
      symmetry. apply indeg_snoc. apply Hout. left.
    + intros x Hx Hin. apply elem_of_app in Hin as [Hin|Hin].
      * apply (Hout x); [by right|done].
      * apply list_elem_of_singleton in Hin as ->. done.
    + split.
      * rewrite Hrem, list_filter_filter. apply list_filter_iff. intros x.
        rewrite not_elem_of_cons. tauto.
      * intros v. rewrite Hm. by rewrite <- app_assoc.
Qed.

Record groups_inv (m : gmap string Z) (rem : list string) (acc : list (list string))
  : Prop := {
  gi_nodup : NoDup (concat acc ++ rem);
  gi_perm : concat acc ++ rem ≡ₚ ids;
  gi_deg : ∀ v, deg m v = indeg E (concat acc) v;
  gi_ord : ∀ u v j, (u, v) ∈ E → level_of acc v j →
             ∃ i, level_of acc u i ∧ (i < j)%nat;
  gi_nonempty : Forall (λ g, g ≠ []) acc;
}.

(** When no remaining node is free, the remaining nodes hold a cycle. *)
Lemma stuck_cycle m rem acc :
  groups_inv m rem acc → rem ≠ [] →
  filter (λ n, deg m n = 0) (order rem) = [] →
  has_cycle edges.
Proof.
  intros [Hnd Hperm Hdeg _ _] Hne Hnil.
  assert (Hndr : NoDup rem) by (by apply NoDup_app in Hnd as (_ & _ & ?)).
  destruct (find_cycle_spec graph rem Hne) as (c & _ & Hshape & Hchain & _).
  - intros x Hx.
    assert (Hpos : 0 < indeg E (concat acc) x).
    { assert (Hnz : deg m x ≠ 0).
      { intros Hz. assert (Hin : x ∈ filter (λ n, deg m n = 0) (order rem)).
        { apply list_elem_of_filter. split; [done|]. by rewrite (set_iter_perm order rem Hndr). }
        rewrite Hnil in Hin. by apply elem_of_nil in Hin. }
      rewrite Hdeg in Hnz. unfold indeg in *. lia. }
    apply indeg_pos in Hpos as (u & Huv & Hu). exists u. split.
    + destruct (endpoints_ids nodes edges wf u x Huv) as [Hin _].
      fold ids in Hin. rewrite <- Hperm in Hin. apply elem_of_app in Hin as [?|?]; done.
    + unfold arc. rewrite graph_adj. by apply elem_of_succs.
  - exists c. split; [done|]. eapply chain_impl; [|exact Hchain].
    intros a b Hab. unfold arc in Hab. rewrite graph_adj in Hab.
    by apply elem_of_pairs, elem_of_succs.
Qed.

Lemma groups_step m rem acc :
  groups_inv m rem acc →
  let level := filter (λ n, deg m n = 0) (order rem) in
  level ≠ [] →
  groups_inv (foldl (leave graph) (rem, m) level).2
             (foldl (leave graph) (rem, m) level).1 (acc ++ [level]) ∧
  (length (foldl (leave graph) (rem, m) level).1 < length rem)%nat.
Proof.
  intros [Hnd Hperm Hdeg Hord Hne] level Hlevel.
  assert (Hndr : NoDup rem) by (by apply NoDup_app in Hnd as (_ & _ & ?)).
  assert (Hin_level : ∀ x, x ∈ level ↔ deg m x = 0 ∧ x ∈ rem).
  { intros x. unfold level. rewrite list_elem_of_filter.
    by rewrite (set_iter_perm order rem Hndr). }
  assert (Hnd_level : NoDup level).
  { apply NoDup_filter. by rewrite (set_iter_perm order rem Hndr). }
  assert (Hout : ∀ x, x ∈ level → x ∉ concat acc).
  { intros x Hx Hin. apply Hin_level in Hx as [_ Hx].
    apply NoDup_app in Hnd as (_ & Hd & _). by apply (Hd x). }
  destruct (leave_fold level rem m (concat acc) Hdeg Hnd_level Hout) as [Hrem Hm].
  assert (Hsplit : level ++ filter (λ n, n ∉ level) rem ≡ₚ rem).
  { etrans; [|apply (filter_app_complement (λ n, deg m n = 0) rem)].
    apply Permutation_app.
    - unfold level. by rewrite (set_iter_perm order rem Hndr).
    - erewrite (filter_ext_elem (λ n, n ∉ level)); [done|].
      intros x Hx. rewrite Hin_level. tauto. }
  split.
  - rewrite Hrem. constructor.
    + rewrite concat_snoc, <- app_assoc. by rewrite Hsplit.
    + rewrite concat_snoc, <- app_assoc. by rewrite Hsplit.
    + intros v. rewrite Hm. by rewrite concat_snoc.
    + intros u v j Huv Hv. apply level_of_snoc in Hv as [Hv|[-> Hv]].
      * destruct (Hord u v j Huv Hv) as (i & Hi & Hij). exists i. split; [|done].
        by apply level_of_app_l.
      * apply Hin_level in Hv as [Hz _]. rewrite Hdeg in Hz.
        pose proof (indeg_zero E (concat acc) v u Hz Huv) as Hu.
        apply elem_of_concat_level in Hu as [i Hi]. exists i. split.
        -- by apply level_of_app_l.
        -- by apply level_of_lt in Hi.
    + apply Forall_app. split; [done|]. by constructor.
  - rewrite Hrem. apply Permutation_length in Hsplit. rewrite length_app in Hsplit.
    destruct level; [done|]. simpl in Hsplit. lia.
Qed.

Lemma groups_loop_spec fuel : ∀ m rem acc,
  groups_inv m rem acc → (length rem ≤ fuel)%nat →
  match groups_loop order fuel graph m rem acc with
  | Ok groups => ∃ m', groups_inv m' [] groups
  | Err CycleWhileGrouping => has_cycle edges
  | Err (MissingKey _) => False
  | OutOfFuel => False
  end.
Proof.
  induction fuel as [|fuel IH]; intros m rem acc Hinv Hlen.
  - destruct rem; [|simpl in Hlen; lia]. simpl. by exists m.
  - destruct rem as [|x rem'] eqn:Hrem; [simpl; by exists m|]. rewrite <- Hrem in *.
    assert (Hne : rem ≠ []) by (by rewrite Hrem).
    replace (groups_loop order (S fuel) graph m rem acc) with
      (match filter (λ node_id, deg m node_id = 0) (order rem) with
       | [] => Err CycleWhileGrouping
       | _ :: _ =>
           let st := foldl (leave graph) (rem, m)
                       (filter (λ node_id, deg m node_id = 0) (order rem)) in
           groups_loop order fuel graph st.2 st.1
             (acc ++ [filter (λ node_id, deg m node_id = 0) (order rem)])
       end) by (by rewrite Hrem).
    destruct (filter (λ node_id, deg m node_id = 0) (order rem)) as [|l0 level'] eqn:Hlevel.
    + by apply (stuck_cycle m rem acc).
    + rewrite <- Hlevel. cbv zeta.
      destruct (groups_step m rem acc Hinv) as [Hinv' Hlt]; [by rewrite Hlevel|].
      apply IH; [done|lia].
Qed.

(** The groups of a finished run have no cycle among them. *)
Lemma groups_acyclic m groups : groups_inv m [] groups → ¬ has_cycle edges.
Proof.
  intros [Hnd Hperm _ Hord _] (c & (u & mid & ->) & Hchain).
  rewrite app_nil_r in Hnd, Hperm.
  set (T := λ x y, ∃ i j, level_of groups x i ∧ level_of groups y j ∧ (i < j)%nat).
  assert (HT : T u u).
  { apply (chain_trans T mid u u).
    - intros x y z (i & j & Hi & Hj & Hij) (j' & k & Hj' & Hk & Hjk).
      assert (j = j') as -> by (by apply (level_of_unique groups y)).
      exists i, k. split; [done|]. split; [done|lia].
    - eapply chain_impl; [|exact Hchain]. intros a b Hab.
      apply elem_of_pairs in Hab.
      destruct (endpoints_ids nodes edges wf a b Hab) as [_ Hb].
      fold ids in Hb. rewrite <- Hperm in Hb. apply elem_of_concat_level in Hb as [j Hj].
      destruct (Hord a b j Hab Hj) as (i & Hi & Hij). by exists i, j. }
  destruct HT as (i & j & Hi & Hj & Hij).
  assert (i = j) by (by apply (level_of_unique groups u)). lia.
Qed.

End Loop.

Lemma find_execution_groups_spec (order : SetOrder) nodes edges :
  well_formed nodes edges →
  match find_execution_groups order nodes edges with
  | Ok groups =>
      ¬ has_cycle edges ∧ NoDup (concat groups) ∧
      concat groups ≡ₚ declared_ids nodes ∧
      Forall (λ g, g ≠ []) groups ∧
      ∀ u v, edge_rel edges u v →
        ∃ i j, level_of groups u i ∧ level_of groups v j ∧ (i < j)%nat
  | Err CycleWhileGrouping => has_cycle edges
  | Err (MissingKey _) => False
  | OutOfFuel => False
  end.
Proof.
  intros wf. pose proof wf as (Hsome & Hnd & Hres).
  unfold find_execution_groups.
  pose proof (mapM_node_id nodes) as Hm.
  destruct (mapM node_id nodes) as [ids|]; [|done]. destruct Hm as [_ ->].
  rewrite (set_of_list_NoDup _ Hnd).
  destruct (group_edges_ok (declared_ids nodes) edges ∅
              (foldl (λ m nid, <[nid := 0]> m) ∅ (order (declared_ids nodes))) Hres)
    as (graph & m & -> & Hg & Hdeg).
  assert (Hgraph : ∀ u, adj graph u = succs u (pairs edges)) by (intros u; by rewrite Hg).
  assert (Hinv0 : groups_inv nodes edges m (declared_ids nodes) []).
  { constructor; simpl.
    - done.
    - done.
    - intros v. rewrite Hdeg, deg_init. unfold deg at 1. rewrite lookup_empty. simpl.
      replace (if decide (v ∈ order (declared_ids nodes)) then 0 else 0) with 0
        by (by case_decide).
      unfold indeg. rewrite Z.add_0_l. do 2 f_equal. apply list_filter_iff.
      intros [a b]. simpl. split; [intros ->; split; [done|apply not_elem_of_nil]|by intros [? _]].
    - intros u v j _ (g & Hj & _). done.
    - constructor. }
  pose proof (groups_loop_spec order nodes edges wf graph Hgraph
                (length (declared_ids nodes)) m (declared_ids nodes) [] Hinv0) as Hloop.
  destruct (groups_loop order _ graph m (declared_ids nodes) []) as [groups|[k|]|];
    try (by apply Hloop).
  destruct Hloop as [m' Hinv]; [done|].
  split; [by apply (groups_acyclic nodes edges wf m' groups)|].
  destruct Hinv as [Hnd' Hperm _ Hord Hne]. rewrite app_nil_r in Hnd', Hperm.
  split; [done|]. split; [done|]. split; [done|].
  intros u v Huv. apply elem_of_pairs in Huv.
  destruct (endpoints_ids nodes edges wf u v Huv) as [_ Hv].
  rewrite <- Hperm in Hv. apply elem_of_concat_level in Hv as [j Hj].
  destruct (Hord u v j Huv Hj) as (i & Hi & Hij). by exists i, j.
Qed.

End GroupFacts.

Section GroupProperties.
Import DagUtil Graph Samples.

(** X4.  On a flow that forms a graph, [find_execution_groups] returns
    exactly when the graph has no directed cycle and raises [DAGCycleError]
    otherwise.  The groups it returns are non-empty, hold every declared
    node once, and every edge leads from a group to a strictly later one, so
    the nodes of one group do not depend on each other. *)
Theorem X4_execution_groups (order : SetOrder) (nodes : list Node) (edges : list Edge) :
  well_formed nodes edges →
  match find_execution_groups order nodes edges with
  | Ok groups =>
      ¬ has_cycle edges ∧ NoDup (concat groups) ∧
      concat groups ≡ₚ declared_ids nodes ∧
      Forall (λ g, g ≠ []) groups ∧
      ∀ u v, edge_rel edges u v →
        ∃ (i j : nat) gu gv,
          groups !! i = Some gu ∧ groups !! j = Some gv ∧
          u ∈ gu ∧ v ∈ gv ∧ (i < j)%nat
  | Err CycleWhileGrouping => has_cycle edges
  | Err (MissingKey _) => False
  | OutOfFuel => False
  end.
Proof.
  intros wf. pose proof (find_execution_groups_spec order nodes edges wf) as Hspec.
  destruct (find_execution_groups order nodes edges) as [groups|[k|]|]; try done.
  destruct Hspec as (Hacyc & Hnd & Hperm & Hne & Hord).
  split; [done|]. split; [done|]. split; [done|]. split; [done|].
  intros u v Huv. destruct (Hord u v Huv) as (i & j & (gu & Hi & Hu) & (gv & Hj & Hv) & Hij).
  by exists i, j, gu, gv.
Qed.

Lemma X4_witness :
  match find_execution_groups reverse_order line_nodes fork_edges with
  | Ok groups =>
      ¬ has_cycle fork_edges ∧ NoDup (concat groups) ∧
      concat groups ≡ₚ declared_ids line_nodes ∧
      Forall (λ g, g ≠ []) groups ∧
      ∀ u v, edge_rel fork_edges u v →
        ∃ (i j : nat) gu gv,
          groups !! i = Some gu ∧ groups !! j = Some gv ∧
          u ∈ gu ∧ v ∈ gv ∧ (i < j)%nat
  | Err CycleWhileGrouping => has_cycle fork_edges
  | Err (MissingKey _) => False
  | OutOfFuel => False
  end.
Proof.
  apply (X4_execution_groups reverse_order line_nodes fork_edges).
  apply line_well_formed. repeat constructor; set_solver.
Defined.

(** The fork A -> C, A -> B has two groups, and the ring has none. *)
Example fork_groups :
  find_execution_groups reverse_order line_nodes fork_edges = Ok [["A"]; ["C"; "B"]] ∧
  find_execution_groups insertion_order line_nodes ring_edges = Err CycleWhileGrouping.
Proof. split; reflexivity. Qed.

End GroupProperties.

(** * Further properties of the flow executor *)

Section ExecutorMoreFacts.
Import DagUtil Graph FlowExecutor.

(** What each outcome of the constructor says about the flow. *)
Lemma init_outcomes (order : SetOrder) (fj : FlowJson) (uctx : dict) :
  match __init__ order fj uctx with
  | Ok ex =>
      ∃ ns es, flow_nodes fj = Some ns ∧ flow_edges fj = Some es ∧
        ns ≠ [] ∧ valid_flow ns es ∧
        nodes ex = ns ∧ edges ex = es ∧ user_context ex = uctx ∧
        NoDup (execution_order ex) ∧ execution_order ex ≡ₚ declared_ids ns ∧
        ∀ u v, edge_rel es u v → before (execution_order ex) u v
  | Err (MissingRequiredField field) =>
      (field = "nodes" ∧ flow_nodes fj = None) ∨
      (field = "edges" ∧ flow_nodes fj ≠ None ∧ flow_edges fj = None)
  | Err (InvalidDagStructure _) =>
      ∃ ns es, flow_nodes fj = Some ns ∧ flow_edges fj = Some es ∧
        ¬ (ns ≠ [] ∧ valid_flow ns es)
  | Err (OrderNotDetermined _) => False
  | OutOfFuel => False
  end.
Proof.
  unfold __init__, _validate_flow_json.
  destruct (flow_nodes fj) as [ns|]; [|by left].
  destruct (flow_edges fj) as [es|]; [|by right]. simpl.
  destruct (validate_dag_structure_spec order ns es) as (verdict & -> & Hiff).
  destruct verdict as [why|].
  - exists ns, es. split; [done|]. split; [done|]. intros Hv. by apply Hiff in Hv.
  - destruct Hiff as [Hiff _]. destruct Hiff as [Hne Hvalid]; [done|].
    destruct (sort_valid order ns es Hvalid) as (result & -> & Hnd & Hperm & Hord).
    exists ns, es. simpl. done.
Qed.

Lemma build_node_map_fold nodes i : ∀ m : gmap string Node,
  i ∉ declared_ids nodes →
  foldl (λ m node, match node_id node with Some i => <[i := node]> m | None => m end)
        m nodes !! i = m !! i.
Proof.
  induction nodes as [|n nodes IH]; intros m Hi; [done|].
  cbn [foldl]. unfold declared_ids in Hi. simpl in Hi.
  destruct (node_id n) as [k|] eqn:Hk; simpl in Hi.
  - apply not_elem_of_cons in Hi as [Hne Hi]. rewrite IH by done.
    by rewrite lookup_insert_ne.
  - by apply IH.
Qed.

Lemma build_node_map_lookup nodes node i :
  NoDup (declared_ids nodes) → node ∈ nodes → node_id node = Some i →
  build_node_map nodes !! i = Some node.
Proof.
  unfold build_node_map. generalize (∅ : gmap string Node).
  induction nodes as [|n nodes IH]; intros m Hnd Hin Hi; [by apply elem_of_nil in Hin|].
  cbn [foldl]. unfold declared_ids in Hnd. simpl in Hnd.
  apply elem_of_cons in Hin as [->|Hin].
  - rewrite Hi in *. simpl in Hnd. apply NoDup_cons in Hnd as [Hout _].
    rewrite build_node_map_fold by done. by rewrite lookup_insert_eq.
  - destruct (node_id n) as [k|]; simpl in Hnd.
    + apply NoDup_cons in Hnd as [_ Hnd]. by apply IH.
    + by apply IH.
Qed.

Lemma build_node_map_is_Some nodes i :
  NoDup (declared_ids nodes) → i ∈ declared_ids nodes →
  ∃ node, build_node_map nodes !! i = Some node ∧ node ∈ nodes ∧ node_id node = Some i.
Proof.
  intros Hnd Hi. unfold declared_ids in Hi. apply list_elem_of_omap in Hi as (node & Hin & Hid).
  exists node. split; [|done]. by apply build_node_map_lookup.
Qed.

(** What a successful [_execute_node] does to the context. *)
Lemma execute_node_ok rt ex nid ctx ctx' :
  _execute_node rt ex nid ctx = Ok ctx' →
  (runs ex nid ∧ ∃ result, ctx' = add_node_output ctx nid result) ∨
  (¬ runs ex nid ∧ ctx' = ctx).
Proof.
  unfold _execute_node, runs. destruct (node_map ex !! nid) as [node|]; [|done].
  case_decide as Hskip.
  - intros [= <-]. right. split; [|done]. intros Hr. done.
  - destruct (create_node_instance rt node) as [inst|]; [|done].
    destruct (ainvoke rt inst _) as [result|]; [|done].
    intros [= <-]. left. split; [done|]. by exists result.
Qed.

Lemma execute_node_not_fuel rt ex nid ctx : _execute_node rt ex nid ctx ≠ OutOfFuel.
Proof.
  unfold _execute_node. destruct (node_map ex !! nid) as [node|]; [|done].
  case_decide; [done|]. destruct (create_node_instance rt node) as [inst|]; [|done].
  by destruct (ainvoke rt inst _).
Qed.

Lemma execute_nodes_log rt ex todo : ∀ ctx ctx',
  execute_nodes rt ex todo ctx = Ok ctx' →
  execution_log ctx' = execution_log ctx ++ filter (runs ex) todo ∧
  global_variables ctx' = global_variables ctx ∧
  (NoDup ((node_outputs ctx).*1 ++ todo) →
   (node_outputs ctx').*1 = (node_outputs ctx).*1 ++ filter (runs ex) todo).
Proof.
  induction todo as [|nid todo IH]; intros ctx ctx' Hrun.
  - simpl in Hrun. injection Hrun as <-. by rewrite !app_nil_r.
  - cbn [execute_nodes] in Hrun.
    destruct (_execute_node rt ex nid ctx) as [ctx1| |] eqn:Hnode; [|done|done].
    destruct (IH ctx1 ctx' Hrun) as (Hlog & Hglob & Hout).
    rewrite filter_cons.
    apply execute_node_ok in Hnode as [[Hr [result ->]]|[Hr ->]].
    + rewrite decide_True by done. simpl in *. rewrite Hlog, Hglob.
      split; [by rewrite <- app_assoc|]. split; [done|].
      intros Hnd.
      assert (Hnone : dict_get nid (node_outputs ctx) = None).
      { apply dict_get_None. apply NoDup_app in Hnd as (_ & Hd & _).
        intros Hin. apply (Hd nid Hin). left. }
      rewrite dict_set_keys_absent in Hout by done. rewrite fmap_app in Hout. simpl in Hout.
      rewrite Hout; [by rewrite <- app_assoc|].
      rewrite <- app_assoc. simpl. exact Hnd.
    + rewrite decide_False by done. split; [done|]. split; [done|].
      intros Hnd. apply Hout. apply NoDup_app in Hnd as (H1 & H2 & H3).
      apply NoDup_cons in H3 as [_ H3]. apply NoDup_app. split; [done|]. split; [|done].
      intros x Hx Hin. apply (H2 x Hx). by right.
Qed.

Lemma before_filter (P : string → Prop) `{∀ x, Decision (P x)} l u v :
  before l u v → P u → P v → before (filter P l) u v.
Proof.
  intros (i & j & Hi & Hj & Hij) Hu Hv.
  rewrite <- (take_drop_middle l i u Hi).
  assert (Hv' : drop (S i) l !! (j - S i)%nat = Some v).
  { rewrite lookup_drop. rewrite <- Hj. f_equal. lia. }
  assert (Hvin : v ∈ filter P (drop (S i) l)).
  { apply list_elem_of_filter. split; [done|]. by eapply list_elem_of_lookup_2. }
  apply list_elem_of_lookup in Hvin as [k Hk].
  rewrite filter_app, filter_cons, decide_True by done.
  exists (length (filter P (take i l))), (length (filter P (take i l)) + S k)%nat.
  split; [|split; [|lia]].
  - rewrite lookup_app_r by lia. by rewrite Nat.sub_diag.
  - rewrite lookup_app_r by lia.
    replace (length (filter P (take i l)) + S k - length (filter P (take i l)))%nat
      with (S k) by lia. done.
Qed.

Lemma preds_nil_iff edges v :
  preds v (pairs edges) = [] ↔ ∀ u, ¬ edge_rel edges u v.
Proof.
  split.
  - intros Hnil u Huv. apply elem_of_pairs, elem_of_preds in Huv.
    rewrite Hnil in Huv. by apply elem_of_nil in Huv.
  - intros Hno. destruct (preds v (pairs edges)) as [|u l] eqn:Hp; [done|exfalso].
    apply (Hno u). apply elem_of_pairs, elem_of_preds. rewrite Hp. left.
Qed.

Lemma is_source_preds ids edges v :
  Forall (resolved ids) edges →
  preds v (pairs edges) = [] ↔ is_source edges v.
Proof.
  intros Hres. rewrite preds_nil_iff. unfold is_source. rewrite !Forall_forall in *. split.
  - intros Hno e He Ht. destruct (Hres e He) as (u & t & Hu & _).
    apply (Hno u). by exists e.
  - intros Hall u (e & He & _ & Ht). by apply (Hall e He).
Qed.

Lemma succs_nil_iff edges u :
  succs u (pairs edges) = [] ↔ ∀ v, ¬ edge_rel edges u v.
Proof.
  split.
  - intros Hnil v Huv. apply elem_of_pairs, elem_of_succs in Huv.
    rewrite Hnil in Huv. by apply elem_of_nil in Huv.
  - intros Hno. destruct (succs u (pairs edges)) as [|v l] eqn:Hp; [done|exfalso].
    apply (Hno v). apply elem_of_pairs, elem_of_succs. rewrite Hp. left.
Qed.

(** A node whose type is neither registered nor a utility type stops every
    run of the node loop that reaches it. *)
Lemma execute_nodes_unknown rt ex nid node todo : ∀ ctx,
  node_map ex !! nid = Some node →
  default "" (node_type node) ∉ skip_types →
  default "" (node_type node) ∉ registry_types →
  nid ∈ todo →
  ∃ e, execute_nodes rt ex todo ctx = Err e.
Proof.
  intros ctx Hmap Hskip Hreg. revert ctx.
  induction todo as [|n todo IH]; intros ctx Hin; [by apply elem_of_nil in Hin|].
  cbn [execute_nodes].
  destruct (decide (n = nid)) as [->|Hne].
  - unfold _execute_node. rewrite Hmap. rewrite decide_False by done.
    unfold create_node_instance.
    destruct (node_id node), (node_type node) as [ty|]; simpl in *; try by eexists.
    rewrite decide_False by done. by eexists.
  - apply elem_of_cons in Hin as [?|Hin]; [done|].
    destruct (_execute_node rt ex n ctx) as [ctx1|e|] eqn:Hnode.
    + by apply IH.
    + by eexists.
    + by apply execute_node_not_fuel in Hnode.
Qed.

Lemma dict_get_update_absent {V} k (d o : list (string * V)) :
  k ∉ o.*1 → dict_get k (dict_update d o) = dict_get k d.
Proof.
  unfold dict_update. revert d. induction o as [|[k' v'] o IH]; intros d Hk; [done|].
  simpl in *. apply not_elem_of_cons in Hk as [Hne Hk]. rewrite IH by done.
  rewrite dict_get_set. by rewrite decide_False.
Qed.

Lemma key_of_StrKey k s : key_of k = StrKey s → k = VStr s.
Proof. destruct k; simpl; congruence. Qed.

Lemma bind_keeps k0 v0 d d' k v :
  bind k0 v0 d = Some d' → dict_get k d = Some v → k0 ≠ VStr k →
  dict_get k d' = Some v.
Proof.
  unfold bind. intros Hb Hk Hne.
  destruct (key_of k0) as [s| |] eqn:Hkey; [| |done]; injection Hb as <-; [|done].
  apply key_of_StrKey in Hkey as ->. rewrite dict_get_set.
  rewrite decide_False; [done|]. congruence.
Qed.

Lemma update_pairs_keeps items k v : ∀ d d',
  update_pairs d items = Some d' → dict_get k d = Some v →
  k ∉ update_keys (VList items) → dict_get k d' = Some v.
Proof.
  induction items as [|item items IH]; intros d d' Hu Hk Hw.
  - simpl in Hu. by injection Hu as <-.
  - cbn [update_pairs] in Hu. cbn [update_keys omap list_omap] in *.
    destruct (as_pair item) as [[k0 v0]|] eqn:Hpair; [|done].
    destruct (bind k0 v0 d) as [d1|] eqn:Hb; [|done].
    apply (IH d1 d' Hu).
    + apply (bind_keeps k0 v0 d); [done|done|]. intros ->.
      apply Hw. left.
    + intros Hin. apply Hw. destruct k0; try done. by right.
Qed.

Lemma py_update_keeps other d d' k v :
  py_update d other = Some d' → dict_get k d = Some v →
  k ∉ update_keys other → dict_get k d' = Some v.
Proof.
  destruct other as [| | |s|items|items|df]; simpl; try done.
  - case_decide; [|done]. by intros [= <-].
  - apply update_pairs_keeps.
  - intros [= <-] Hk Hw. by rewrite dict_get_update_absent.
  - case_decide; [|done]. by intros [= <-].
Qed.

Lemma process_global_node_keeps node g g' k v :
  process_global_node node g = Some g' →
  dict_get k g = Some v → ¬ writes node k → dict_get k g' = Some v.
Proof.
  unfold process_global_node, writes. intros Hp Hk Hw.
  assert (Hty : ∀ ty, default "" (node_type node) = ty → ty ≠ "" →
                      node_type node = Some ty).
  { intros ty Hd Hne. destruct (node_type node); simpl in Hd; by subst. }
  case_decide as H1.
  { apply Hty in H1; [|done].
    apply (py_update_keeps _ g g' k v Hp Hk). intros Hin. apply Hw. by left. }
  case_decide as H2.
  { destruct (truthy _); [|by injection Hp as <-].
    destruct (key_of _) as [s| |]; [| |done]; injection Hp as <-; [|done].
    unfold dict_setdefault.
    destruct (dict_get s g) eqn:Hn; [done|].
    rewrite dict_get_set. case_decide as Heq; [|done]. subst. congruence. }
  case_decide as H3; [|by injection Hp as <-].
  apply Hty in H3; [|done].
  destruct (truthy _ && _); [|by injection Hp as <-].
  apply (bind_keeps _ _ g g' k v Hp Hk). intros Heq. apply Hw. right. split; [done|].
  destruct (dict_get "variable_name" _) as [name|]; simpl in Heq; [by subst|done].
Qed.

Lemma process_global_nodes_keeps nodes k v : ∀ g g',
  _process_global_nodes nodes g = Some g' →
  dict_get k g = Some v → Forall (λ node, ¬ writes node k) nodes →
  dict_get k g' = Some v.
Proof.
  induction nodes as [|node nodes IH]; intros g g' Hp Hk Hw.
  - simpl in Hp. by injection Hp as <-.
  - simpl in Hp. apply Forall_cons in Hw as [Hw Hws].
    destruct (process_global_node node g) as [g1|] eqn:H1; [|done].
    apply (IH g1 g' Hp); [|done]. by apply (process_global_node_keeps node g).
Qed.

(** No name is unbound by [_process_global_nodes]. *)
Lemma dict_set_mono {V} k k' (v : V) (d : list (string * V)) :
  is_Some (dict_get k d) → is_Some (dict_get k (dict_set k' v d)).
Proof. rewrite dict_get_set. case_decide; [by eexists|done]. Qed.

Lemma dict_update_mono {V} k (o : list (string * V)) : ∀ d,
  is_Some (dict_get k d) → is_Some (dict_get k (dict_update d o)).
Proof.
  unfold dict_update. induction o as [|[a b] o IH]; intros d Hk; [done|].
  simpl. apply IH. by apply dict_set_mono.
Qed.

Lemma bind_mono k0 v0 d d' k :
  bind k0 v0 d = Some d' → is_Some (dict_get k d) → is_Some (dict_get k d').
Proof.
  unfold bind. destruct (key_of k0); [| |done]; intros [= <-]; [|done].
  apply dict_set_mono.
Qed.

Lemma update_pairs_mono items k : ∀ d d',
  update_pairs d items = Some d' → is_Some (dict_get k d) → is_Some (dict_get k d').
Proof.
  induction items as [|item items IH]; intros d d' Hu Hk.
  - simpl in Hu. by injection Hu as <-.
  - cbn [update_pairs] in Hu. destruct (as_pair item) as [[k0 v0]|]; [|done].
    destruct (bind k0 v0 d) as [d1|] eqn:Hb; [|done].
    apply (IH d1 d' Hu). by apply (bind_mono k0 v0 d).
Qed.

Lemma py_update_mono other d d' k :
  py_update d other = Some d' → is_Some (dict_get k d) → is_Some (dict_get k d').
Proof.
  destruct other as [| | |s|items|items|df]; simpl; try done.
  - case_decide; [|done]. by intros [= <-].
  - apply update_pairs_mono.
  - intros [= <-]. apply dict_update_mono.
  - case_decide; [|done]. by intros [= <-].
Qed.

Lemma process_global_node_mono node g g' k :
  process_global_node node g = Some g' →
  is_Some (dict_get k g) → is_Some (dict_get k g').
Proof.
  unfold process_global_node. intros Hp Hk.
  case_decide; [by apply (py_update_mono _ g g' k Hp)|].
  case_decide.
  { destruct (truthy _); [|by injection Hp as <-].
    destruct (key_of _) as [s| |]; [| |done]; injection Hp as <-; [|done].
    unfold dict_setdefault. destruct (dict_get s g); [done|]. by apply dict_set_mono. }
  case_decide; [|by injection Hp as <-].
  destruct (truthy _ && _); [|by injection Hp as <-].
  by apply (bind_mono _ _ g g' k Hp).
Qed.

Lemma process_global_nodes_mono nodes k : ∀ g g',
  _process_global_nodes nodes g = Some g' →
  is_Some (dict_get k g) → is_Some (dict_get k g').
Proof.
  induction nodes as [|node nodes IH]; intros g g' Hp Hk.
  - simpl in Hp. by injection Hp as <-.
  - simpl in Hp. destruct (process_global_node node g) as [g1|] eqn:H1; [|done].
    apply (IH g1 g' Hp). by apply (process_global_node_mono node g).
Qed.

(** A flow parameter is bound once its node has been processed. *)
Lemma flow_parameter_bound node g g' s :
  process_global_node node g = Some g' →
  node_type node = Some "maxdp_flow_parameter" →
  dict_get "parameter_name" (default [] (node_config node)) = Some (VStr s) →
  s ≠ "" →
  is_Some (dict_get s g').
Proof.
  unfold process_global_node. intros Hp Hty Hname Hs. rewrite Hty, Hname in Hp.
  cbn [default] in Hp. rewrite decide_False in Hp by done.
  rewrite decide_True in Hp by done.
  assert (Ht : String.eqb s "" = false) by (by apply String.eqb_neq).
  unfold id in Hp. cbn [truthy key_of] in Hp. rewrite Ht in Hp. cbn [negb] in Hp.
  injection Hp as <-. unfold dict_setdefault.
  destruct (dict_get s g) eqn:Hget; [by rewrite Hget|].
  rewrite dict_get_set, decide_True by done. by eexists.
Qed.

Lemma flow_parameters_bound nodes node s : ∀ g g',
  _process_global_nodes nodes g = Some g' →
  node ∈ nodes →
  node_type node = Some "maxdp_flow_parameter" →
  dict_get "parameter_name" (default [] (node_config node)) = Some (VStr s) →
  s ≠ "" →
  is_Some (dict_get s g').
Proof.
  induction nodes as [|n nodes IH]; intros g g' Hp Hin Hty Hname Hs.
  - by apply elem_of_nil in Hin.
  - simpl in Hp. destruct (process_global_node n g) as [g1|] eqn:H1; [|done].
    apply elem_of_cons in Hin as [Heq|Hin].
    + subst n. apply (process_global_nodes_mono nodes s g1 g' Hp).
      by apply (flow_parameter_bound node g).
    + by apply (IH g1 g' Hp).
Qed.

(** Where a failure of the node loop comes from. *)
Lemma execute_nodes_err rt ex todo e : ∀ ctx,
  (∀ nid, nid ∈ todo → is_Some (node_map ex !! nid)) →
  execute_nodes rt ex todo ctx = Err e →
  ∃ nid node,
    nid ∈ todo ∧ node_map ex !! nid = Some node ∧
    (default "" (node_type node) ∉ skip_types) ∧
    ((e = NodeCreationFailed nid ∧ create_node_instance rt node = None) ∨
     (e = NodeFailed nid ∧ ∃ input_data, ainvoke rt node input_data = None)).
Proof.
  induction todo as [|n todo IH]; intros ctx Hmap Hrun; [done|].
  cbn [execute_nodes] in Hrun.
  destruct (_execute_node rt ex n ctx) as [ctx1|e'|] eqn:Hnode.
  - destruct (IH ctx1) as (nid & node & Hin & Hrest); [|done|].
    + intros nid Hnid. apply Hmap. by right.
    + exists nid, node. split; [by right|done].
  - injection Hrun as ->. unfold _execute_node in Hnode.
    destruct (Hmap n) as [node Hn]; [left|]. rewrite Hn in Hnode.
    case_decide as Hskip; [done|].
    exists n, node. split; [left|]. split; [done|]. split; [done|].
    destruct (create_node_instance rt node) as [inst|] eqn:Hc.
    + destruct (ainvoke rt inst _) as [result|] eqn:Hinv; [done|].
      injection Hnode as <-. right. split; [done|].
      unfold create_node_instance in Hc.
      destruct (node_id node), (node_type node); try done.
      case_decide; [|done]. destruct (construct rt node); [|done].
      injection Hc as <-. by eexists.
    + injection Hnode as <-. by left.
  - done.
Qed.

End ExecutorMoreFacts.

Section ExecutorMoreProperties.
Import DagUtil Graph FlowExecutor Samples FlowSamples MoreSamples.

(** X5.  What each outcome of the constructor [FlowExecutor.__init__] says
    about the flow.  It returns an executor exactly for a flow that has
    [nodes] and [edges], at least one node, and is valid; the execution
    order it stores lists every declared node once, the source of every
    edge before its target.  It names the missing field when one is missing
    and reports an invalid structure otherwise.  The handler around the
    second [topological_sort] is never entered: after
    [validate_dag_structure] has accepted the flow the sort does not
    raise. *)
Theorem X5_constructor_outcomes (order : SetOrder) (fj : FlowJson) (uctx : dict) :
  match __init__ order fj uctx with
  | Ok ex =>
      ∃ ns es, flow_nodes fj = Some ns ∧ flow_edges fj = Some es ∧
        ns ≠ [] ∧ valid_flow ns es ∧
        nodes ex = ns ∧ edges ex = es ∧ user_context ex = uctx ∧
        NoDup (execution_order ex) ∧ execution_order ex ≡ₚ declared_ids ns ∧
        ∀ u v, edge_rel es u v → before (execution_order ex) u v
  | Err (MissingRequiredField field) =>
      (field = "nodes" ∧ flow_nodes fj = None) ∨
      (field = "edges" ∧ flow_nodes fj ≠ None ∧ flow_edges fj = None)
  | Err (InvalidDagStructure _) =>
      ∃ ns es, flow_nodes fj = Some ns ∧ flow_edges fj = Some es ∧
        ¬ (ns ≠ [] ∧ valid_flow ns es)
  | Err (OrderNotDetermined _) => False
  | OutOfFuel => False
  end.
Proof. apply init_outcomes. Qed.

(** X6.  A run of the node loop of [execute] over the execution order of a
    built executor, started with no outputs and an empty log, that reaches
    the end has invoked exactly the nodes that are no utility nodes (trigger,
    flow parameter, set/get variable, comment), each once and in execution
    order: the log and the keys of [node_outputs] are the execution order
    without the utility nodes, a node is logged after every node it has an
    edge from, and the global variables are left as they were. *)
Theorem X6_execution_log (order : SetOrder) (fj : FlowJson) (uctx : dict)
    (ex : FlowExecutor.t) (rt : NodeRuntime) (ctx ctx' : FlowExecutionContext) :
  __init__ order fj uctx = Ok ex →
  node_outputs ctx = [] → execution_log ctx = [] →
  execute_nodes rt ex (execution_order ex) ctx = Ok ctx' →
  execution_log ctx' = filter (runs ex) (execution_order ex) ∧
  (node_outputs ctx').*1 = execution_log ctx' ∧
  NoDup (execution_log ctx') ∧
  global_variables ctx' = global_variables ctx ∧
  ∀ u v, edge_rel (edges ex) u v → runs ex u → runs ex v →
         before (execution_log ctx') u v.
Proof.
  intros Hinit Hout Hlog Hrun.
  pose proof (init_outcomes order fj uctx) as Hi. rewrite Hinit in Hi.
  destruct Hi as (ns & es & _ & _ & _ & _ & _ & <- & _ & Hnd & _ & Hord).
  destruct (execute_nodes_log rt ex _ ctx ctx' Hrun) as (Hlog' & Hglob & Hkeys).
  rewrite Hlog in Hlog'. simpl in Hlog'. rewrite Hout in Hkeys. simpl in Hkeys.
  split; [done|]. split; [by rewrite Hkeys, Hlog'|].
  split; [rewrite Hlog'; by apply NoDup_filter|]. split; [done|].
  intros u v Huv Hu Hv. rewrite Hlog'. apply before_filter; [|done|done]. by apply Hord.
Qed.

Lemma X6_witness :
  execution_log ctx_ab_done = filter (runs ex_ab) (execution_order ex_ab) ∧
  (node_outputs ctx_ab_done).*1 = execution_log ctx_ab_done ∧
  NoDup (execution_log ctx_ab_done) ∧
  global_variables ctx_ab_done = global_variables ctx_start ∧
  ∀ u v, edge_rel (edges ex_ab) u v → runs ex_ab u → runs ex_ab v →
         before (execution_log ctx_ab_done) u v.
Proof.
  apply (X6_execution_log insertion_order flow_ab [] ex_ab sample_runtime ctx_start);
    reflexivity.
Defined.

(** X7.  What [_process_global_nodes] does to the request data when it
    returns.  It leaves a value of the request alone unless a node writes
    that key: every key of the input that no trigger's [trigger_data] binds
    (as a key of the object, or as the first item of an element when it is a
    list of pairs) and no [set_get_variable] node names still carries the
    value of the request; a flow parameter never replaces it, its default is
    bound with [setdefault].  No key of the request is removed.  And the
    name of every flow parameter (a string that is not empty) is bound
    afterwards. *)
Theorem X7_request_values_kept (nodes : list Node) (input_data global_variables : dict) :
  _process_global_nodes nodes input_data = Some global_variables →
  (∀ k v, dict_get k input_data = Some v →
          Forall (λ node, ¬ writes node k) nodes →
          dict_get k global_variables = Some v) ∧
  (∀ k, is_Some (dict_get k input_data) → is_Some (dict_get k global_variables)) ∧
  (∀ node s, node ∈ nodes →
             node_type node = Some "maxdp_flow_parameter" →
             dict_get "parameter_name" (default [] (node_config node)) = Some (VStr s) →
             s ≠ "" →
             is_Some (dict_get s global_variables)).
Proof.
  intros Hp. split; [|split].
  - intros k v. by apply (process_global_nodes_keeps nodes k v input_data).
  - intros k. by apply (process_global_nodes_mono nodes k input_data).
  - intros node s. by apply (flow_parameters_bound nodes node s input_data).
Qed.

Lemma X7_witness :
  ∃ global_variables,
    _process_global_nodes [page_trigger; limit_parameter; size_parameter]
      [("limit", VStr "5")] = Some global_variables ∧
    dict_get "limit" global_variables = Some (VStr "5") ∧
    is_Some (dict_get "size" global_variables).
Proof.
  eexists. split; [reflexivity|].
  destruct (X7_request_values_kept [page_trigger; limit_parameter; size_parameter]
              [("limit", VStr "5")] _ eq_refl) as (Hkeep & _ & Hbound).
  split.
  - apply Hkeep; [reflexivity|].
    constructor; [|constructor; [|constructor; [|constructor]]].
    + intros [[_ Hin]|[Hty _]]; [|discriminate Hty].
      simpl in Hin. apply list_elem_of_singleton in Hin. discriminate Hin.
    + intros [[Hty _]|[Hty _]]; discriminate Hty.
    + intros [[Hty _]|[Hty _]]; discriminate Hty.
  - apply (Hbound size_parameter "size"); [|reflexivity|reflexivity|discriminate].
    right. right. left.
Defined.

(** A trigger whose [trigger_data] is a list of pairs writes as one whose
    [trigger_data] is an object does: the value of the request is
    replaced. *)
Example trigger_pairs_replace :
  FlowExecutor.writes limit_trigger "limit" ∧
  _process_global_nodes [limit_trigger] [("limit", VStr "5")]
    = Some [("limit", VStr "z")].
Proof. split; [left; split; [done|by left]|reflexivity]. Qed.

(** X8.  For a built executor [get_flow_info] reports as many nodes as the
    execution order is long, at least one input node and at least one
    output node.  The input nodes are the declared nodes without an
    incoming edge and they are the first nodes of the execution order; the
    output nodes are the declared nodes without an outgoing edge. *)
Theorem X8_flow_info (order : SetOrder) (fj : FlowJson) (uctx : dict)
    (ex : FlowExecutor.t) :
  __init__ order fj uctx = Ok ex →
  fi_node_count (get_flow_info ex) = length (fi_execution_order (get_flow_info ex)) ∧
  (∃ rest, fi_execution_order (get_flow_info ex)
             = fi_input_nodes (get_flow_info ex) ++ rest) ∧
  fi_input_nodes (get_flow_info ex) ≠ [] ∧
  fi_output_nodes (get_flow_info ex) ≠ [] ∧
  (∀ x, x ∈ fi_input_nodes (get_flow_info ex) ↔
        x ∈ declared_ids (nodes ex) ∧ ∀ u, ¬ edge_rel (edges ex) u x) ∧
  (∀ x, x ∈ fi_output_nodes (get_flow_info ex) ↔
        x ∈ declared_ids (nodes ex) ∧ ∀ v, ¬ edge_rel (edges ex) x v).
Proof.
  intros Hinit.
  destruct (init_inv order fj uctx ex Hinit) as (Hne & Hsort & Hem & _).
  destruct (built_has_terminal order fj uctx ex Hinit) as [Hnd Hterm].
  pose proof (sort_ok_valid order _ _ _ Hsort) as Hvalid.
  pose proof Hvalid as [wf _]. pose proof wf as (Hsome & _ & Hres).
  destruct (sort_valid order _ _ Hvalid) as (r & Hr & _ & Hperm & Hord).
  rewrite Hsort in Hr. injection Hr as <-.
  assert (Hin : ∀ x, x ∈ fi_input_nodes (get_flow_info ex) ↔
                     x ∈ declared_ids (nodes ex) ∧ ∀ u, ¬ edge_rel (edges ex) u x).
  { intros x. simpl. rewrite list_elem_of_filter, Hem.
    fold (ins (_build_edge_map (nodes ex) (edges ex)) x).
    rewrite build_edge_map_ins, preds_nil_iff, Hperm. tauto. }
  assert (Hout : ∀ x, x ∈ fi_output_nodes (get_flow_info ex) ↔
                      x ∈ declared_ids (nodes ex) ∧ ∀ v, ¬ edge_rel (edges ex) x v).
  { intros x. simpl. rewrite list_elem_of_filter, Hem.
    fold (outs (_build_edge_map (nodes ex) (edges ex)) x).
    rewrite build_edge_map_outs, succs_nil_iff, Hperm. tauto. }
  split.
  { simpl. apply Permutation_length in Hperm. rewrite Hperm.
    by rewrite declared_ids_length. }
  split.
  { destruct (sort_sources_first order _ _ _ wf Hsort) as [rest Hrest].
    exists rest. simpl. rewrite Hrest at 1. f_equal.
    rewrite Hrest, filter_app.
    assert (Hsrc : ∀ x, default [] (inputs (edge_map ex) !! x) = [] ↔
                        is_source (edges ex) x).
    { intros x. rewrite Hem.
      fold (ins (_build_edge_map (nodes ex) (edges ex)) x).
      rewrite build_edge_map_ins. by apply (is_source_preds (declared_ids (nodes ex))). }
    assert (HA : filter (λ nid, default [] (inputs (edge_map ex) !! nid) = [])
                   (filter (is_source (edges ex)) (order (declared_ids (nodes ex))))
                 = filter (is_source (edges ex)) (order (declared_ids (nodes ex)))).
    { rewrite list_filter_filter. apply list_filter_iff. intros x. rewrite Hsrc. tauto. }
    assert (HR : filter (λ nid, default [] (inputs (edge_map ex) !! nid) = []) rest = []).
    { destruct (filter _ rest) as [|x l] eqn:Hf; [done|exfalso].
      assert (Hx : x ∈ filter (λ nid, default [] (inputs (edge_map ex) !! nid) = []) rest)
        by (rewrite Hf; left).
      apply list_elem_of_filter in Hx as [Hx0 Hx]. apply Hsrc in Hx0.
      rewrite Hrest in Hnd. apply NoDup_app in Hnd as (_ & Hdisj & _).
      apply (Hdisj x); [|done]. apply list_elem_of_filter. split; [done|].
      rewrite (set_iter_perm order) by (by destruct wf as (_ & ? & _)).
      rewrite <- Hperm, Hrest. apply elem_of_app. by right. }
    by rewrite HA, HR, app_nil_r. }
  split.
  { destruct (execution_order ex) as [|z rest] eqn:Hz.
    - apply Permutation_length in Hperm. simpl in Hperm.
      rewrite declared_ids_length in Hperm by done. destruct (nodes ex); [done|].
      simpl in Hperm. lia.
    - intros Hnil. assert (Hzin : z ∈ fi_input_nodes (get_flow_info ex)).
      { apply Hin. split; [rewrite <- Hperm; left|].
        intros u Huz. destruct (Hord u z Huz) as (i & j & Hi & Hj & Hij).
        assert (j = 0%nat); [|lia].
        by apply (NoDup_lookup (z :: rest) j 0 z Hnd Hj). }
      rewrite Hnil in Hzin. by apply elem_of_nil in Hzin. }
  split; [exact Hterm|]. by split.
Qed.

Lemma X8_witness :
  fi_node_count (get_flow_info ex_ab) = length (fi_execution_order (get_flow_info ex_ab)) ∧
  (∃ rest, fi_execution_order (get_flow_info ex_ab)
             = fi_input_nodes (get_flow_info ex_ab) ++ rest) ∧
  fi_input_nodes (get_flow_info ex_ab) ≠ [] ∧
  fi_output_nodes (get_flow_info ex_ab) ≠ [] ∧
  (∀ x, x ∈ fi_input_nodes (get_flow_info ex_ab) ↔
        x ∈ declared_ids (nodes ex_ab) ∧ ∀ u, ¬ edge_rel (edges ex_ab) u x) ∧
  (∀ x, x ∈ fi_output_nodes (get_flow_info ex_ab) ↔
        x ∈ declared_ids (nodes ex_ab) ∧ ∀ v, ¬ edge_rel (edges ex_ab) x v).
Proof. apply (X8_flow_info insertion_order flow_ab []). reflexivity. Defined.

(** X9.  The constructor does not look at node types.  When a built
    executor holds a node whose type is neither a registered node type nor a
    utility type (this includes a node without [type]), every call of
    [execute] raises [FlowExecutionError], whatever the input and whatever
    the other nodes do. *)
Theorem X9_unknown_type_fails (order : SetOrder) (fj : FlowJson) (uctx : dict)
    (ex : FlowExecutor.t) (rt : NodeRuntime) (input_data : dict) (execution_id : string)
    (node : Node) :
  __init__ order fj uctx = Ok ex →
  node ∈ nodes ex →
  default "" (node_type node) ∉ skip_types →
  default "" (node_type node) ∉ registry_types →
  ∃ e, execute rt ex input_data execution_id = Err e.
Proof.
  intros Hinit Hin Hskip Hreg.
  destruct (init_inv order fj uctx ex Hinit) as (_ & Hsort & _ & Hmap).
  pose proof (sort_ok_valid order _ _ _ Hsort) as Hvalid.
  pose proof Hvalid as [(Hsome & Hndi & _) _].
  destruct (sort_valid order _ _ Hvalid) as (r & Hr & _ & Hperm & _).
  rewrite Hsort in Hr. injection Hr as <-.
  rewrite Forall_forall in Hsome. destruct (Hsome node Hin) as [nid Hid].
  unfold execute. destruct (_process_global_nodes _ _) as [g|]; [|by eexists].
  destruct (execute_nodes_unknown rt ex nid node (execution_order ex)
              {| execution_id := execution_id; global_variables := g;
                 node_outputs := []; execution_log := [] |}) as [e He]; try done.
  - rewrite Hmap. by apply build_node_map_lookup.
  - rewrite Hperm. unfold declared_ids. apply list_elem_of_omap. by exists node.
  - rewrite He. by eexists.
Qed.

Lemma X9_witness :
  ∃ e, execute sample_runtime ex_unknown [] "exec_1" = Err e.
Proof.
  apply (X9_unknown_type_fails insertion_order flow_unknown [] ex_unknown sample_runtime
           [] "exec_1" (typed "X" "maxdp_teleport")).
  - reflexivity.
  - right. left.
  - apply (bool_decide_unpack _). by vm_compute.
  - apply (bool_decide_unpack _). by vm_compute.
Defined.

(** X17.  Every failure of [execute] on a built executor has a cause in
    the flow: the global nodes could not be processed, or a declared node
    that is no utility node could not be instantiated by the factory, or the
    [ainvoke] of such a node raised.  The lookup of a node of the execution
    order in [node_map] never fails. *)
Theorem X17_failure_attribution (order : SetOrder) (fj : FlowJson) (uctx : dict)
    (ex : FlowExecutor.t) (rt : NodeRuntime) (input_data : dict) (execution_id : string) :
  __init__ order fj uctx = Ok ex →
  match execute rt ex input_data execution_id with
  | Ok _ => True
  | Err GlobalNodeFailed => _process_global_nodes (nodes ex) input_data = None
  | Err (NodeCreationFailed nid) =>
      ∃ node, node ∈ nodes ex ∧ node_id node = Some nid ∧
        (default "" (node_type node) ∉ skip_types) ∧
        create_node_instance rt node = None
  | Err (NodeFailed nid) =>
      ∃ node input_map, node ∈ nodes ex ∧ node_id node = Some nid ∧
        (default "" (node_type node) ∉ skip_types) ∧
        ainvoke rt node input_map = None
  | OutOfFuel => False
  end.
Proof.
  intros Hinit.
  destruct (init_inv order fj uctx ex Hinit) as (_ & Hsort & _ & Hmap).
  pose proof (sort_ok_valid order _ _ _ Hsort) as Hvalid.
  pose proof Hvalid as [(Hsome & Hndi & _) _].
  destruct (sort_valid order _ _ Hvalid) as (r & Hr & _ & Hperm & _).
  rewrite Hsort in Hr. injection Hr as <-.
  assert (Hlook : ∀ nid, nid ∈ execution_order ex →
            ∃ node, node_map ex !! nid = Some node ∧ node ∈ nodes ex ∧
                    node_id node = Some nid).
  { intros nid Hin. rewrite Hmap. apply build_node_map_is_Some; [done|].
    by rewrite <- Hperm. }
  unfold execute. destruct (_process_global_nodes _ _) as [g|] eqn:Hg; [|done].
  destruct (execute_nodes rt ex (execution_order ex) _) as [ctx'|e|] eqn:Hrun; [done| |].
  - apply execute_nodes_err in Hrun as (nid & node & Hin & Hn & Hskip & Hcause).
    + destruct (Hlook nid Hin) as (node' & Hn' & Hnode & Hid).
      rewrite Hn in Hn'. injection Hn' as <-.
      destruct Hcause as [[-> Hc]|[-> [input_map Hinv]]].
      * by exists node.
      * by exists node, input_map.
    + intros nid Hin. destruct (Hlook nid Hin) as (node & -> & _). by eexists.
  - exfalso. clear -Hrun. revert Hrun. generalize (execution_order ex).
    intros todo. generalize ({| execution_id := execution_id; global_variables := g;
                                node_outputs := []; execution_log := [] |}).
    induction todo as [|n todo IH]; intros ctx Hrun; [done|].
    cbn [execute_nodes] in Hrun.
    destruct (_execute_node rt ex n ctx) as [ctx1|e|] eqn:Hnode; [by apply (IH ctx1)|done|].
    by apply execute_node_not_fuel in Hnode.
Qed.

Lemma X17_witness :
  match execute sample_runtime ex_unknown [] "exec_1" with
  | Ok _ => True
  | Err GlobalNodeFailed => _process_global_nodes (nodes ex_unknown) [] = None
  | Err (NodeCreationFailed nid) =>
      ∃ node, node ∈ nodes ex_unknown ∧ node_id node = Some nid ∧
        (default "" (node_type node) ∉ skip_types) ∧
        create_node_instance sample_runtime node = None
  | Err (NodeFailed nid) =>
      ∃ node input_map, node ∈ nodes ex_unknown ∧ node_id node = Some nid ∧
        (default "" (node_type node) ∉ skip_types) ∧
        ainvoke sample_runtime node input_map = None
  | OutOfFuel => False
  end.
Proof.
  apply (X17_failure_attribution insertion_order flow_unknown [] ex_unknown sample_runtime
           [] "exec_1").
  reflexivity.
Defined.

End ExecutorMoreProperties.

(** * Further properties of the worker manager *)

Section ManagerMoreFacts.
Import WorkerManager.

Lemma filter_ext_in {A} (P Q : A → Prop) `{∀ x, Decision (P x)} `{∀ x, Decision (Q x)}
    (l : list A) :
  (∀ x, x ∈ l → (P x ↔ Q x)) → filter P l = filter Q l.
Proof.
  induction l as [|a l IH]; intros Hext; [done|].
  rewrite !filter_cons. rewrite IH by (intros x Hx; apply Hext; by right).
  destruct (decide (P a)) as [Hp|Hp], (decide (Q a)) as [Hq|Hq]; try done.
  - exfalso. apply Hq, (Hext a); [left|done].
  - exfalso. apply Hp, (Hext a); [left|done].
Qed.

Lemma filter_all {A} (P : A → Prop) `{∀ x, Decision (P x)} (l : list A) :
  Forall P l → filter P l = l.
Proof.
  induction 1 as [|a l Ha _ IH]; [done|]. rewrite filter_cons, decide_True by done.
  by rewrite IH.
Qed.

Lemma dict_pop_filter {V} k (d : list (string * V)) :
  NoDup d.*1 → dict_pop k d = filter (λ kv, kv.1 ≠ k) d.
Proof.
  induction d as [|[a b] d IH]; intros Hnd; [done|].
  simpl in Hnd. apply NoDup_cons in Hnd as [Ha Hnd]. simpl. rewrite filter_cons. simpl.
  destruct (decide (a = k)) as [->|Hne].
  - rewrite decide_False by (by intros ?). symmetry. apply filter_all.
    apply Forall_forall. intros [a' b'] Hin. simpl. intros ->. apply Ha.
    apply list_elem_of_fmap. by exists (k, b').
  - rewrite decide_True by done. by rewrite IH.
Qed.

Lemma cleanup_fold_filter {V} (ks : list string) : ∀ d : list (string * V),
  NoDup d.*1 →
  foldl (λ ws api_id, dict_pop api_id ws) d ks = filter (λ kv, kv.1 ∉ ks) d.
Proof.
  induction ks as [|k ks IH]; intros d Hnd; simpl.
  - symmetry. apply filter_all. apply Forall_forall. intros. apply not_elem_of_nil.
  - rewrite IH by (by apply dict_pop_nodup). rewrite dict_pop_filter by done.
    rewrite list_filter_filter. apply list_filter_iff. intros [a b]. simpl.
    rewrite not_elem_of_cons. tauto.
Qed.

(** [cleanup_inactive_workers] keeps exactly the entries used within the
    last two hours. *)
Lemma cleanup_spec m now :
  NoDup (active_workers m).*1 →
  active_workers (cleanup_inactive_workers m now)
    = filter (λ kv : string * WorkerInfo, now - last_used kv.2 ≤ hours 2) (active_workers m).
Proof.
  intros Hnd. unfold cleanup_inactive_workers. simpl.
  rewrite cleanup_fold_filter by done. apply filter_ext_in. intros [a w] Hin. simpl.
  change (getattr (settings m) "API_INACTIVE_TTL_HOURS" 2) with 2.
  split.
  - intros Hout. destruct (decide (now - last_used w ≤ hours 2)) as [|Hgt]; [done|].
    exfalso. apply Hout. apply list_elem_of_fmap. exists (a, w). split; [done|].
    apply list_elem_of_filter. split; [simpl; lia|done].
  - intros Hle Hexp. apply list_elem_of_fmap in Hexp as ([a' w'] & Ha & Hin').
    simpl in Ha. subst a'. apply list_elem_of_filter in Hin' as [Hgt Hin']. simpl in Hgt.
    assert (w' = w); [|subst; lia].
    apply (dict_get_elem a w') in Hin'; [|done]. apply (dict_get_elem a w) in Hin; [|done].
    congruence.
Qed.

(** A successful acquisition leaves the executor it returns in the cache. *)
Lemma acquire_ok_cached order m p u now e m' :
  get_or_create_worker order m p u now = (Ok e, m') →
  ∃ w, dict_get (api_id p) (active_workers m') = Some w ∧ executor w = e.
Proof.
  unfold get_or_create_worker.
  destruct (dict_get (api_id p) (active_workers m)) as [w|] eqn:Hget.
  - intros [= <- <-]. simpl. exists (update_usage w now 0%Q). split; [|done].
    rewrite dict_get_set. by rewrite decide_True.
  - destruct (_ensure_capacity m) as [m1| |]; [|done|done].
    destruct (_create_new_worker order m1 p u now) as [[w m2]| |]; [|done|done].
    intros [= <- <-]. simpl. exists w. split; [|done].
    rewrite dict_get_set. by rewrite decide_True.
Qed.

(** A miss that succeeds has built the executor from the context of the
    caller. *)
Lemma acquire_miss_context order m p u now e m' :
  dict_get (api_id p) (active_workers m) = None →
  get_or_create_worker order m p u now = (Ok e, m') →
  FlowExecutor.user_context (obj e) = u.
Proof.
  unfold get_or_create_worker. intros ->.
  destruct (_ensure_capacity m) as [m1| |]; [|done|done].
  unfold _create_new_worker. destruct (flow_definition p) as [fj|]; [|done].
  destruct (flow_json_falsy (Some fj)); [done|].
  pose proof (init_outcomes order fj u) as Hinit.
  destruct (FlowExecutor.__init__ order fj u) as [ex| |]; [|done|done].
  intros [= <- _]. simpl.
  by destruct Hinit as (ns & es & _ & _ & _ & _ & _ & _ & ? & _).
Qed.

(** The executors in the cache are distinct objects, all constructed
    before. *)
Definition refs (ws : list (string * WorkerInfo)) : list nat :=
  (λ kv : string * WorkerInfo, ref (executor kv.2)) <$> ws.

Record refs_inv (m : WorkerManager.t) : Prop := {
  ri_keys : NoDup (active_workers m).*1;
  ri_nodup : NoDup (refs (active_workers m));
  ri_bound : Forall (λ r, (r < constructed m)%nat) (refs (active_workers m));
}.

Lemma refs_dict_set_same k w w' (d : list (string * WorkerInfo)) :
  dict_get k d = Some w → executor w' = executor w →
  refs (dict_set k w' d) = refs d.
Proof.
  intros Hget He. unfold refs. induction d as [|[a b] d IH]; [done|].
  simpl in *. destruct (decide (a = k)) as [->|Hne]; simpl.
  - injection Hget as ->. by rewrite He.
  - f_equal. by apply IH.
Qed.

Lemma sublist_refs_inv m ws :
  refs_inv m → ws `sublist_of` active_workers m → refs_inv (with_workers m ws).
Proof.
  intros [Hk Hn Hb] Hsub. constructor; simpl.
  - eapply sublist_NoDup; [done|]. by apply fmap_sublist.
  - eapply sublist_NoDup; [done|]. by apply fmap_sublist.
  - rewrite Forall_forall in Hb. apply Forall_forall. intros x Hx. apply Hb.
    eapply elem_of_sublist; [done|]. by apply fmap_sublist.
Qed.

Lemma acquire_refs_inv order m p u now :
  refs_inv m → refs_inv (get_or_create_worker order m p u now).2.
Proof.
  intros Hinv. unfold get_or_create_worker.
  destruct (dict_get (api_id p) (active_workers m)) as [w|] eqn:Hget; simpl.
  - destruct Hinv as [Hk Hn Hb]. constructor; simpl.
    + by apply dict_set_nodup.
    + by rewrite (refs_dict_set_same _ w).
    + by rewrite (refs_dict_set_same _ w).
  - destruct Hinv as [Hk Hn Hb].
    destruct (ensure_capacity_keys m Hk) as (m1 & -> & Hs1 & Hc1 & Hsub).
    assert (Hinv1 : refs_inv m1).
    { constructor.
      - eapply sublist_NoDup; [done|]. by apply fmap_sublist.
      - eapply sublist_NoDup; [done|]. by apply fmap_sublist.
      - rewrite Hc1. rewrite Forall_forall in Hb. apply Forall_forall. intros x Hx.
        apply Hb. eapply elem_of_sublist; [done|]. by apply fmap_sublist. }
    pose proof (create_new_worker_inv order m1 p u now) as Hcreate.
    destruct (_create_new_worker order m1 p u now) as [[w m2]| |]; [|done|done].
    destruct Hcreate as (ex & -> & ->). simpl.
    destruct Hinv1 as [Hk1 Hn1 Hb1].
    assert (Hnone : dict_get (api_id p) (active_workers m1) = None).
    { apply dict_get_None. apply dict_get_None in Hget. intros Hin. apply Hget.
      eapply elem_of_sublist; [done|]. by apply fmap_sublist. }
    constructor; simpl.
    + by apply dict_set_nodup.
    + rewrite dict_set_keys_absent by done. unfold refs. rewrite fmap_app. simpl.
      apply NoDup_app. split; [done|]. split; [|apply NoDup_singleton].
      intros r Hr Hin. apply list_elem_of_singleton in Hin as ->.
      rewrite Forall_forall in Hb1. apply Hb1 in Hr. lia.
    + rewrite dict_set_keys_absent by done. unfold refs. rewrite fmap_app. simpl.
      apply Forall_app. split.
      * eapply Forall_impl; [exact Hb1|]. simpl. lia.
      * constructor; [lia|constructor].
Qed.

Lemma step_refs_inv order m o : refs_inv m → refs_inv (step order m o).
Proof.
  intros Hinv. destruct o as [p u now|now|a|]; simpl.
  - by apply acquire_refs_inv.
  - apply sublist_refs_inv; [done|]. apply cleanup_fold_sublist.
  - unfold force_remove_worker. destruct (dict_get a (active_workers m)); [|done].
    simpl. apply sublist_refs_inv; [done|]. apply dict_pop_sublist.
  - apply sublist_refs_inv; [done|]. apply sublist_nil_l.
Qed.

Lemma run_refs_inv order ops : ∀ m, refs_inv m → refs_inv (run order m ops).
Proof.
  induction ops as [|o ops IH]; intros m Hinv; [done|].
  simpl. apply IH. by apply step_refs_inv.
Qed.

Lemma reachable_refs_inv order m : reachable order m → refs_inv m.
Proof.
  intros (s & ops & ->). apply run_refs_inv. constructor; simpl; constructor.
Qed.

Lemma list_min_le_max (l : list Z) :
  match list_min_Z l, list_max_Z l with
  | Some lo, Some hi => lo ≤ hi
  | None, None => l = []
  | _, _ => False
  end.
Proof.
  destruct l as [|x l]; simpl; [done|].
  assert (H : ∀ a b, a ≤ b → foldl Z.min a l ≤ foldl Z.max b l); [|apply H; lia].
  induction l as [|y l IH]; intros a b Hab; simpl; [done|]. apply IH. lia.
Qed.

End ManagerMoreFacts.

Section ManagerMoreProperties.
Import WorkerManager Samples FlowSamples ManagerSamples MoreSamples.

(** X10.  In every state the manager reaches, [cleanup_inactive_workers]
    called at time [now] removes exactly the workers last used more than two
    hours before [now] and keeps the others in their order, whatever the
    settings hold: the TTL is read under an attribute name the settings do
    not have, so its default of two hours is what applies.  It constructs
    nothing. *)
Theorem X10_cleanup_exact (order : SetOrder) (m : WorkerManager.t) (now : Z) :
  reachable order m →
  active_workers (cleanup_inactive_workers m now)
    = filter (λ kv : string * WorkerInfo, now - last_used kv.2 ≤ hours 2)
        (active_workers m) ∧
  constructed (cleanup_inactive_workers m now) = constructed m.
Proof.
  intros Hreach. split; [|done]. apply cleanup_spec.
  by destruct (reachable_inv order m Hreach).
Qed.

Lemma X10_witness :
  active_workers (cleanup_inactive_workers aged_state (hours 3))
    = filter (λ kv : string * WorkerInfo, hours 3 - last_used kv.2 ≤ hours 2)
        (active_workers aged_state) ∧
  constructed (cleanup_inactive_workers aged_state (hours 3)) = constructed aged_state.
Proof.
  apply (X10_cleanup_exact insertion_order aged_state (hours 3)).
  exists stock_settings, aged_trace. reflexivity.
Defined.

(** X11.  After a successful [get_or_create_worker] for an API, the next
    call for the same API returns the same executor object without
    constructing anything and without changing which APIs are cached,
    whatever user context the second caller passes.  When the first call
    built the executor, the executor carries the user context of that first
    caller. *)
Theorem X11_reuse (order : SetOrder) (m m1 : WorkerManager.t) (p : PublishedApi)
    (u u' : dict) (now now' : Z) (e : Executor) :
  get_or_create_worker order m p u now = (Ok e, m1) →
  ∃ m2, get_or_create_worker order m1 p u' now' = (Ok e, m2) ∧
        constructed m2 = constructed m1 ∧
        (active_workers m2).*1 = (active_workers m1).*1 ∧
        (dict_get (api_id p) (active_workers m) = None →
         FlowExecutor.user_context (obj e) = u).
Proof.
  intros Hacq. destruct (acquire_ok_cached order m p u now e m1 Hacq) as (w & Hw & He).
  unfold get_or_create_worker at 1. rewrite Hw. eexists. split; [by rewrite <- He|].
  split; [done|]. split.
  - simpl. apply dict_set_keys_present. by rewrite Hw.
  - intros Hnone. by apply (acquire_miss_context order m p u now e m1).
Qed.

Lemma X11_witness :
  ∃ e m1,
    get_or_create_worker insertion_order (initial stock_settings) (api 1) alice 10
      = (Ok e, m1) ∧
    ∃ m2, get_or_create_worker insertion_order m1 (api 1) bob 20 = (Ok e, m2) ∧
          constructed m2 = constructed m1 ∧
          (active_workers m2).*1 = (active_workers m1).*1 ∧
          (dict_get (api_id (api 1)) (active_workers (initial stock_settings)) = None →
           FlowExecutor.user_context (obj e) = alice).
Proof.
  eexists _, _. split; [reflexivity|].
  apply (X11_reuse insertion_order (initial stock_settings) _ (api 1) alice bob 10 20 _).
  reflexivity.
Defined.

(** X12.  In every state the manager reaches, no two cached workers share
    an executor object, and every cached executor was constructed by the
    manager earlier. *)
Theorem X12_executors_distinct (order : SetOrder) (m : WorkerManager.t) :
  reachable order m →
  NoDup ((λ kv : string * WorkerInfo, ref (executor kv.2)) <$> active_workers m) ∧
  Forall (λ kv : string * WorkerInfo, (ref (executor kv.2) < constructed m)%nat)
    (active_workers m).
Proof.
  intros Hreach. destruct (reachable_refs_inv order m Hreach) as [_ Hn Hb].
  split; [done|]. unfold refs in Hb. by rewrite Forall_fmap in Hb.
Qed.

Lemma X12_witness :
  NoDup ((λ kv : string * WorkerInfo, ref (executor kv.2)) <$> active_workers aged_state) ∧
  Forall (λ kv : string * WorkerInfo, (ref (executor kv.2) < constructed aged_state)%nat)
    (active_workers aged_state).
Proof.
  apply (X12_executors_distinct insertion_order aged_state).
  exists stock_settings, aged_trace. reflexivity.
Defined.

(** X13.  In every state the manager reaches, [force_remove_worker]
    answers [True] exactly when the API is cached, and afterwards the API is
    not cached while every other entry is where it was.  The next successful
    acquisition for that API does not hand out an executor that was cached
    before: it constructs a new one. *)
Theorem X13_force_remove_then_rebuild (order : SetOrder) (m : WorkerManager.t)
    (p : PublishedApi) (u : dict) (now : Z) (e : Executor) (m2 : WorkerManager.t) :
  reachable order m →
  get_or_create_worker order (force_remove_worker m (api_id p)).2 p u now = (Ok e, m2) →
  ((force_remove_worker m (api_id p)).1 = true ↔ api_id p ∈ (active_workers m).*1) ∧
  active_workers (force_remove_worker m (api_id p)).2
    = filter (λ kv : string * WorkerInfo, kv.1 ≠ api_id p) (active_workers m) ∧
  constructed m2 = S (constructed m) ∧
  Forall (λ kv : string * WorkerInfo, ref (executor kv.2) ≠ ref e) (active_workers m).
Proof.
  intros Hreach Hacq. destruct (reachable_refs_inv order m Hreach) as [Hk Hn Hb].
  assert (Hrm : active_workers (force_remove_worker m (api_id p)).2
                  = filter (λ kv : string * WorkerInfo, kv.1 ≠ api_id p) (active_workers m)
                ∧ constructed (force_remove_worker m (api_id p)).2 = constructed m
                ∧ settings (force_remove_worker m (api_id p)).2 = settings m
                ∧ ((force_remove_worker m (api_id p)).1 = true
                   ↔ api_id p ∈ (active_workers m).*1)).
  { unfold force_remove_worker.
    destruct (dict_get (api_id p) (active_workers m)) as [w|] eqn:Hget; simpl.
    - split; [by apply dict_pop_filter|]. split; [done|]. split; [done|].
      split; [|done]. intros _. apply dict_get_Some_elem in Hget.
      apply list_elem_of_fmap. by exists (api_id p, w).
    - split; [|split; [done|split; [done|]]].
      + symmetry. apply filter_all. apply Forall_forall. intros [a w] Hin. simpl.
        intros ->. apply dict_get_None in Hget. apply Hget.
        apply list_elem_of_fmap. by exists (api_id p, w).
      + split; [done|]. intros Hin. by apply dict_get_None in Hget. }
  destruct Hrm as (Hws & Hc & _ & Hans).
  set (m1 := (force_remove_worker m (api_id p)).2) in *.
  assert (Hnone : dict_get (api_id p) (active_workers m1) = None).
  { apply dict_get_None. rewrite Hws. intros Hin.
    apply list_elem_of_fmap in Hin as ([a w] & Ha & Hin). simpl in Ha. subst a.
    by apply list_elem_of_filter in Hin as [Hne _]. }
  assert (Hk1 : NoDup (active_workers m1).*1).
  { rewrite Hws. eapply sublist_NoDup; [exact Hk|]. apply fmap_sublist, sublist_filter. }
  split; [done|]. split; [done|].
  unfold get_or_create_worker in Hacq. rewrite Hnone in Hacq.
  destruct (ensure_capacity_keys m1 Hk1) as (m1' & Hens & _ & Hc1 & _).
  rewrite Hens in Hacq.
  pose proof (create_new_worker_inv order m1' p u now) as Hcreate.
  destruct (_create_new_worker order m1' p u now) as [[w m2']| |]; [|done|done].
  destruct Hcreate as (ex & -> & ->). injection Hacq as <- <-. simpl.
  split; [congruence|]. unfold refs in Hb. rewrite Forall_fmap in Hb.
  eapply Forall_impl; [exact Hb|]. simpl. intros kv Hlt. rewrite Hc1, Hc. lia.
Qed.

Lemma X13_witness :
  ∃ e m2,
    get_or_create_worker insertion_order (force_remove_worker aged_state (api_id (api 1))).2
      (api 1) [] (hours 4) = (Ok e, m2) ∧
    ((force_remove_worker aged_state (api_id (api 1))).1 = true
       ↔ api_id (api 1) ∈ (active_workers aged_state).*1) ∧
    active_workers (force_remove_worker aged_state (api_id (api 1))).2
      = filter (λ kv : string * WorkerInfo, kv.1 ≠ api_id (api 1))
          (active_workers aged_state) ∧
    constructed m2 = S (constructed aged_state) ∧
    Forall (λ kv : string * WorkerInfo, ref (executor kv.2) ≠ ref e)
      (active_workers aged_state).
Proof.
  eexists _, _. split; [reflexivity|].
  apply (X13_force_remove_then_rebuild insertion_order aged_state (api 1) [] (hours 4) _ _).
  - exists stock_settings, aged_trace. reflexivity.
  - reflexivity.
Defined.

(** X14.  In every state the manager reaches, [get_manager_stats] counts
    at most fifty workers, estimates fifty megabytes for each, counts no more
    recently used workers than workers, and reports the two ages together:
    both are [None] exactly when the cache is empty, and otherwise the oldest
    worker is at least as old as the newest. *)
Theorem X14_manager_stats (order : SetOrder) (m : WorkerManager.t) (now : Z) :
  reachable order m →
  (ms_total_workers (get_manager_stats m now) ≤ 50)%nat ∧
  ms_total_workers (get_manager_stats m now) = length (active_workers m) ∧
  (ms_memory_usage_estimate (get_manager_stats m now)
     = ms_total_workers (get_manager_stats m now) * 50)%nat ∧
  (ms_active_in_last_hour (get_manager_stats m now)
     ≤ ms_total_workers (get_manager_stats m now))%nat ∧
  match ms_oldest_worker_age (get_manager_stats m now),
        ms_newest_worker_age (get_manager_stats m now) with
  | Some oldest, Some newest => newest ≤ oldest ∧ active_workers m ≠ []
  | None, None => active_workers m = []
  | _, _ => False
  end.
Proof.
  intros Hreach. destruct (reachable_inv order m Hreach) as [_ Hsize _].
  rewrite max_workers_default in Hsize. simpl.
  split; [rewrite length_fmap; lia|]. split; [by rewrite length_fmap|].
  split; [done|]. split; [apply length_filter|].
  pose proof (list_min_le_max (created_at <$> (active_workers m).*2)) as Hmm.
  destruct (list_min_Z _) as [lo|] eqn:Hmin, (list_max_Z _) as [hi|]; simpl; try done.
  - split; [lia|]. intros Hnil. by rewrite Hnil in Hmin.
  - apply fmap_nil_inv in Hmm. by apply fmap_nil_inv in Hmm.
Qed.

Lemma X14_witness :
  (ms_total_workers (get_manager_stats aged_state (hours 4)) ≤ 50)%nat ∧
  ms_total_workers (get_manager_stats aged_state (hours 4))
    = length (active_workers aged_state) ∧
  (ms_memory_usage_estimate (get_manager_stats aged_state (hours 4))
     = ms_total_workers (get_manager_stats aged_state (hours 4)) * 50)%nat ∧
  (ms_active_in_last_hour (get_manager_stats aged_state (hours 4))
     ≤ ms_total_workers (get_manager_stats aged_state (hours 4)))%nat ∧
  match ms_oldest_worker_age (get_manager_stats aged_state (hours 4)),
        ms_newest_worker_age (get_manager_stats aged_state (hours 4)) with
  | Some oldest, Some newest => newest ≤ oldest ∧ active_workers aged_state ≠ []
  | None, None => active_workers aged_state = []
  | _, _ => False
  end.
Proof.
  apply (X14_manager_stats insertion_order aged_state (hours 4)).
  exists stock_settings, aged_trace. reflexivity.
Defined.

(** X18.  Least-recently-used eviction protects the more recently used:
    when [get_or_create_worker] inserts a worker for an API that was not
    cached, a cached worker that was used strictly later than some other
    cached worker is still cached afterwards, unchanged. *)
Theorem X18_lru_keeps_recent (order : SetOrder) (m m' : WorkerManager.t)
    (p : PublishedApi) (u : dict) (now : Z) (e : Executor)
    (a b : string) (w w' : WorkerInfo) :
  reachable order m →
  dict_get (api_id p) (active_workers m) = None →
  get_or_create_worker order m p u now = (Ok e, m') →
  dict_get a (active_workers m) = Some w →
  dict_get b (active_workers m) = Some w' →
  last_used w' < last_used w →
  dict_get a (active_workers m') = Some w.
Proof.
  intros Hreach Hnone Hacq Ha Hb Hlt.
  pose proof (reachable_inv order m Hreach) as Hinv.
  pose proof (acquire_inv order m p u now Hinv) as Hinv'. rewrite Hacq in Hinv'.
  simpl in Hinv'. destruct Hinv' as [Hk' _ _]. destruct Hinv as [Hk Hsz Ht].
  destruct (acquire_miss order m p u now e m' (Build_cache_inv m Hk Hsz Ht) Hnone Hacq)
    as (kept & Hws & Hkept).
  apply dict_get_elem; [done|]. rewrite Hws. apply elem_of_app. left.
  apply dict_get_Some_elem in Ha. apply dict_get_Some_elem in Hb.
  case_decide; [by subst|].
  destruct Hkept as (pre & victim & wv & post & Hm & -> & Hpre & Hpost).
  rewrite Hm in Ha, Hb. rewrite Forall_forall in Hpre, Hpost.
  assert (Hmin : last_used wv ≤ last_used w').
  { apply elem_of_app in Hb as [Hb|Hb]; [apply Hpre in Hb; simpl in Hb; lia|].
    apply elem_of_cons in Hb as [Hb|Hb]; [injection Hb as _ ->; lia|].
    by apply Hpost in Hb. }
  apply elem_of_app in Ha as [Ha|Ha]; [apply elem_of_app; by left|].
  apply elem_of_cons in Ha as [Ha|Ha]; [injection Ha as _ ->; lia|].
  apply elem_of_app. by right.
Qed.

Lemma X18_witness :
  ∃ e m' w,
    get_or_create_worker insertion_order aged_state (api 3) [] (hours 4) = (Ok e, m') ∧
    dict_get "2" (active_workers aged_state) = Some w ∧
    dict_get "2" (active_workers m') = Some w.
Proof.
  eexists _, _, _. split; [reflexivity|]. split; [reflexivity|].
  eapply (X18_lru_keeps_recent insertion_order aged_state _ (api 3) [] (hours 4) _
           "2" "1" _ (new_worker_info {| ref := 0; obj := ex_comment |} 0)).
  - exists stock_settings, aged_trace. reflexivity.
  - reflexivity.
  - reflexivity.
  - reflexivity.
  - reflexivity.
  - by vm_compute.
Defined.

End ManagerMoreProperties.

(** * Further properties of the execution endpoint *)

Section RouterMoreFacts.
Import WorkerManager ExecuteRouter.

(** [d.update(o)] read key by key: the last binding of the key in [o], or
    else what [d] had. *)
Lemma dict_get_update_last {V} k (o : list (string * V)) : ∀ d,
  dict_get k (dict_update d o) =
    match dict_get k (dict_update [] o) with
    | Some v => Some v
    | None => dict_get k d
    end.
Proof.
  induction o as [|[k' v'] o IH] using rev_ind; intros d; [done|].
  unfold dict_update in *. rewrite !foldl_app. simpl. rewrite !dict_get_set.
  case_decide; [done|]. apply IH.
Qed.

(** The metadata written by the handler. *)
Definition metadata (request : Request) (now : Z) : value :=
  VDict [("method", VStr (method request));
         ("client_ip", VStr (default "unknown" (client_host request)));
         ("user_agent", VStr (default "unknown" (user_agent request)));
         ("timestamp", VInt now)].

(** Query parameters overridden by path parameters. *)
Definition url_layer (request : Request) (k : string) : option value :=
  match dict_get k (dict_update [] (str_items (path_params request))) with
  | Some v => Some v
  | None => dict_get k (dict_update [] (str_items (query_params request)))
  end.

Lemma url_data_get request k :
  dict_get k (dict_update (dict_update [] (dict_update [] (str_items (query_params request))))
                (str_items (path_params request)))
  = url_layer request k.
Proof.
  unfold url_layer. rewrite dict_get_update_last.
  destruct (dict_get k (dict_update [] (str_items (path_params request)))); [done|].
  rewrite dict_get_update by (apply dict_update_nodup; constructor).
  by destruct (dict_get k (dict_update [] (str_items (query_params request)))).
Qed.

Lemma parse_request_data_cases request now :
  (_parse_request_data request now = [] ∧ form request = None) ∨
  ∃ request_data,
    parse_body request
      (dict_update (dict_update [] (dict_update [] (str_items (query_params request))))
         (str_items (path_params request))) = Some request_data ∧
    _parse_request_data request now = dict_set "_metadata" (metadata request now) request_data.
Proof.
  unfold _parse_request_data.
  destruct (parse_body request _) as [rd|] eqn:Hbody.
  - right. by exists rd.
  - left. split; [done|]. unfold parse_body in Hbody.
    case_decide; [|done]. destruct (contains "application/json" _).
    + by destruct (json_body request) as [[]|].
    + destruct (_ || _); [|done]. by destruct (form request).
Qed.

End RouterMoreFacts.

Section RouterMoreProperties.
Import WorkerManager ExecuteRouter Samples FlowSamples ManagerSamples RouterSamples MoreSamples.

(** X15.  How [_parse_request_data] layers its sources.  Unless a form body
    fails to decode (the result is then empty), the key [_metadata] always
    carries the metadata the handler writes, whatever the client sent under
    that name.  For any other key, a request without a body (no POST, PUT or
    PATCH) carries the path parameter of that name if there is one and else
    the last query parameter of that name; with a JSON object as body, the
    value of the body comes first. *)
Theorem X15_request_data_layers (request : Request) (now : Z) (k : string) :
  ((_parse_request_data request now = [] ∧ form request = None) ∨
   dict_get "_metadata" (_parse_request_data request now)
     = Some (VDict [("method", VStr (method request));
                    ("client_ip", VStr (default "unknown" (client_host request)));
                    ("user_agent", VStr (default "unknown" (user_agent request)));
                    ("timestamp", VInt now)])) ∧
  (k ≠ "_metadata" → method request ∉ ["POST"; "PUT"; "PATCH"] →
   dict_get k (_parse_request_data request now) =
     match dict_get k (dict_update [] (str_items (path_params request))) with
     | Some v => Some v
     | None => dict_get k (dict_update [] (str_items (query_params request)))
     end) ∧
  (∀ body_data,
     k ≠ "_metadata" → method request ∈ ["POST"; "PUT"; "PATCH"] →
     contains "application/json" (default "" (content_type request)) = true →
     json_body request = Some (VDict body_data) →
     dict_get k (_parse_request_data request now) =
       match dict_get k (dict_update [] body_data) with
       | Some v => Some v
       | None =>
           match dict_get k (dict_update [] (str_items (path_params request))) with
           | Some v => Some v
           | None => dict_get k (dict_update [] (str_items (query_params request)))
           end
       end).
Proof.
  split; [|split].
  - destruct (parse_request_data_cases request now) as [?|(rd & _ & ->)]; [by left|].
    right. rewrite dict_get_set. by rewrite decide_True.
  - intros Hk Hm. unfold _parse_request_data, parse_body.
    rewrite decide_False by done. rewrite dict_get_set, decide_False by done.
    apply url_data_get.
  - intros body_data Hk Hm Hct Hbody. unfold _parse_request_data, parse_body.
    rewrite decide_True by done. rewrite Hct, Hbody.
    rewrite dict_get_set, decide_False by done.
    rewrite dict_get_update_last.
    destruct (dict_get k (dict_update [] body_data)); [done|]. apply url_data_get.
Qed.

Lemma X15_witness :
  dict_get "limit" (_parse_request_data layered_get 7) = Some (VStr "3") ∧
  dict_get "_metadata" (_parse_request_data layered_get 7)
    = Some (VDict [("method", VStr "GET"); ("client_ip", VStr "unknown");
                   ("user_agent", VStr "unknown"); ("timestamp", VInt 7)]).
Proof.
  pose proof (X15_request_data_layers layered_get 7 "limit") as (Hmeta & Hget & _).
  split.
  - rewrite Hget; [reflexivity|done|]. apply (bool_decide_unpack _). by vm_compute.
  - destruct Hmeta as [[Hnil _]|Hmeta]; [discriminate Hnil|exact Hmeta].
Defined.

(** X16.  What the status of [run_published_api] says about the worker
    cache.  An answer 404 or 403 leaves the manager untouched: no worker is
    created for an unknown or inactive API.  An answer 200 means that the API
    was found and active and that the cache now holds a worker for it. *)
Theorem X16_dispatch_and_cache (order : SetOrder) (rt : FlowExecutor.NodeRuntime)
    (manager : WorkerManager.t) (query : option (option PublishedApi))
    (request : Request) (current_user : option User) (now : Z) :
  (status_code (run_published_api order rt manager query request current_user now).1 = 404 ∨
   status_code (run_published_api order rt manager query request current_user now).1 = 403 →
   (run_published_api order rt manager query request current_user now).2 = manager) ∧
  (status_code (run_published_api order rt manager query request current_user now).1 = 200 →
   ∃ published_api,
     _get_published_api query = Some published_api ∧
     is_active published_api = true ∧
     is_Some (dict_get (api_id published_api)
                (active_workers
                   (run_published_api order rt manager query request current_user now).2))).
Proof.
  unfold run_published_api.
  destruct (_get_published_api query) as [published_api|]; [|by split].
  destruct (is_active published_api) eqn:Hact; simpl; [|by split].
  destruct (get_or_create_worker order manager published_api _ now)
    as [[executor|e|] manager'] eqn:Hacq; simpl.
  - assert (Hcached : is_Some (dict_get (api_id published_api) (active_workers manager'))).
    { destruct (acquire_ok_cached _ _ _ _ _ _ _ Hacq) as (w & -> & _). by eexists. }
    destruct (FlowExecutor.execute rt (obj executor) _ _) as [result|e|]; simpl.
    + destruct (formatted_serializable _); simpl.
      * split; [by intros [?|?]|]. intros _. by exists published_api.
      * split; [by intros [?|?]|done].
    + split; [by intros [?|?]|done].
    + split; [by intros [?|?]|done].
  - split; [by intros [?|?]|done].
  - split; [by intros [?|?]|done].
Qed.

Lemma X16_witness :
  ∃ published_api,
    _get_published_api (Some (Some api_ab)) = Some published_api ∧
    is_active published_api = true ∧
    is_Some (dict_get (api_id published_api)
               (active_workers
                  (run_published_api insertion_order sample_runtime (initial stock_settings)
                     (Some (Some api_ab)) bad_json None 7).2)).
Proof.
  apply (X16_dispatch_and_cache insertion_order sample_runtime (initial stock_settings)
           (Some (Some api_ab)) bad_json None 7).
  reflexivity.
Defined.

End RouterMoreProperties.
